(** * A doubly-linked list container: model of [List<T>] and its iterators

    The development embeds the node store, the [List] object and the
    iterator classes of [listHeader.hpp] / [listImplementation.tpp] and
    proves the properties of the container's specification.

    Modelling conventions.
    - A non-null [Node*] is an address ([positive]); [Node*] itself is
      [option] of an address, [None] being [nullptr].
    - The free store is a finite map from addresses to nodes.  [new] takes
      an address that is not allocated, whichever the allocator picks
      (class [Allocator]), and always succeeds; [delete] removes the node,
      so a later access through a stale pointer is visible as a failed
      lookup.
    - [size_t] is a 64-bit unsigned integer: [++size] and [--size] wrap.
    - Every member function threads the object ([this]) and the store, and
      returns a [result]: a value, a thrown exception, undefined behaviour
      (a null or stale pointer is dereferenced), or an exhausted loop
      budget for the [while] loops that walk the store.
    - A source range, initializer list or [std::ranges] range is the
      sequence of values it yields.
    - A [const_iterator] behaves as an [iterator], a
      [const_reverse_iterator] as a [reverse_iterator], the [const]
      overloads of [front]/[back] as the others: constness is a matter of
      types only. *)

From stdpp Require Import gmap.

#[local] Set Warnings "-clear-no-such-hyp".

Abbreviation addr := positive.
Abbreviation ptr := (option addr).

(** ** Results of member functions *)

Inductive exn : Type := out_of_range.

Inductive result (A : Type) : Type :=
  | Ok (a : A)
  | Throw (e : exn)
  | Undefined
  | OutOfFuel.
Arguments Ok {A} a.
Arguments Throw {A} e.
Arguments Undefined {A}.
Arguments OutOfFuel {A}.

#[export] Instance result_ret : MRet result := @Ok.
#[export] Instance result_bind : MBind result := fun A B f m =>
  match m with
  | Ok a => f a
  | Throw e => Throw e
  | Undefined => Undefined
  | OutOfFuel => OutOfFuel
  end.

(** ** [size_t] arithmetic *)

Definition SIZE_MAX : Z := 2 ^ 64 - 1.
Definition size_incr (n : Z) : Z := (n + 1) mod 2 ^ 64.
Definition size_decr (n : Z) : Z := (n - 1) mod 2 ^ 64.

Section ListImplementation.

Context {T : Type}.

(** ** Data model: [struct Node], [class List], the iterator classes *)

Record Node : Type := mkNode { data : T; next : ptr; prev : ptr }.

Record List : Type := mkList { head : ptr; tail : ptr; size : Z }.

Record iterator : Type := mk_iterator { node_ptr : ptr }.
Record reverse_iterator : Type := mk_reverse_iterator { rnode_ptr : ptr }.

(** A [T&] into a node: the address of the node whose [data] it denotes. *)
Definition reference : Type := addr.

#[export] Instance iterator_eq_dec : EqDecision iterator.
Proof. solve_decision. Defined.
#[export] Instance reverse_iterator_eq_dec : EqDecision reverse_iterator.
Proof. solve_decision. Defined.

(** [operator new]: the allocator returns an address that is not in use. *)
Class Allocator : Type := {
  alloc : gmap addr Node → addr;
  alloc_fresh : ∀ h : gmap addr Node, h !! alloc h = None
}.

Context {HA : Allocator}.

(** ** Access to the store *)

(** [*p] *)
Definition load (h : gmap addr Node) (p : ptr) : result Node :=
  match p with
  | None => Undefined
  | Some a => match h !! a with Some n => Ok n | None => Undefined end
  end.

(** [p->next = q] *)
Definition store_next (h : gmap addr Node) (p q : ptr) : result (gmap addr Node) :=
  match p with
  | None => Undefined
  | Some a =>
      match h !! a with
      | Some n => Ok (<[a := mkNode (data n) q (prev n)]> h)
      | None => Undefined
      end
  end.

(** [p->prev = q] *)
Definition store_prev (h : gmap addr Node) (p q : ptr) : result (gmap addr Node) :=
  match p with
  | None => Undefined
  | Some a =>
      match h !! a with
      | Some n => Ok (<[a := mkNode (data n) (next n) q]> h)
      | None => Undefined
      end
  end.

(** [new Node(value)]: both links are [nullptr]. *)
Definition new_Node (h : gmap addr Node) (value : T) : addr * gmap addr Node :=
  let a := alloc h in (a, <[a := mkNode value None None]> h).

(** [delete p] for a non-null [p]. *)
Definition delete_Node (h : gmap addr Node) (a : addr) : result (gmap addr Node) :=
  match h !! a with
  | Some _ => Ok (delete a h)
  | None => Undefined
  end.

(** ** [List<T>::iterator] *)

(** [operator*]: [return node_ptr->data] *)
Definition iterator_deref (h : gmap addr Node) (it : iterator) : result T :=
  n ← load h (node_ptr it); Ok (data n).

(** [operator++]: [node_ptr = node_ptr->next] *)
Definition iterator_incr (h : gmap addr Node) (it : iterator) : result iterator :=
  n ← load h (node_ptr it); Ok (mk_iterator (next n)).

(** [operator--]: [node_ptr = node_ptr->prev] *)
Definition iterator_decr (h : gmap addr Node) (it : iterator) : result iterator :=
  n ← load h (node_ptr it); Ok (mk_iterator (prev n)).

(** ** [List<T>::reverse_iterator] *)

Definition reverse_iterator_deref (h : gmap addr Node) (it : reverse_iterator) : result T :=
  n ← load h (rnode_ptr it); Ok (data n).

(** [operator++]: [node_ptr = node_ptr->prev] *)
Definition reverse_iterator_incr (h : gmap addr Node) (it : reverse_iterator)
  : result reverse_iterator :=
  n ← load h (rnode_ptr it); Ok (mk_reverse_iterator (prev n)).

(** [operator--]: [node_ptr = node_ptr->next] *)
Definition reverse_iterator_decr (h : gmap addr Node) (it : reverse_iterator)
  : result reverse_iterator :=
  n ← load h (rnode_ptr it); Ok (mk_reverse_iterator (next n)).

(** ** [List<T>]: construction and observers *)

(** [List()] *)
Definition List_new : List := mkList None None 0.

Definition begin (this : List) : iterator := mk_iterator (head this).
Definition end_ (this : List) : iterator := mk_iterator None.
Definition cbegin (this : List) : iterator := mk_iterator (head this).
Definition cend (this : List) : iterator := mk_iterator None.
Definition rbegin (this : List) : reverse_iterator := mk_reverse_iterator (tail this).
Definition rend (this : List) : reverse_iterator := mk_reverse_iterator None.
Definition getSize (this : List) : Z := size this.
Definition empty (this : List) : bool := bool_decide (begin this = end_ this).

(** [front()]: throws on a null [head], else [return head->data]. *)
Definition front (this : List) (h : gmap addr Node) : result reference :=
  match head this with
  | None => Throw out_of_range
  | Some a => _ ← load h (Some a); Ok a
  end.

(** [back()]: throws on a null [tail], else [return tail->data]. *)
Definition back (this : List) (h : gmap addr Node) : result reference :=
  match tail this with
  | None => Throw out_of_range
  | Some a => _ ← load h (Some a); Ok a
  end.

(** Reading through a [T&]. *)
Definition read (h : gmap addr Node) (r : reference) : result T :=
  n ← load h (Some r); Ok (data n).

(** ** Insertion *)

(** The linking code shared by [push_back], [emplace_back] and the
    end-position branch of [insert]/[emplace]; [is_empty] is the test the
    caller makes ([!head] or [!tail]). *)
Definition link_back (this : List) (h : gmap addr Node) (is_empty : bool) (new_node : addr)
  : result (List * gmap addr Node) :=
  if is_empty then
    (* head = tail = new_node *)
    Ok (mkList (Some new_node) (Some new_node) (size this), h)
  else
    (* tail->next = new_node; new_node->prev = tail; tail = new_node *)
    h ← store_next h (tail this) (Some new_node);
    h ← store_prev h (Some new_node) (tail this);
    Ok (mkList (head this) (Some new_node) (size this), h).

(** The linking code of [push_front] and [emplace_front]. *)
Definition link_front (this : List) (h : gmap addr Node) (new_node : addr)
  : result (List * gmap addr Node) :=
  match head this with
  | None =>
      Ok (mkList (Some new_node) (Some new_node) (size this), h)
  | Some _ =>
      (* head->prev = new_node; new_node->next = head; head = new_node *)
      h ← store_prev h (head this) (Some new_node);
      h ← store_next h (Some new_node) (head this);
      Ok (mkList (Some new_node) (tail this) (size this), h)
  end.

Definition bump (this : List) : List :=
  mkList (head this) (tail this) (size_incr (size this)).

Definition push_back (this : List) (h : gmap addr Node) (value : T)
  : result (List * gmap addr Node) :=
  let '(new_node, h) := new_Node h value in
  '(this, h) ← link_back this h (bool_decide (head this = None)) new_node;
  Ok (bump this, h).

Definition emplace_back (this : List) (h : gmap addr Node) (args : T)
  : result (reference * List * gmap addr Node) :=
  let '(new_node, h) := new_Node h args in
  '(this, h) ← link_back this h (bool_decide (tail this = None)) new_node;
  _ ← load h (Some new_node);
  Ok (new_node, bump this, h).

Definition push_front (this : List) (h : gmap addr Node) (value : T)
  : result (List * gmap addr Node) :=
  let '(new_node, h) := new_Node h value in
  '(this, h) ← link_front this h new_node;
  Ok (bump this, h).

Definition emplace_front (this : List) (h : gmap addr Node) (args : T)
  : result (reference * List * gmap addr Node) :=
  let '(new_node, h) := new_Node h args in
  '(this, h) ← link_front this h new_node;
  _ ← load h (Some new_node);
  Ok (new_node, bump this, h).

(** [insert(pos, value)]; the four single-element overloads and
    [emplace(pos, args...)] have this body. *)
Definition insert (this : List) (h : gmap addr Node) (pos : iterator) (value : T)
  : result (iterator * List * gmap addr Node) :=
  let '(new_node, h) := new_Node h value in
  let current := node_ptr pos in
  '(this, h) ←
    match current with
    | None => link_back this h (bool_decide (head this = None)) new_node
    | Some _ =>
        if bool_decide (current = head this) then
          (* new_node->next = head; head->prev = new_node; head = new_node *)
          h ← store_next h (Some new_node) (head this);
          h ← store_prev h (head this) (Some new_node);
          Ok (mkList (Some new_node) (tail this) (size this), h)
        else
          (* new_node->next = current; new_node->prev = current->prev;
             current->prev->next = new_node; current->prev = new_node *)
          h ← store_next h (Some new_node) current;
          c ← load h current;
          h ← store_prev h (Some new_node) (prev c);
          c ← load h current;
          h ← store_next h (prev c) (Some new_node);
          h ← store_prev h current (Some new_node);
          Ok (this, h)
    end;
  Ok (mk_iterator (Some new_node), bump this, h).

Definition emplace := insert.

(** [insert(pos, count, value)]:
    [for (i = 0; i < count; ++i) iter = insert(iter, value); return iter] *)
Fixpoint insert_count_loop (count : nat) (this : List) (h : gmap addr Node)
    (iter : iterator) (value : T) : result (iterator * List * gmap addr Node) :=
  match count with
  | O => Ok (iter, this, h)
  | S count =>
      '(iter, this, h) ← insert this h iter value;
      insert_count_loop count this h iter value
  end.

Definition insert_count (this : List) (h : gmap addr Node) (pos : iterator)
    (count : nat) (value : T) : result (iterator * List * gmap addr Node) :=
  let iter := pos in
  insert_count_loop count this h iter value.

(** [insert(pos, first, last)]; the source range [[first, last)] is the
    sequence of values it denotes:
    [while (first != last) { iter = insert(iter, *first); ++first; } return iter] *)
Fixpoint insert_range_loop (range : list T) (this : List) (h : gmap addr Node)
    (iter : iterator) : result (iterator * List * gmap addr Node) :=
  match range with
  | [] => Ok (iter, this, h)
  | x :: range =>
      '(iter, this, h) ← insert this h iter x;
      insert_range_loop range this h iter
  end.

Definition insert_range (this : List) (h : gmap addr Node) (pos : iterator)
    (range : list T) : result (iterator * List * gmap addr Node) :=
  let iter := pos in
  insert_range_loop range this h iter.

(** [insert(pos, ilist)]: [return insert(pos, ilist.begin(), ilist.end())] *)
Definition insert_ilist (this : List) (h : gmap addr Node) (pos : iterator)
    (ilist : list T) : result (iterator * List * gmap addr Node) :=
  insert_range this h pos ilist.

(** [append_range(rg)]: [for (auto&& elem : rg) emplace_back(elem)] *)
Fixpoint append_range (this : List) (h : gmap addr Node) (rg : list T)
  : result (List * gmap addr Node) :=
  match rg with
  | [] => Ok (this, h)
  | elem :: rg =>
      '(_, this, h) ← emplace_back this h elem;
      append_range this h rg
  end.

(** [prepend_range(rg)]:
    [for (it = rbegin(rg); it != rend(rg); ++it) emplace_front( *it )];
    [rrg] is the source as the reverse iterators of [rg] visit it. *)
Fixpoint prepend_range_loop (this : List) (h : gmap addr Node) (rrg : list T)
  : result (List * gmap addr Node) :=
  match rrg with
  | [] => Ok (this, h)
  | x :: rrg =>
      '(_, this, h) ← emplace_front this h x;
      prepend_range_loop this h rrg
  end.

Definition prepend_range (this : List) (h : gmap addr Node) (rg : list T)
  : result (List * gmap addr Node) :=
  prepend_range_loop this h (reverse rg).

(** ** Removal *)

Definition drop_one (this : List) : List :=
  mkList (head this) (tail this) (size_decr (size this)).

Definition erase (this : List) (h : gmap addr Node) (pos : iterator)
  : result (iterator * List * gmap addr Node) :=
  let current := node_ptr pos in
  match current with
  | None => Ok (end_ this, this, h)
  | Some cur =>
      c ← load h current;
      let next_node := next c in
      '(this, h) ←
        (if bool_decide (current = head this) then
           (* head = current->next *)
           c ← load h current;
           let this := mkList (next c) (tail this) (size this) in
           match head this with
           | Some _ =>
               h ← store_prev h (head this) None;
               Ok (this, h)
           | None => Ok (mkList (head this) None (size this), h)
           end
         else if bool_decide (current = tail this) then
           (* tail = tail->prev *)
           t ← load h (tail this);
           let this := mkList (head this) (prev t) (size this) in
           match tail this with
           | Some _ =>
               h ← store_next h (tail this) None;
               Ok (this, h)
           | None => Ok (mkList None (tail this) (size this), h)
           end
         else
           (* current->prev->next = current->next;
              current->next->prev = current->prev *)
           c ← load h current;
           h ← store_next h (prev c) (next c);
           c ← load h current;
           h ← store_prev h (next c) (prev c);
           Ok (this, h));
      h ← delete_Node h cur;
      Ok (mk_iterator next_node, drop_one this, h)
  end.

(** [erase(first, last)]:
    [while (first != last) first = erase(first); return last] *)
Fixpoint erase_range (fuel : nat) (this : List) (h : gmap addr Node)
    (first last : iterator) : result (iterator * List * gmap addr Node) :=
  if bool_decide (first = last) then Ok (last, this, h)
  else
    match fuel with
    | O => OutOfFuel
    | S fuel =>
        '(first, this, h) ← erase this h first;
        erase_range fuel this h first last
    end.

Definition pop_back (this : List) (h : gmap addr Node) : result (List * gmap addr Node) :=
  match head this with
  | None => Ok (this, h)
  | Some _ =>
      let temp := tail this in
      t ← load h (tail this);
      let this := mkList (head this) (prev t) (size this) in
      '(this, h) ←
        match tail this with
        | Some _ => h ← store_next h (tail this) None; Ok (this, h)
        | None => Ok (mkList None (tail this) (size this), h)
        end;
      h ← from_option (delete_Node h) Undefined temp;
      Ok (drop_one this, h)
  end.

Definition pop_front (this : List) (h : gmap addr Node) : result (List * gmap addr Node) :=
  match head this with
  | None => Ok (this, h)
  | Some hd =>
      let temp := hd in
      n ← load h (head this);
      let this := mkList (next n) (tail this) (size this) in
      '(this, h) ←
        match head this with
        | Some _ => h ← store_prev h (head this) None; Ok (this, h)
        | None => Ok (mkList (head this) None (size this), h)
        end;
      h ← delete_Node h temp;
      Ok (drop_one this, h)
  end.

(** The loop of [clear()]:
    [while (current) { tmp = current->next; delete current; current = tmp; }] *)
Fixpoint clear_loop (fuel : nat) (h : gmap addr Node) (current : ptr)
  : result (gmap addr Node) :=
  match current with
  | None => Ok h
  | Some cur =>
      match fuel with
      | O => OutOfFuel
      | S fuel =>
          c ← load h current;
          let tmp := next c in
          h ← delete_Node h cur;
          clear_loop fuel h tmp
      end
  end.

Definition clear (fuel : nat) (this : List) (h : gmap addr Node)
  : result (List * gmap addr Node) :=
  h ← clear_loop fuel h (head this);
  Ok (mkList None None 0, h).

(** ** Size and shape *)

(** [while (size > count) pop_back()] *)
Fixpoint resize_shrink (fuel : nat) (this : List) (h : gmap addr Node) (count : Z)
  : result (List * gmap addr Node) :=
  if bool_decide (size this > count)%Z then
    match fuel with
    | O => OutOfFuel
    | S fuel =>
        '(this, h) ← pop_back this h;
        resize_shrink fuel this h count
    end
  else Ok (this, h).

(** [while (size < count) emplace_back(value)] *)
Fixpoint resize_grow (fuel : nat) (this : List) (h : gmap addr Node) (count : Z)
    (value : T) : result (List * gmap addr Node) :=
  if bool_decide (size this < count)%Z then
    match fuel with
    | O => OutOfFuel
    | S fuel =>
        '(_, this, h) ← emplace_back this h value;
        resize_grow fuel this h count value
    end
  else Ok (this, h).

(** [resize(count, value)]; [resize(count)] is the same with [value] the
    value-initialised [T()] that [emplace_back()] constructs. *)
Definition resize (fuel : nat) (this : List) (h : gmap addr Node) (count : Z)
    (value : T) : result (List * gmap addr Node) :=
  if bool_decide (count < size this)%Z then resize_shrink fuel this h count
  else if bool_decide (count > size this)%Z then resize_grow fuel this h count value
  else Ok (this, h).

(** ** Assignment from values *)

(** [for (const auto& elem : list) push_back(elem)] *)
Fixpoint push_back_all (this : List) (h : gmap addr Node) (elems : list T)
  : result (List * gmap addr Node) :=
  match elems with
  | [] => Ok (this, h)
  | elem :: elems =>
      '(this, h) ← push_back this h elem;
      push_back_all this h elems
  end.

(** [operator=(initializer_list)], [assign(initializer_list)] and
    [assign(first, last)]: [clear()], then [push_back] of every element. *)
Definition assign_range (fuel : nat) (this : List) (h : gmap addr Node) (elems : list T)
  : result (List * gmap addr Node) :=
  '(this, h) ← clear fuel this h;
  push_back_all this h elems.

(** [for (i = 0; i < count; ++i) push_back(value)] *)
Fixpoint push_back_count (count : nat) (this : List) (h : gmap addr Node) (value : T)
  : result (List * gmap addr Node) :=
  match count with
  | O => Ok (this, h)
  | S count =>
      '(this, h) ← push_back this h value;
      push_back_count count this h value
  end.

(** [assign(count, value)] *)
Definition assign_count (fuel : nat) (this : List) (h : gmap addr Node)
    (count : nat) (value : T) : result (List * gmap addr Node) :=
  '(this, h) ← clear fuel this h;
  push_back_count count this h value.

(** ** Several lists in one program

    [swap] and the assignments from another list take a second [List]
    object, which may be the same object as [this].  The objects live in
    an object store, and a list is named by its index there. *)

Record world : Type := mkWorld { lists : list List; heap : gmap addr Node }.

Definition get_list (w : world) (i : nat) : result List :=
  match lists w !! i with
  | Some l => Ok l
  | None => Undefined
  end.

Definition set_head (i : nat) (p : ptr) (w : world) : result world :=
  l ← get_list w i;
  Ok (mkWorld (<[i := mkList p (tail l) (size l)]> (lists w)) (heap w)).

Definition set_tail (i : nat) (p : ptr) (w : world) : result world :=
  l ← get_list w i;
  Ok (mkWorld (<[i := mkList (head l) p (size l)]> (lists w)) (heap w)).

Definition set_size (i : nat) (n : Z) (w : world) : result world :=
  l ← get_list w i;
  Ok (mkWorld (<[i := mkList (head l) (tail l) n]> (lists w)) (heap w)).

(** A member function called on the object [this]. *)
Definition call (f : List → gmap addr Node → result (List * gmap addr Node))
    (this : nat) (w : world) : result world :=
  l ← get_list w this;
  '(l, h) ← f l (heap w);
  Ok (mkWorld (<[this := l]> (lists w)) h).

Definition call_ret {A : Type}
    (f : List → gmap addr Node → result (A * List * gmap addr Node))
    (this : nat) (w : world) : result world :=
  l ← get_list w this;
  '(_, l, h) ← f l (heap w);
  Ok (mkWorld (<[this := l]> (lists w)) h).

(** A new [List] object, default constructed. *)
Definition construct (w : world) : world :=
  mkWorld (lists w ++ [List_new]) (heap w).

(** [swap(other)]: [std::swap] of the three fields, each being
    [tmp = a; a = b; b = tmp] on the two objects. *)
Definition swap (this other : nat) (w : world) : result world :=
  a ← get_list w this; b ← get_list w other;
  let tmp := head a in
  w ← set_head this (head b) w;
  w ← set_head other tmp w;
  a ← get_list w this; b ← get_list w other;
  let tmp := tail a in
  w ← set_tail this (tail b) w;
  w ← set_tail other tmp w;
  a ← get_list w this; b ← get_list w other;
  let tmp := size a in
  w ← set_size this (size b) w;
  set_size other tmp w.

(** [operator=(List&& other)] *)
Definition move_assign (fuel : nat) (this other : nat) (w : world) : result world :=
  if bool_decide (this ≠ other) then
    w ← call (clear fuel) this w;
    o ← get_list w other; w ← set_head this (head o) w;
    o ← get_list w other; w ← set_tail this (tail o) w;
    o ← get_list w other; w ← set_size this (size o) w;
    w ← set_head other None w;
    w ← set_tail other None w;
    set_size other 0 w
  else Ok w.

(** [for (current = other.head; current; current = current->next)
       push_back(current->data)] *)
Fixpoint copy_loop (fuel : nat) (this : nat) (current : ptr) (w : world) : result world :=
  match current with
  | None => Ok w
  | Some _ =>
      match fuel with
      | O => OutOfFuel
      | S fuel =>
          c ← load (heap w) current;
          w ← call (λ l h, push_back l h (data c)) this w;
          c ← load (heap w) current;
          copy_loop fuel this (next c) w
      end
  end.

(** [operator=(const List& other)] *)
Definition copy_assign (fuel : nat) (this other : nat) (w : world) : result world :=
  if bool_decide (this ≠ other) then
    w ← call (clear fuel) this w;
    o ← get_list w other;
    copy_loop fuel this (head o) w
  else Ok w.

(** ** Programs over the public interface *)

(** [T()], the value that [resize(count)] appends: the element type is to
    be default constructible. *)
Class DefaultConstructible : Type := value_init : T.

Context {HV : DefaultConstructible}.

Inductive op : Type :=
  | Construct
  | PushBack (this : nat) (value : T)
  | PushFront (this : nat) (value : T)
  | EmplaceBack (this : nat) (args : T)
  | EmplaceFront (this : nat) (args : T)
  | Insert (this : nat) (pos : iterator) (value : T)
  | Emplace (this : nat) (pos : iterator) (args : T)
  | InsertCount (this : nat) (pos : iterator) (count : nat) (value : T)
  | InsertRange (this : nat) (pos : iterator) (range : list T)
  | InsertIlist (this : nat) (pos : iterator) (ilist : list T)
  | Erase (this : nat) (pos : iterator)
  | EraseRange (this : nat) (first last : iterator)
  | PopBack (this : nat)
  | PopFront (this : nat)
  | Resize (this : nat) (count : Z)
  | ResizeValue (this : nat) (count : Z) (value : T)
  | Clear (this : nat)
  | Swap (this other : nat)
  | MoveAssign (this other : nat)
  | CopyAssign (this other : nat)
  | AssignIlist (this : nat) (ilist : list T)
  | AssignCount (this : nat) (count : nat) (value : T)
  | AssignRange (this : nat) (range : list T)
  | AppendRange (this : nat) (rg : list T)
  | PrependRange (this : nat) (rg : list T).

Definition step (fuel : nat) (o : op) (w : world) : result world :=
  match o with
  | Construct => Ok (construct w)
  | PushBack this value => call (λ l h, push_back l h value) this w
  | PushFront this value => call (λ l h, push_front l h value) this w
  | EmplaceBack this args => call_ret (λ l h, emplace_back l h args) this w
  | EmplaceFront this args => call_ret (λ l h, emplace_front l h args) this w
  | Insert this pos value => call_ret (λ l h, insert l h pos value) this w
  | Emplace this pos args => call_ret (λ l h, emplace l h pos args) this w
  | InsertCount this pos count value =>
      call_ret (λ l h, insert_count l h pos count value) this w
  | InsertRange this pos range => call_ret (λ l h, insert_range l h pos range) this w
  | InsertIlist this pos ilist => call_ret (λ l h, insert_ilist l h pos ilist) this w
  | Erase this pos => call_ret (λ l h, erase l h pos) this w
  | EraseRange this first last =>
      call_ret (λ l h, erase_range fuel l h first last) this w
  | PopBack this => call pop_back this w
  | PopFront this => call pop_front this w
  | Resize this count => call (λ l h, resize fuel l h count value_init) this w
  | ResizeValue this count value => call (λ l h, resize fuel l h count value) this w
  | Clear this => call (clear fuel) this w
  | Swap this other => swap this other w
  | MoveAssign this other => move_assign fuel this other w
  | CopyAssign this other => copy_assign fuel this other w
  | AssignIlist this ilist => call (λ l h, assign_range fuel l h ilist) this w
  | AssignCount this count value =>
      call (λ l h, assign_count fuel l h count value) this w
  | AssignRange this range => call (λ l h, assign_range fuel l h range) this w
  | AppendRange this rg => call (λ l h, append_range l h rg) this w
  | PrependRange this rg => call (λ l h, prepend_range l h rg) this w
  end.

(** A program: a sequence of calls, stopped by the first one that fails. *)
Fixpoint run (fuel : nat) (ops : list op) (w : world) : result world :=
  match ops with
  | [] => Ok w
  | o :: ops => w ← step fuel o w; run fuel ops w
  end.

(** ** Traversals, as client code writes them *)

(** [for (it = first; it != last; ++it) out.push_back( *it )] *)
Fixpoint collect (fuel : nat) (h : gmap addr Node) (it last : iterator) : result (list T) :=
  if bool_decide (it = last) then Ok []
  else
    match fuel with
    | O => OutOfFuel
    | S fuel =>
        x ← iterator_deref h it;
        it ← iterator_incr h it;
        xs ← collect fuel h it last;
        Ok (x :: xs)
    end.

Fixpoint rcollect (fuel : nat) (h : gmap addr Node) (it last : reverse_iterator)
  : result (list T) :=
  if bool_decide (it = last) then Ok []
  else
    match fuel with
    | O => OutOfFuel
    | S fuel =>
        x ← reverse_iterator_deref h it;
        it ← reverse_iterator_incr h it;
        xs ← rcollect fuel h it last;
        Ok (x :: xs)
    end.

(** Forward traversal from [begin()] to [end()]. *)
Definition traverse (fuel : nat) (this : List) (h : gmap addr Node) : result (list T) :=
  collect fuel h (begin this) (end_ this).

(** Reverse traversal from [rbegin()] to [rend()]. *)
Definition rtraverse (fuel : nat) (this : List) (h : gmap addr Node) : result (list T) :=
  rcollect fuel h (rbegin this) (rend this).

(** The node an iterator reaches after [k] increments. *)
Fixpoint advance (h : gmap addr Node) (k : nat) (it : iterator) : result iterator :=
  match k with
  | O => Ok it
  | S k => it ← iterator_incr h it; advance h k it
  end.

(** ** The remaining iterator operators and the destructor *)

(** [iterator::operator++(int)]:
    [tmp = *this; node_ptr = node_ptr->next; return tmp].  The result is
    the returned copy, then the iterator as the call leaves it. *)
Definition iterator_post_incr (h : gmap addr Node) (it : iterator)
  : result (iterator * iterator) :=
  let tmp := it in
  n ← load h (node_ptr it);
  Ok (tmp, mk_iterator (next n)).

(** [iterator::operator--(int)] *)
Definition iterator_post_decr (h : gmap addr Node) (it : iterator)
  : result (iterator * iterator) :=
  let tmp := it in
  n ← load h (node_ptr it);
  Ok (tmp, mk_iterator (prev n)).

(** [iterator::operator->]: [return &node_ptr->data] *)
Definition iterator_arrow (h : gmap addr Node) (it : iterator) : result reference :=
  match node_ptr it with
  | None => Undefined
  | Some a => _ ← load h (Some a); Ok a
  end.

(** [reverse_iterator::operator++(int)]: the copy, then [node_ptr->prev]. *)
Definition reverse_iterator_post_incr (h : gmap addr Node) (it : reverse_iterator)
  : result (reverse_iterator * reverse_iterator) :=
  let tmp := it in
  n ← load h (rnode_ptr it);
  Ok (tmp, mk_reverse_iterator (prev n)).

(** [reverse_iterator::operator--(int)]: the copy, then [node_ptr->next]. *)
Definition reverse_iterator_post_decr (h : gmap addr Node) (it : reverse_iterator)
  : result (reverse_iterator * reverse_iterator) :=
  let tmp := it in
  n ← load h (rnode_ptr it);
  Ok (tmp, mk_reverse_iterator (next n)).

(** [reverse_iterator::operator->] *)
Definition reverse_iterator_arrow (h : gmap addr Node) (it : reverse_iterator)
  : result reference :=
  match rnode_ptr it with
  | None => Undefined
  | Some a => _ ← load h (Some a); Ok a
  end.

(** [~List()]: [clear()] *)
Definition List_destroy (fuel : nat) (this : List) (h : gmap addr Node)
  : result (List * gmap addr Node) :=
  clear fuel this h.

(** The end of the scope that declared the first [n] lists of the object
    store: their destructors run, the last constructed first. *)
Fixpoint destroy_all (fuel : nat) (n : nat) (w : world) : result world :=
  match n with
  | O => Ok w
  | S n =>
      w ← call (List_destroy fuel) n w;
      destroy_all fuel n w
  end.

(** ** Representation of a list in the store

    [cs] lists the nodes of a chain front to back, each with its element.
    [seg h p cs nx] says that the store holds these nodes linked in this
    order, the first one's [prev] being [p] and the last one's [next]
    being [nx]. *)

Definition first_of (cs : list (addr * T)) (nx : ptr) : ptr :=
  match cs with
  | [] => nx
  | c :: _ => Some c.1
  end.

Definition last_of (p : ptr) (cs : list (addr * T)) : ptr :=
  match last cs with
  | Some c => Some c.1
  | None => p
  end.

Fixpoint seg (h : gmap addr Node) (p : ptr) (cs : list (addr * T)) (nx : ptr) : Prop :=
  match cs with
  | [] => True
  | c :: cs' =>
      h !! c.1 = Some (mkNode c.2 (first_of cs' nx) p) ∧ seg h (Some c.1) cs' nx
  end.

(** The links and the [head]/[tail] fields of [l] describe the chain [cs]. *)
Definition chain (h : gmap addr Node) (l : List) (cs : list (addr * T)) : Prop :=
  seg h None cs None ∧ NoDup cs.*1 ∧
  head l = first_of cs None ∧ tail l = last_of None cs.

(** ... and [size], a [size_t], counts its nodes. *)
Definition Rep (h : gmap addr Node) (l : List) (cs : list (addr * T)) : Prop :=
  chain h l cs ∧ size l = Z.of_nat (length cs) ∧ (size l ≤ SIZE_MAX)%Z.

(** The list is well formed and holds the elements [vs], front to back. *)
Definition contents (h : gmap addr Node) (l : List) (vs : list T) : Prop :=
  ∃ cs, chain h l cs ∧ cs.*2 = vs.

(** What an operation on a list with chain [cs] may do to the store: nodes
    outside the chain stay as they are, and the chain [cs'] it leaves is
    made of old nodes of the chain and newly allocated ones. *)
Definition framed (h : gmap addr Node) (cs : list (addr * T))
    (h' : gmap addr Node) (cs' : list (addr * T)) : Prop :=
  (∀ a, a ∉ cs.*1 → is_Some (h !! a) → h' !! a = h !! a) ∧
  (∀ a, a ∈ cs'.*1 → a ∈ cs.*1 ∨ h !! a = None).

(** ** The invariant of the specification, in its own terms *)

(** [nodes] are the nodes met by following [next] from [p] up to [nullptr]. *)
Fixpoint walk (h : gmap addr Node) (p : ptr) (nodes : list addr) : Prop :=
  match nodes with
  | [] => p = None
  | a :: nodes => p = Some a ∧ ∃ n, h !! a = Some n ∧ walk h (next n) nodes
  end.

Definition list_invariant (h : gmap addr Node) (l : List) : Prop :=
  ∃ nodes : list addr,
    walk h (head l) nodes ∧
    size l = Z.of_nat (length nodes) ∧
    (head l = None ↔ tail l = None) ∧
    (∀ a n m, a ∈ nodes → h !! a = Some n → next n = Some m →
       ∃ n', h !! m = Some n' ∧ prev n' = Some a) ∧
    (∀ a, head l = Some a → ∃ n, h !! a = Some n ∧ prev n = None) ∧
    (∀ a, tail l = Some a → ∃ n, h !! a = Some n ∧ next n = None).

(** ** Well-formed programs

    The container checks no iterator.  A position handed to [insert] or
    [erase] must be one that [begin()] reaches by increments (this includes
    [end()]), the end of an erased range must be reachable from its start,
    sizes and counts are [size_t] values, and the nodes of a list are fewer
    than [SIZE_MAX]. *)

Definition in_range (h : gmap addr Node) (l : List) (pos : iterator) : Prop :=
  ∃ k, advance h k (begin l) = Ok pos.

Definition room (w : world) (this : nat) (n : nat) : Prop :=
  ∃ l, lists w !! this = Some l ∧ (size l + Z.of_nat n ≤ SIZE_MAX)%Z.

Definition position (w : world) (this : nat) (pos : iterator) : Prop :=
  ∃ l, lists w !! this = Some l ∧ in_range (heap w) l pos.

Definition legal_op (w : world) (o : op) : Prop :=
  match o with
  | Construct => True
  | PushBack this _ | PushFront this _
  | EmplaceBack this _ | EmplaceFront this _ => room w this 1
  | Insert this pos _ | Emplace this pos _ => room w this 1 ∧ position w this pos
  | InsertCount this pos count _ => room w this count ∧ position w this pos
  | InsertRange this pos range | InsertIlist this pos range =>
      room w this (length range) ∧ position w this pos
  | Erase this pos => position w this pos
  | EraseRange this first last =>
      position w this first ∧ ∃ k, advance (heap w) k first = Ok last
  | PopBack this | PopFront this | Clear this => is_Some (lists w !! this)
  | Resize this count | ResizeValue this count _ =>
      is_Some (lists w !! this) ∧ (0 ≤ count ≤ SIZE_MAX)%Z
  | Swap this other | MoveAssign this other | CopyAssign this other =>
      is_Some (lists w !! this) ∧ is_Some (lists w !! other)
  | AssignIlist this elems | AssignRange this elems =>
      is_Some (lists w !! this) ∧ (Z.of_nat (length elems) ≤ SIZE_MAX)%Z
  | AssignCount this count _ =>
      is_Some (lists w !! this) ∧ (Z.of_nat count ≤ SIZE_MAX)%Z
  | AppendRange this rg | PrependRange this rg => room w this (length rg)
  end.

(** The states a program reaches from the start, where no list exists yet. *)
Inductive reachable : world → Prop :=
  | reachable_start : reachable (mkWorld [] ∅)
  | reachable_step w o fuel w' :
      reachable w → legal_op w o → step fuel o w = Ok w' → reachable w'.

(** The lists of a world own disjoint chains: [css] gives the chain of
    each list. *)
Definition winv (w : world) (css : list (list (addr * T))) : Prop :=
  length css = length (lists w) ∧
  (∀ i l cs, lists w !! i = Some l → css !! i = Some cs → Rep (heap w) l cs) ∧
  (∀ i j ci cj a, i ≠ j → css !! i = Some ci → css !! j = Some cj →
     a ∈ ci.*1 → a ∉ cj.*1).

Definition world_inv (w : world) : Prop := ∃ css, winv w css.

(** Auxiliary notions of the proofs. *)

(** The permutation of list indices that [swap] performs. *)
Definition exchange (this other i : nat) : nat :=
  if decide (i = other) then this else if decide (i = this) then other else i.

(** An operation completes and leaves a represented list. *)
Definition kept (h : gmap addr Node) (cs : list (addr * T))
    (m : result (List * gmap addr Node)) : Prop :=
  ∃ l' h' cs', m = Ok (l', h') ∧ Rep h' l' cs' ∧ framed h cs h' cs'.

Definition kept_ret {A} (h : gmap addr Node) (cs : list (addr * T))
    (m : result (A * List * gmap addr Node)) : Prop :=
  ∃ r l' h' cs', m = Ok (r, l', h') ∧ Rep h' l' cs' ∧ framed h cs h' cs'.

(** The store [h'] has no node that [h] has not, but for those in [S]. *)
Definition grows (h h' : gmap addr Node) (S : list addr) : Prop :=
  ∀ a, is_Some (h' !! a) → a ∈ S ∨ is_Some (h !! a).

(** Off the chain [cs'] that an operation leaves, the store is as before,
    but that the nodes of the former chain [cs] are gone. *)
Definition settled (h : gmap addr Node) (cs : list (addr * T))
    (h' : gmap addr Node) (cs' : list (addr * T)) : Prop :=
  ∀ a, a ∉ cs'.*1 → h' !! a = if decide (a ∈ cs.*1) then None else h !! a.

Definition moved (h : gmap addr Node) (cs : list (addr * T))
    (h' : gmap addr Node) (cs' : list (addr * T)) : Prop :=
  framed h cs h' cs' ∧ settled h cs h' cs'.

(** If the operation completes, its result has a chain and the store moved
    to it. *)
Definition moves (h : gmap addr Node) (cs : list (addr * T))
    (m : result (List * gmap addr Node)) : Prop :=
  ∀ l' h', m = Ok (l', h') → ∃ cs', chain h' l' cs' ∧ moved h cs h' cs'.

Definition moves_ret {A} (h : gmap addr Node) (cs : list (addr * T))
    (m : result (A * List * gmap addr Node)) : Prop :=
  ∀ r l' h', m = Ok (r, l', h') → ∃ cs', chain h' l' cs' ∧ moved h cs h' cs'.

(** Every node of the store is in the chain of a list. *)
Definition owned (w : world) (css : list (list (addr * T))) : Prop :=
  ∀ a, is_Some (heap w !! a) → ∃ i cs, css !! i = Some cs ∧ a ∈ cs.*1.

(** The lists of a world own disjoint chains that make up the store. *)
Definition ownership (w : world) : Prop := ∃ css, winv w css ∧ owned w css.

(** The lists that an operation may change. *)
Definition written (o : op) : list nat :=
  match o with
  | Construct => []
  | PushBack this _ | PushFront this _ | EmplaceBack this _ | EmplaceFront this _
  | Insert this _ _ | Emplace this _ _ | InsertCount this _ _ _
  | InsertRange this _ _ | InsertIlist this _ _
  | Erase this _ | EraseRange this _ _ | PopBack this | PopFront this
  | Resize this _ | ResizeValue this _ _ | Clear this
  | CopyAssign this _
  | AssignIlist this _ | AssignCount this _ _ | AssignRange this _
  | AppendRange this _ | PrependRange this _ => [this]
  | Swap this other | MoveAssign this other => [this; other]
  end.

(** The chains [css'] of the lists after an operation: those of the lists
    it does not change are as in [css]. *)
Definition tracked (w' : world) (o : op) (css css' : list (list (addr * T))) : Prop :=
  winv w' css' ∧ owned w' css' ∧
  ∀ j cj, j ∉ written o → css !! j = Some cj → css' !! j = Some cj.

(** The operation reports no error. *)
Definition no_throw {A} (m : result A) : Prop := ∀ e, m ≠ Throw e.

End ListImplementation.

(** ** [List<int>] with a bump allocator, to run the model *)

(** The least address above all those in use. *)
Definition bump_alloc {T : Type} (h : gmap addr (@Node T)) : addr := fresh (dom h).

Lemma bump_alloc_fresh {T : Type} (h : gmap addr (@Node T)) : h !! bump_alloc h = None.
Proof. apply not_elem_of_dom, is_fresh. Qed.

Definition bump_allocator {T : Type} : @Allocator T :=
  {| alloc := bump_alloc; alloc_fresh := bump_alloc_fresh |}.

Definition int_default : @DefaultConstructible Z := 0%Z.

(** What a client sees of list [0] after a program: its elements in
    forward order and [getSize()]. *)
Definition play (ops : list (@op Z)) : result (list Z * Z) :=
  w ← @run Z bump_allocator int_default 100 ops (mkWorld [] ∅);
  l ← get_list w 0;
  xs ← traverse 100 l (heap w);
  Ok (xs, getSize l).

Definition at_node (a : addr) : @iterator := mk_iterator (Some a).
Definition at_end : @iterator := mk_iterator None.

Definition scenario_A : list (@op Z) :=
  [Construct; PushBack 0 10%Z; PushBack 0 20%Z; PushBack 0 30%Z].

(** The list [5, 10]: nodes [1] and [2]. *)
Definition two_nodes : gmap addr (@Node Z) :=
  <[2%positive := mkNode 10%Z None (Some 1%positive)]>
    {[1%positive := mkNode 5%Z (Some 2%positive) None]}.
Definition two_list : @List := mkList (Some 1%positive) (Some 2%positive) 2.
Definition two_chain : list (addr * Z) := [(1%positive, 5%Z); (2%positive, 10%Z)].

(** A state that a program reaches: one list, [10, 15, 20]. *)
Definition w_start : @world Z := mkWorld [] ∅.
Definition w_made : @world Z := mkWorld [List_new] ∅.
Definition w_one : @world Z :=
  mkWorld [mkList (Some 1%positive) (Some 1%positive) 1]
          {[1%positive := mkNode 10%Z None None]}.
Definition w_two : @world Z :=
  mkWorld [mkList (Some 1%positive) (Some 2%positive) 2]
          (<[2%positive := mkNode 20%Z None (Some 1%positive)]>
             {[1%positive := mkNode 10%Z (Some 2%positive) None]}).
Definition w_three : @world Z :=
  mkWorld [mkList (Some 1%positive) (Some 2%positive) 3]
          (<[3%positive := mkNode 15%Z (Some 2%positive) (Some 1%positive)]>
             (<[2%positive := mkNode 20%Z None (Some 3%positive)]>
                {[1%positive := mkNode 10%Z (Some 3%positive) None]})).

(** Two lists, [1] and [2, 3], made by a program; then [A = move(B)]. *)
Definition w_pair : @world Z :=
  mkWorld [mkList (Some 1%positive) (Some 1%positive) 1;
           mkList (Some 2%positive) (Some 3%positive) 2]
          (<[3%positive := mkNode 3%Z None (Some 2%positive)]>
             (<[2%positive := mkNode 2%Z (Some 3%positive) None]>
                {[1%positive := mkNode 1%Z None None]})).

Definition w_pair_made : @world Z := mkWorld [List_new; List_new] ∅.
Definition w_pair_one : @world Z :=
  mkWorld [mkList (Some 1%positive) (Some 1%positive) 1; List_new]
          {[1%positive := mkNode 1%Z None None]}.
Definition w_pair_two : @world Z :=
  mkWorld [mkList (Some 1%positive) (Some 1%positive) 1;
           mkList (Some 2%positive) (Some 2%positive) 1]
          (<[2%positive := mkNode 2%Z None None]>
             {[1%positive := mkNode 1%Z None None]}).

(** [w_pair] after [push_back(7)] on its first list. *)
Definition w_pair_pushed : @world Z :=
  mkWorld [mkList (Some 1%positive) (Some 4%positive) 2;
           mkList (Some 2%positive) (Some 3%positive) 2]
          (<[4%positive := mkNode 7%Z None (Some 1%positive)]>
             (<[3%positive := mkNode 3%Z None (Some 2%positive)]>
                (<[2%positive := mkNode 2%Z (Some 3%positive) None]>
                   {[1%positive := mkNode 1%Z (Some 4%positive) None]}))).

(** ** The driver of the repository

    [main] of the source, call by call.  What it writes to [std::cout] is
    kept as the numbers of each line; the lists it declares are the
    objects [0] ([lst]) and [1] ([another_lst]) of the object store, and
    their destructors run when it returns. *)

Section Driver.

#[local] Existing Instance bump_allocator.
#[local] Existing Instance int_default.

(** [for (auto it = lst.begin(); it != lst.end(); ++it) std::cout << *it] *)
Definition print_list (fuel : nat) (i : nat) (w : @world Z) : result (list Z) :=
  l ← get_list w i; traverse fuel l (heap w).

(** [for (auto it = lst.rbegin(); it != lst.rend(); ++it) std::cout << *it] *)
Definition print_reversed (fuel : nat) (i : nat) (w : @world Z) : result (list Z) :=
  l ← get_list w i; rtraverse fuel l (heap w).

Definition main (fuel : nat) : result (list (list Z) * @world Z) :=
  let lst := 0 in
  let another_lst := 1 in
  (* List<int> lst; *)
  let w := construct (mkWorld [] ∅) in
  w ← call (λ l h, push_back l h 10%Z) lst w;
  w ← call (λ l h, push_back l h 20%Z) lst w;
  w ← call (λ l h, push_back l h 30%Z) lst w;
  w ← call_ret (λ l h, emplace_back l h 40%Z) lst w;
  w ← call_ret (λ l h, emplace_back l h 50%Z) lst w;
  (* "Front element: ", "Back element: " *)
  l ← get_list w lst; r ← front l (heap w); front_element ← read (heap w) r;
  l ← get_list w lst; r ← back l (heap w); back_element ← read (heap w) r;
  (* "List contents using iterator: " *)
  o1 ← print_list fuel lst w;
  (* auto it = lst.begin(); lst.insert(it, 5); *)
  l ← get_list w lst;
  let it := begin l in
  w ← call_ret (λ l h, insert l h it 5%Z) lst w;
  o2 ← print_list fuel lst w;
  (* lst.insert(lst.begin(), (size_type)2, 15); *)
  w ← call_ret (λ l h, insert_count l h (begin l) 2 15%Z) lst w;
  o3 ← print_list fuel lst w;
  (* lst.erase(lst.begin()); *)
  w ← call_ret (λ l h, erase l h (begin l)) lst w;
  o4 ← print_list fuel lst w;
  (* it = lst.begin(); lst.erase(it, lst.end()); *)
  l ← get_list w lst;
  let it := begin l in
  w ← call_ret (λ l h, erase_range fuel l h it (end_ l)) lst w;
  o5 ← print_list fuel lst w;
  w ← call (λ l h, push_back l h 10%Z) lst w;
  w ← call (λ l h, push_back l h 20%Z) lst w;
  w ← call (λ l h, push_back l h 30%Z) lst w;
  (* lst.resize(5, 99); *)
  w ← call (λ l h, resize fuel l h 5 99%Z) lst w;
  o6 ← print_list fuel lst w;
  w ← call pop_back lst w;
  w ← call pop_front lst w;
  o7 ← print_list fuel lst w;
  (* "List contents using reverse_iterator: " *)
  o8 ← print_reversed fuel lst w;
  (* std::vector<int> vec = {1, 2, 3}; lst.append_range(vec); *)
  w ← call (λ l h, append_range l h [1; 2; 3]%Z) lst w;
  o9 ← print_list fuel lst w;
  (* std::list<int> prepend_list{4, 5, 6}; lst.prepend_range(prepend_list); *)
  w ← call (λ l h, prepend_range l h [4; 5; 6]%Z) lst w;
  o10 ← print_list fuel lst w;
  w ← call_ret (λ l h, emplace_front l h 100%Z) lst w;
  o11 ← print_list fuel lst w;
  w ← call_ret (λ l h, emplace_back l h 200%Z) lst w;
  o12 ← print_list fuel lst w;
  (* List<int> another_lst; *)
  let w := construct w in
  w ← call (λ l h, push_back l h 999%Z) another_lst w;
  w ← call (λ l h, push_back l h 888%Z) another_lst w;
  w ← swap lst another_lst w;
  o13 ← print_list fuel lst w;
  o14 ← print_list fuel another_lst w;
  w ← call (clear fuel) lst w;
  (* "After clear, lst is empty: " << lst.getSize() *)
  l ← get_list w lst;
  let n := getSize l in
  (* return 0; the destructors of [another_lst] and [lst] *)
  w ← destroy_all fuel 2 w;
  Ok ([[front_element]; [back_element]; o1; o2; o3; o4; o5; o6; o7; o8; o9;
       o10; o11; o12; o13; o14; [n]], w).

End Driver.

Section Properties.

Context {T : Type} {HA : @Allocator T} {HV : @DefaultConstructible T}.

Implicit Types (h : gmap addr (@Node T)) (w : @world T) (o : @op T).
Implicit Types (cs xs ys mid rest news : list (addr * T)).
Implicit Types (css : list (list (addr * T))).
Implicit Types (v value : T) (vs rg rrg range elems : list T).
Implicit Types (l : List) (p nx : ptr) (pos iter first last it : iterator).

(** * Properties *)

(** ** Segments *)

Lemma first_of_app (xs ys : list (addr * T)) nx :
  first_of (xs ++ ys) nx = first_of xs (first_of ys nx).
Proof. by destruct xs. Qed.

Lemma last_of_app p (xs ys : list (addr * T)) :
  last_of p (xs ++ ys) = last_of (last_of p xs) ys.
Proof.
  unfold last_of. destruct ys as [|y ys _] using rev_ind.
  - by rewrite app_nil_r.
  - by rewrite app_assoc, !last_snoc.
Qed.

Lemma last_of_snoc p (xs : list (addr * T)) c : last_of p (xs ++ [c]) = Some c.1.
Proof. unfold last_of. by rewrite last_snoc. Qed.

Lemma last_of_cons p c (xs : list (addr * T)) :
  last_of p (c :: xs) = last_of (Some c.1) xs.
Proof. apply (last_of_app p [c] xs). Qed.

Lemma seg_app h p xs ys nx :
  seg h p (xs ++ ys) nx ↔
  seg h p xs (first_of ys nx) ∧ seg h (last_of p xs) ys nx.
Proof.
  revert p. induction xs as [|x xs IH]; intros p; simpl.
  - unfold last_of; simpl. tauto.
  - rewrite IH, first_of_app, last_of_cons. tauto.
Qed.

Lemma seg_snoc h p xs c nx :
  seg h p (xs ++ [c]) nx ↔
  seg h p xs (Some c.1) ∧ h !! c.1 = Some (mkNode c.2 nx (last_of p xs)).
Proof. rewrite seg_app. simpl. tauto. Qed.

Lemma seg_agree h h' p cs nx :
  (∀ a, a ∈ cs.*1 → h' !! a = h !! a) → seg h p cs nx → seg h' p cs nx.
Proof.
  revert p. induction cs as [|c cs IH]; intros p Hag; simpl; [done|].
  intros [Hc Hs]. split.
  - rewrite Hag; [done|]. simpl. left.
  - apply IH; [|done]. intros a Ha. apply Hag. simpl. by right.
Qed.

Lemma seg_insert_ne h p cs nx a n :
  a ∉ cs.*1 → seg h p cs nx → seg (<[a := n]> h) p cs nx.
Proof.
  intros Ha. apply seg_agree. intros b Hb.
  apply lookup_insert_ne. congruence.
Qed.

Lemma seg_delete_ne h p cs nx a :
  a ∉ cs.*1 → seg h p cs nx → seg (delete a h) p cs nx.
Proof.
  intros Ha. apply seg_agree. intros b Hb.
  apply lookup_delete_ne. congruence.
Qed.

Lemma seg_allocated h p cs nx a : seg h p cs nx → a ∈ cs.*1 → is_Some (h !! a).
Proof.
  revert p. induction cs as [|c cs IH]; intros p; simpl.
  - intros _ Ha. by apply elem_of_nil in Ha.
  - intros [Hc Hs] [->|Ha]%elem_of_cons; [by eexists|by eapply IH].
Qed.

Lemma seg_not_fresh h p cs nx : seg h p cs nx → alloc h ∉ cs.*1.
Proof.
  intros Hs Ha. destruct (seg_allocated _ _ _ _ _ Hs Ha) as [n Hn].
  by rewrite alloc_fresh in Hn.
Qed.

(** ** Chains *)

Lemma chain_nil h : chain h List_new [].
Proof. repeat split. constructor. Qed.

Lemma chain_head_None h l cs : chain h l cs → (head l = None ↔ cs = []).
Proof. intros (_ & _ & -> & _). by destruct cs. Qed.

Lemma chain_tail_None h l cs : chain h l cs → (tail l = None ↔ cs = []).
Proof.
  intros (_ & _ & _ & ->). destruct cs as [|c cs _] using rev_ind; [done|].
  rewrite last_of_snoc. split; [done|]. by intros ?%app_nil_r_inv%symmetry.
Qed.

Lemma framed_refl h cs : framed h cs h cs.
Proof. split; auto. Qed.

Lemma framed_trans h cs h1 cs1 h2 cs2 :
  framed h cs h1 cs1 → framed h1 cs1 h2 cs2 → framed h cs h2 cs2.
Proof.
  intros [H1 H2] [H3 H4]. split.
  - intros a Ha Hsome. rewrite <- (H1 a Ha Hsome). apply H3.
    + intros [Hin|Hnone]%H2; [done|]. rewrite Hnone in Hsome. by destruct Hsome.
    + by rewrite (H1 a Ha Hsome).
  - intros a [Hin|Hnone]%H4; [by apply H2|].
    destruct (decide (a ∈ cs.*1)) as [|Hn]; [by left|right].
    destruct (h !! a) eqn:E; [|done].
    rewrite (H1 a Hn) in Hnone; [|by rewrite E]. by rewrite E in Hnone.
Qed.

(** Membership goals over the address lists of chains: the lists are made
    opaque before [set_solver] runs. *)
Ltac addr_solver :=
  try clear HV; try clear HA;
  try change (list_fmap (addr * T)%type addr fst) with (fmap (M:=list) (@fst addr T)) in *;
  repeat match goal with
  | H : context [ ?l.*1 ] |- _ =>
      is_var l; let X := fresh "X" in set (X := l.*1) in *; clearbody X
  | |- context [ ?l.*1 ] =>
      is_var l; let X := fresh "X" in set (X := l.*1) in *; clearbody X
  end;
  set_solver.

Ltac solve_nodup :=
  rewrite ?fmap_app; csimpl; rewrite ?NoDup_app, ?NoDup_cons;
  repeat split; first [ done | apply NoDup_nil_2 | addr_solver ].

Ltac solve_ne :=
  first [ done | congruence | by (intros <-; congruence)
        | by (intros ->; congruence) | addr_solver ].

Lemma link_back_spec h l cs a v (b : bool) :
  chain h l cs → h !! a = None → (b = true ↔ cs = []) →
  ∃ l' h', link_back l (<[a := mkNode v None None]> h) b a = Ok (l', h') ∧
    chain h' l' (cs ++ [(a, v)]) ∧ size l' = size l ∧
    framed h cs h' (cs ++ [(a, v)]).
Proof.
  intros (Hs & Hnd & Hh & Ht) Ha Hb. unfold link_back.
  assert (Hfr : a ∉ cs.*1).
  { intros Hin. destruct (seg_allocated _ _ _ _ _ Hs Hin) as [n Hn]. congruence. }
  destruct cs as [|[t vt] xs _] using rev_ind.
  - rewrite (proj2 Hb eq_refl). eexists _, _. split; [done|]. split; [|split; [done|]].
    + repeat split; simpl.
      * by rewrite lookup_insert_eq.
      * apply NoDup_singleton.
    + split.
      * intros c _ [n Hn]. apply lookup_insert_ne. congruence.
      * intros c [->|[]%elem_of_nil]%elem_of_cons. by right.
  - destruct b; [by destruct (app_cons_not_nil xs [] (t, vt)); symmetry; apply Hb|].
    rewrite last_of_snoc in Ht. simpl in Ht.
    apply seg_snoc in Hs as [Hs Hlt]. simpl in Hlt.
    rewrite fmap_app in Hnd, Hfr. simpl in Hnd, Hfr.
    apply NoDup_app in Hnd as (Hnd & Hdisj & _).
    assert (a ≠ t) by (intros ->; apply Hfr; addr_solver).
    assert (t ∉ xs.*1) by (intros Hin; eapply Hdisj; [done|addr_solver]).
    rewrite Ht. simpl.
    rewrite lookup_insert_ne, Hlt by done. simpl.
    rewrite lookup_insert_ne, lookup_insert_eq by done. simpl.
    eexists _, _. split; [done|]. split; [|split; [done|]].
    + repeat split; simpl.
      * rewrite !seg_snoc. simpl. rewrite last_of_snoc. simpl.
        split; [split|].
        -- do 3 (apply seg_insert_ne; [addr_solver|]). done.
        -- by rewrite lookup_insert_ne, lookup_insert_eq.
        -- by rewrite lookup_insert_eq.
      * rewrite !fmap_app. simpl. apply NoDup_app. split; [|split].
        -- apply NoDup_app. split; [done|]. split; [done|apply NoDup_singleton].
        -- addr_solver.
        -- apply NoDup_singleton.
      * by rewrite Hh, !first_of_app.
      * by rewrite last_of_snoc.
    + split.
      * intros c Hc [n Hn]. rewrite fmap_app in Hc. simpl in Hc.
        rewrite !lookup_insert_ne; [done|solve_ne..].
      * intros c. rewrite !fmap_app. simpl. addr_solver.
Qed.

Lemma link_front_spec h l cs a v :
  chain h l cs → h !! a = None →
  ∃ l' h', link_front l (<[a := mkNode v None None]> h) a = Ok (l', h') ∧
    chain h' l' ((a, v) :: cs) ∧ size l' = size l ∧
    framed h cs h' ((a, v) :: cs).
Proof.
  intros (Hs & Hnd & Hh & Ht) Ha. unfold link_front.
  assert (Hfr : a ∉ cs.*1).
  { intros Hin. destruct (seg_allocated _ _ _ _ _ Hs Hin) as [n Hn]. congruence. }
  destruct cs as [|[c vc] ys].
  - rewrite Hh. simpl. eexists _, _. split; [done|]. split; [|split; [done|]].
    + repeat split; simpl.
      * by rewrite lookup_insert_eq.
      * apply NoDup_singleton.
    + split.
      * intros b _ [n Hn]. apply lookup_insert_ne. congruence.
      * intros b [->|[]%elem_of_nil]%elem_of_cons. by right.
  - simpl in Hs, Hnd, Hfr, Hh. destruct Hs as [Hc Hs].
    apply NoDup_cons in Hnd as [Hcys Hnd].
    assert (a ≠ c) by addr_solver. assert (a ∉ ys.*1) by addr_solver.
    rewrite Hh. simpl.
    rewrite lookup_insert_ne, Hc by done. simpl.
    rewrite lookup_insert_ne, lookup_insert_eq by done. simpl.
    eexists _, _. split; [done|]. split; [|split; [done|]].
    + repeat split; simpl.
      * by rewrite lookup_insert_eq.
      * by rewrite lookup_insert_ne, lookup_insert_eq.
      * do 3 (apply seg_insert_ne; [done|]). done.
      * apply NoDup_cons. split; [addr_solver|]. by apply NoDup_cons.
      * by rewrite Ht, !last_of_cons.
    + split.
      * intros b Hb [n Hn]. simpl in Hb.
        rewrite !lookup_insert_ne; [done|solve_ne..].
      * intros b. simpl. addr_solver.
Qed.

Lemma chain_size_bump h l cs : chain h l cs → chain h (bump l) cs.
Proof. by intros (? & ? & ? & ?). Qed.

Lemma chain_size_drop h l cs : chain h l cs → chain h (drop_one l) cs.
Proof. by intros (? & ? & ? & ?). Qed.

Lemma push_back_spec h l cs v :
  chain h l cs →
  ∃ l' h', push_back l h v = Ok (l', h') ∧
    chain h' l' (cs ++ [(alloc h, v)]) ∧ size l' = size_incr (size l) ∧
    framed h cs h' (cs ++ [(alloc h, v)]).
Proof.
  intros Hc. unfold push_back, new_Node.
  destruct (link_back_spec h l cs (alloc h) v (bool_decide (head l = None)) Hc)
    as (l' & h' & -> & Hc' & Hsz & Hfr).
  { apply alloc_fresh. }
  { rewrite bool_decide_eq_true. by apply (chain_head_None h). }
  simpl. eexists _, _. split; [done|]. split; [by apply chain_size_bump|].
  split; [|done]. simpl. by rewrite Hsz.
Qed.

Lemma emplace_back_spec h l cs v :
  chain h l cs →
  ∃ l' h', emplace_back l h v = Ok (alloc h, l', h') ∧
    chain h' l' (cs ++ [(alloc h, v)]) ∧ size l' = size_incr (size l) ∧
    framed h cs h' (cs ++ [(alloc h, v)]).
Proof.
  intros Hc. unfold emplace_back, new_Node.
  destruct (link_back_spec h l cs (alloc h) v (bool_decide (tail l = None)) Hc)
    as (l' & h' & -> & Hc' & Hsz & Hfr).
  { apply alloc_fresh. }
  { rewrite bool_decide_eq_true. by apply (chain_tail_None h). }
  simpl. destruct Hc' as (Hs & ?).
  destruct (seg_allocated h' None (cs ++ [(alloc h, v)]) None (alloc h) Hs) as [n Hn].
  { rewrite fmap_app. addr_solver. }
  rewrite Hn. simpl.
  eexists _, _. split; [done|]. split; [by apply chain_size_bump|].
  split; [|done]. simpl. by rewrite Hsz.
Qed.

Lemma push_front_spec h l cs v :
  chain h l cs →
  ∃ l' h', push_front l h v = Ok (l', h') ∧
    chain h' l' ((alloc h, v) :: cs) ∧ size l' = size_incr (size l) ∧
    framed h cs h' ((alloc h, v) :: cs).
Proof.
  intros Hc. unfold push_front, new_Node.
  destruct (link_front_spec h l cs (alloc h) v Hc) as (l' & h' & -> & Hc' & Hsz & Hfr).
  { apply alloc_fresh. }
  simpl. eexists _, _. split; [done|]. split; [by apply chain_size_bump|].
  split; [|done]. simpl. by rewrite Hsz.
Qed.

Lemma emplace_front_spec h l cs v :
  chain h l cs →
  ∃ l' h', emplace_front l h v = Ok (alloc h, l', h') ∧
    chain h' l' ((alloc h, v) :: cs) ∧ size l' = size_incr (size l) ∧
    framed h cs h' ((alloc h, v) :: cs).
Proof.
  intros Hc. unfold emplace_front, new_Node.
  destruct (link_front_spec h l cs (alloc h) v Hc) as (l' & h' & -> & Hc' & Hsz & Hfr).
  { apply alloc_fresh. }
  simpl. destruct Hc' as (Hs & ?).
  destruct (seg_allocated h' None ((alloc h, v) :: cs) None (alloc h) Hs) as [n Hn].
  { addr_solver. }
  rewrite Hn. simpl.
  eexists _, _. split; [done|]. split; [by apply chain_size_bump|].
  split; [|done]. simpl. by rewrite Hsz.
Qed.

Lemma first_of_nonempty (xs : list (addr * T)) nx :
  xs ≠ [] → ∃ a, first_of xs nx = Some a ∧ a ∈ xs.*1.
Proof. destruct xs as [|x xs]; [done|]. intros _. exists x.1. addr_solver. Qed.

Ltac heap_lookup :=
  repeat first
    [ rewrite lookup_insert_eq
    | rewrite lookup_insert_ne by (done || congruence)
    | rewrite lookup_delete_ne by (done || congruence) ].

Ltac split_nodup :=
  repeat match goal with
  | H : NoDup (_ ++ _) |- _ => apply NoDup_app in H as (? & ? & ?)
  | H : NoDup (_ :: _) |- _ => apply NoDup_cons in H as [? ?]
  end.

(** [insert] before the position that follows the nodes [xs]. *)
Lemma insert_spec h l xs ys pos v :
  chain h l (xs ++ ys) → node_ptr pos = first_of ys None →
  ∃ l' h', insert l h pos v = Ok (mk_iterator (Some (alloc h)), l', h') ∧
    chain h' l' (xs ++ (alloc h, v) :: ys) ∧ size l' = size_incr (size l) ∧
    framed h (xs ++ ys) h' (xs ++ (alloc h, v) :: ys).
Proof.
  intros Hc Hpos. unfold insert, new_Node.
  pose proof (alloc_fresh h) as Ha. set (a := alloc h) in *.
  destruct ys as [|[c vc] ys]; simpl in Hpos; rewrite Hpos.
  { rewrite app_nil_r in *.
    destruct (link_back_spec h l xs a v (bool_decide (head l = None)) Hc Ha)
      as (l' & h' & -> & Hc' & Hsz & Hfr).
    { rewrite bool_decide_eq_true. by apply (chain_head_None h). }
    simpl. eexists _, _. split; [done|]. split; [by apply chain_size_bump|].
    split; [|done]. simpl. by rewrite Hsz. }
  destruct Hc as (Hs & Hnd & Hh & Ht).
  assert (Hfr : a ∉ (xs ++ (c, vc) :: ys).*1).
  { intros Hin. destruct (seg_allocated _ _ _ _ _ Hs Hin) as [n Hn]. congruence. }
  rewrite fmap_app in Hnd, Hfr. simpl in Hnd, Hfr.
  apply seg_app in Hs as [Hxs [Hc Hys]]. simpl in Hxs, Hc, Hys.
  destruct xs as [|[b vb] xs _] using rev_ind.
  - (* before the head *)
    simpl in *. rewrite Hh, bool_decide_eq_true_2 by done. simpl.
    split_nodup. assert (a ≠ c) by addr_solver.
    heap_lookup. simpl. heap_lookup. rewrite Hc. simpl.
    eexists _, _. split; [done|]. split; [|split; [done|]].
    + repeat split; simpl.
      * by heap_lookup.
      * by heap_lookup.
      * do 3 (apply seg_insert_ne; [addr_solver|]). done.
      * apply NoDup_cons. split; [addr_solver|]. by apply NoDup_cons.
      * by rewrite Ht, !last_of_cons.
    + split.
      * intros d Hd [n Hn].
        rewrite !lookup_insert_ne; [done|solve_ne..].
      * intros d. addr_solver.
  - (* between two nodes *)
    rewrite last_of_snoc in Hc. simpl in Hc.
    apply seg_snoc in Hxs as [Hxs Hb]. simpl in Hb.
    rewrite fmap_app in Hnd, Hfr. simpl in Hnd, Hfr. split_nodup.
    assert (a ≠ b ∧ a ≠ c ∧ b ≠ c) as (? & ? & ?) by addr_solver.
    assert (head l ≠ Some c) as Hne.
    { rewrite Hh, <- app_assoc, first_of_app. simpl.
      destruct xs as [|x xs]; simpl; [congruence|]. intros [= Hx].
      addr_solver. }
    rewrite bool_decide_eq_false_2 by done. simpl.
    heap_lookup. simpl. heap_lookup. rewrite Hc. simpl.
    heap_lookup. simpl. heap_lookup. rewrite Hc. simpl.
    heap_lookup. rewrite Hb. simpl. heap_lookup. rewrite Hc. simpl.
    eexists _, _. split; [done|]. split; [|split; [done|]].
    + repeat split; simpl.
      * rewrite <- app_assoc. simpl. rewrite seg_app. simpl. split.
        -- do 5 (apply seg_insert_ne; [addr_solver|]). done.
        -- heap_lookup. repeat split.
           do 5 (apply seg_insert_ne; [addr_solver|]). done.
      * rewrite !fmap_app. simpl. apply NoDup_app. split; [|split].
        -- apply NoDup_app. split; [done|]. split; [addr_solver|apply NoDup_singleton].
        -- addr_solver.
        -- apply NoDup_cons. split; [addr_solver|]. by apply NoDup_cons.
      * rewrite Hh, <- !app_assoc, !first_of_app. done.
      * rewrite Ht, !last_of_app, !last_of_cons. done.
    + split.
      * intros d Hd [n Hn]. rewrite !fmap_app in Hd. simpl in Hd.
        rewrite !lookup_insert_ne; [done|solve_ne..].
      * intros d. rewrite !fmap_app. simpl. addr_solver.
Qed.

Lemma last_of_elem p (cs : list (addr * T)) a :
  last_of p cs = Some a → p = Some a ∨ a ∈ cs.*1.
Proof.
  destruct cs as [|c cs _] using rev_ind; [by left|].
  rewrite last_of_snoc. intros [= <-]. right. rewrite fmap_app. addr_solver.
Qed.

(** [erase] of the node that follows the nodes [xs]. *)
Lemma erase_spec h l xs c vc ys pos :
  chain h l (xs ++ (c, vc) :: ys) → node_ptr pos = Some c →
  ∃ l' h', erase l h pos = Ok (mk_iterator (first_of ys None), l', h') ∧
    chain h' l' (xs ++ ys) ∧ size l' = size_decr (size l) ∧
    framed h (xs ++ (c, vc) :: ys) h' (xs ++ ys) ∧ h' !! c = None.
Proof.
  intros (Hs & Hnd & Hh & Ht) Hpos. unfold erase, delete_Node. rewrite Hpos.
  rewrite fmap_app in Hnd. csimpl in Hnd.
  apply seg_app in Hs as [Hxs [Hc Hys]]. simpl in Hxs, Hc, Hys.
  simpl. rewrite ?Hc. simpl.
  destruct xs as [|[b vb] xs _] using rev_ind.
  - (* the head node *)
    simpl in *. rewrite Hh, bool_decide_eq_true_2 by done. simpl.
    rewrite ?Hc. simpl. split_nodup.
    destruct ys as [|[d vd] ys]; simpl in *.
    + rewrite ?Hc. simpl. eexists _, _. split; [done|]. split; [|split; [done|split]].
      * repeat split. constructor.
      * split; [|by intros d []%elem_of_nil].
        intros d Hd _. apply lookup_delete_ne. addr_solver.
      * apply lookup_delete_eq.
    + destruct Hys as [Hd Hys]. split_nodup.
      assert (c ≠ d) by addr_solver.
      rewrite ?Hd. simpl. heap_lookup. rewrite ?Hc. simpl.
      eexists _, _. split; [done|]. split; [|split; [done|split]].
      * repeat split; simpl.
        -- by heap_lookup.
        -- apply seg_delete_ne; [addr_solver|].
           apply seg_insert_ne; [addr_solver|]. done.
        -- by apply NoDup_cons.
        -- by rewrite Ht, !last_of_cons.
      * split; [|intros e; addr_solver].
        intros e He _. rewrite lookup_delete_ne, lookup_insert_ne; [done|addr_solver..].
      * apply lookup_delete_eq.
  - (* a node with a predecessor *)
    rewrite last_of_snoc in Hc. simpl in Hc.
    apply seg_snoc in Hxs as [Hxs Hb]. simpl in Hb.
    rewrite fmap_app in Hnd. csimpl in Hnd. split_nodup.
    assert (b ≠ c) by addr_solver.
    assert (head l ≠ Some c) as Hne.
    { rewrite Hh, <- app_assoc, first_of_app. simpl.
      destruct xs as [|x xs]; simpl; [congruence|]. intros [= Hx].
      addr_solver. }
    rewrite bool_decide_eq_false_2 by done.
    destruct ys as [|[d vd] ys]; simpl in *.
    + (* the tail node *)
      rewrite last_of_snoc in Ht. simpl in Ht.
      rewrite Ht, bool_decide_eq_true_2 by done. simpl.
      rewrite ?Hc. simpl. rewrite ?Hb. simpl. heap_lookup. rewrite ?Hc. simpl.
      rewrite app_nil_r.
      eexists _, _. split; [done|]. split; [|split; [done|split]].
      * repeat split; simpl.
        -- apply seg_snoc. simpl. split.
           ++ apply seg_delete_ne; [addr_solver|].
              apply seg_insert_ne; [addr_solver|]. done.
           ++ by heap_lookup.
        -- solve_nodup.
        -- by rewrite Hh, <- app_assoc, !first_of_app.
        -- by rewrite last_of_snoc.
      * split; [|intros e; rewrite <- app_assoc, !fmap_app; csimpl; addr_solver].
        intros e He _. rewrite <- app_assoc, !fmap_app in He. csimpl in He.
        rewrite lookup_delete_ne, lookup_insert_ne; [done|addr_solver..].
      * apply lookup_delete_eq.
    + (* a node between two nodes *)
      destruct Hys as [Hd Hys]. split_nodup.
      assert (c ≠ d ∧ b ≠ d) as [? ?] by addr_solver.
      assert (tail l ≠ Some c) as Hnt.
      { rewrite Ht, last_of_app, !last_of_cons.
        intros [[= ->]|Hin]%last_of_elem; [done|]. addr_solver. }
      rewrite bool_decide_eq_false_2 by done. simpl.
      rewrite ?Hc, ?last_of_snoc. simpl.
      rewrite ?Hb. simpl. heap_lookup. rewrite ?Hc. simpl.
      heap_lookup. rewrite ?Hd. simpl. heap_lookup. rewrite ?Hc. simpl.
      eexists _, _. split; [done|]. split; [|split; [done|split]].
      * repeat split; simpl.
        -- rewrite <- app_assoc. apply seg_app. simpl. split.
           ++ apply seg_delete_ne; [addr_solver|].
              do 2 (apply seg_insert_ne; [addr_solver|]). done.
           ++ heap_lookup. repeat split.
              apply seg_delete_ne; [addr_solver|].
              do 2 (apply seg_insert_ne; [addr_solver|]). done.
        -- solve_nodup.
        -- by rewrite Hh, <- !app_assoc, !first_of_app.
        -- by rewrite Ht, !last_of_app, !last_of_cons.
      * split; [|intros e; rewrite !fmap_app; csimpl; addr_solver].
        intros e He _. rewrite !fmap_app in He. csimpl in He.
        rewrite lookup_delete_ne, !lookup_insert_ne; [done|addr_solver..].
      * apply lookup_delete_eq.
Qed.

Lemma pop_back_empty l h : head l = None → pop_back l h = Ok (l, h).
Proof. intros Hh. unfold pop_back. by rewrite Hh. Qed.

Lemma pop_front_empty l h : head l = None → pop_front l h = Ok (l, h).
Proof. intros Hh. unfold pop_front. by rewrite Hh. Qed.

Lemma pop_back_spec h l xs c vc :
  chain h l (xs ++ [(c, vc)]) →
  ∃ l' h', pop_back l h = Ok (l', h') ∧
    chain h' l' xs ∧ size l' = size_decr (size l) ∧
    framed h (xs ++ [(c, vc)]) h' xs ∧ h' !! c = None.
Proof.
  intros (Hs & Hnd & Hh & Ht). unfold pop_back, delete_Node.
  rewrite fmap_app in Hnd. csimpl in Hnd.
  apply seg_snoc in Hs as [Hxs Hc]. simpl in Hxs, Hc.
  rewrite last_of_snoc in Ht. simpl in Ht.
  destruct (first_of_nonempty (xs ++ [(c, vc)]) None) as (x & Hx & _).
  { by destruct xs. }
  rewrite Hh, Hx, Ht. simpl. rewrite Hc. simpl.
  destruct xs as [|[b vb] xs _] using rev_ind.
  - simpl. rewrite Hc. simpl.
    eexists _, _. split; [done|]. split; [|split; [done|split]].
    + repeat split. constructor.
    + split; [|by intros d []%elem_of_nil].
      intros d Hd _. apply lookup_delete_ne. addr_solver.
    + apply lookup_delete_eq.
  - rewrite last_of_snoc in *. simpl in *.
    apply seg_snoc in Hxs as [Hxs Hb]. simpl in Hb.
    rewrite fmap_app in Hnd. csimpl in Hnd. split_nodup.
    assert (b ≠ c) by addr_solver.
    rewrite Hb. simpl. heap_lookup. rewrite Hc. simpl.
    eexists _, _. split; [done|]. split; [|split; [done|split]].
    + repeat split; simpl.
      * apply seg_snoc. simpl. split.
        -- apply seg_delete_ne; [addr_solver|].
           apply seg_insert_ne; [addr_solver|]. done.
        -- by heap_lookup.
      * solve_nodup.
      * by rewrite <- Hx, <- app_assoc, !first_of_app.
      * by rewrite last_of_snoc.
    + split; [|intros e; rewrite !fmap_app; csimpl; addr_solver].
      intros e He _. rewrite !fmap_app in He. csimpl in He.
      rewrite lookup_delete_ne, lookup_insert_ne; [done|addr_solver..].
    + apply lookup_delete_eq.
Qed.

Lemma pop_front_spec h l c vc ys :
  chain h l ((c, vc) :: ys) →
  ∃ l' h', pop_front l h = Ok (l', h') ∧
    chain h' l' ys ∧ size l' = size_decr (size l) ∧
    framed h ((c, vc) :: ys) h' ys ∧ h' !! c = None.
Proof.
  intros (Hs & Hnd & Hh & Ht). unfold pop_front, delete_Node.
  csimpl in Hnd. simpl in Hs, Hh. destruct Hs as [Hc Hys].
  rewrite Hh. simpl. rewrite Hc. simpl. split_nodup.
  destruct ys as [|[d vd] ys]; simpl in *.
  - rewrite Hc. simpl.
    eexists _, _. split; [done|]. split; [|split; [done|split]].
    + repeat split. constructor.
    + split; [|by intros d []%elem_of_nil].
      intros d Hd _. apply lookup_delete_ne. addr_solver.
    + apply lookup_delete_eq.
  - destruct Hys as [Hd Hys]. split_nodup.
    assert (c ≠ d) by addr_solver.
    rewrite Hd. simpl. heap_lookup. rewrite Hc. simpl.
    eexists _, _. split; [done|]. split; [|split; [done|split]].
    + repeat split; simpl.
      * by heap_lookup.
      * apply seg_delete_ne; [addr_solver|].
        apply seg_insert_ne; [addr_solver|]. done.
      * by apply NoDup_cons.
      * by rewrite Ht, !last_of_cons.
    + split; [|intros e; addr_solver].
      intros e He _. rewrite lookup_delete_ne, lookup_insert_ne; [done|addr_solver..].
    + apply lookup_delete_eq.
Qed.

(** [clear_loop] frees a whole segment. *)
Lemma clear_loop_spec fuel h p cs :
  seg h p cs None → NoDup cs.*1 → length cs ≤ fuel →
  ∃ h', clear_loop fuel h (first_of cs None) = Ok h' ∧
    (∀ a, a ∉ cs.*1 → h' !! a = h !! a) ∧
    (∀ a, a ∈ cs.*1 → h' !! a = None).
Proof.
  revert fuel h p. induction cs as [|[c vc] cs IH]; intros fuel h p Hs Hnd Hfuel.
  - destruct fuel; simpl; (eexists; split; [done|]); split; auto;
      by intros a []%elem_of_nil.
  - destruct fuel as [|fuel]; simpl in Hfuel; [lia|].
    simpl in Hs. destruct Hs as [Hc Hs]. csimpl in Hnd. split_nodup.
    simpl. rewrite Hc. unfold delete_Node. simpl. rewrite Hc. simpl.
    destruct (IH fuel (delete c h) (Some c)) as (h' & -> & Hout & Hin).
    { apply seg_delete_ne; [addr_solver|done]. }
    { done. }
    { lia. }
    eexists. split; [done|]. split.
    + intros a Ha. csimpl in Ha. rewrite Hout by addr_solver.
      apply lookup_delete_ne. addr_solver.
    + intros a Ha. csimpl in Ha.
      destruct (decide (a ∈ cs.*1)) as [|Hn]; [by apply Hin|].
      rewrite Hout by done. assert (a = c) as -> by addr_solver.
      apply lookup_delete_eq.
Qed.

Lemma clear_spec fuel h l cs :
  chain h l cs → length cs ≤ fuel →
  ∃ h', clear fuel l h = Ok (List_new, h') ∧
    chain h' List_new [] ∧ framed h cs h' [] ∧
    (∀ a, a ∈ cs.*1 → h' !! a = None).
Proof.
  intros (Hs & Hnd & Hh & Ht) Hfuel. unfold clear. rewrite Hh.
  destruct (clear_loop_spec fuel h None cs Hs Hnd Hfuel) as (h' & -> & Hout & Hin).
  simpl. eexists. split; [done|]. split; [apply chain_nil|]. split; [|done].
  split; [|by intros a []%elem_of_nil]. intros a Ha _. by apply Hout.
Qed.

(** ** Traversals *)

Lemma collect_seg fuel h p cs :
  seg h p cs None → length cs ≤ fuel →
  collect fuel h (mk_iterator (first_of cs None)) (mk_iterator None) = Ok cs.*2.
Proof.
  revert fuel p. induction cs as [|[c vc] cs IH]; intros fuel p Hs Hfuel.
  - by destruct fuel.
  - destruct fuel as [|fuel]; simpl in Hfuel; [lia|].
    destruct Hs as [Hc Hs]. simpl in Hc.
    simpl. unfold iterator_deref, iterator_incr. simpl. rewrite Hc. simpl.
    rewrite (IH fuel (Some c)) by (done || lia). done.
Qed.

Lemma rcollect_seg fuel h cs nx :
  seg h None cs nx → length cs ≤ fuel →
  rcollect fuel h (mk_reverse_iterator (last_of None cs)) (mk_reverse_iterator None)
  = Ok (reverse cs.*2).
Proof.
  revert fuel nx. induction cs as [|[c vc] cs IH] using rev_ind; intros fuel nx Hs Hfuel.
  - by destruct fuel.
  - rewrite length_app in Hfuel. simpl in Hfuel.
    destruct fuel as [|fuel]; [lia|].
    apply seg_snoc in Hs as [Hs Hc]. simpl in Hc.
    rewrite last_of_snoc. simpl.
    unfold reverse_iterator_deref, reverse_iterator_incr. simpl. rewrite Hc. simpl.
    rewrite (IH fuel (Some c)) by (done || lia). simpl.
    by rewrite fmap_app, reverse_app.
Qed.

Lemma traverse_chain fuel h l cs :
  chain h l cs → length cs ≤ fuel → traverse fuel l h = Ok cs.*2.
Proof.
  intros (Hs & _ & Hh & _) Hfuel. unfold traverse, begin, end_. rewrite Hh.
  by eapply collect_seg.
Qed.

Lemma rtraverse_chain fuel h l cs :
  chain h l cs → length cs ≤ fuel → rtraverse fuel l h = Ok (reverse cs.*2).
Proof.
  intros (Hs & _ & _ & Ht) Hfuel. unfold rtraverse, rbegin, rend. rewrite Ht.
  by eapply rcollect_seg.
Qed.

Lemma advance_seg h p cs k :
  seg h p cs None → k ≤ length cs →
  advance h k (mk_iterator (first_of cs None))
  = Ok (mk_iterator (first_of (drop k cs) None)).
Proof.
  revert p k. induction cs as [|[c vc] cs IH]; intros p k Hs Hk.
  - simpl in Hk. by replace k with 0 by lia.
  - destruct k as [|k]; [done|]. simpl in Hk.
    destruct Hs as [Hc Hs]. simpl in Hc.
    simpl. unfold iterator_incr. simpl. rewrite Hc. simpl.
    apply (IH (Some c)); [done|lia].
Qed.

Lemma advance_seg_inv h p cs k it :
  seg h p cs None → advance h k (mk_iterator (first_of cs None)) = Ok it →
  k ≤ length cs.
Proof.
  revert p k. induction cs as [|[c vc] cs IH]; intros p k Hs Hadv.
  - destruct k; [done|]. by simpl in Hadv.
  - destruct k as [|k]; [simpl; lia|].
    destruct Hs as [Hc Hs]. simpl in Hc.
    simpl in Hadv. unfold iterator_incr in Hadv. simpl in Hadv.
    rewrite Hc in Hadv. simpl in Hadv.
    apply (IH (Some c)) in Hadv; [simpl; lia|done].
Qed.

(** A position reached from [begin()] splits the chain in two. *)
Lemma position_split h l cs k pos :
  chain h l cs → advance h k (begin l) = Ok pos →
  ∃ xs ys, cs = xs ++ ys ∧ length xs = k ∧ node_ptr pos = first_of ys None.
Proof.
  intros (Hs & _ & Hh & _) Hadv. unfold begin in Hadv. rewrite Hh in Hadv.
  pose proof (advance_seg_inv _ _ _ _ _ Hs Hadv) as Hk.
  rewrite (advance_seg _ _ _ _ Hs Hk) in Hadv. injection Hadv as <-.
  exists (take k cs), (drop k cs). split; [by rewrite take_drop|].
  split; [|done]. rewrite length_take. lia.
Qed.

(** ** The counter *)

Lemma iter_size_incr (n : nat) (s : Z) :
  (0 ≤ s)%Z → (s + Z.of_nat n ≤ SIZE_MAX)%Z → Nat.iter n size_incr s = (s + Z.of_nat n)%Z.
Proof.
  unfold SIZE_MAX. induction n as [|n IH]; intros Hs Hn; simpl; [lia|].
  rewrite IH by lia. unfold size_incr. rewrite Z.mod_small; lia.
Qed.

Lemma iter_size_decr (n : nat) (s : Z) :
  (Z.of_nat n ≤ s)%Z → (s ≤ SIZE_MAX)%Z → Nat.iter n size_decr s = (s - Z.of_nat n)%Z.
Proof.
  unfold SIZE_MAX. induction n as [|n IH]; intros Hs Hn; simpl; [lia|].
  rewrite IH by lia. unfold size_decr. rewrite Z.mod_small; lia.
Qed.

Lemma Rep_grow h l cs h' l' cs' (n : nat) :
  Rep h l cs → chain h' l' cs' → size l' = Nat.iter n size_incr (size l) →
  length cs' = length cs + n → (Z.of_nat (length cs + n) ≤ SIZE_MAX)%Z →
  Rep h' l' cs'.
Proof.
  intros (_ & Hsz & Hmax) Hc Hsz' Hlen Hn. split; [done|].
  rewrite iter_size_incr in Hsz' by lia. lia.
Qed.

Lemma Rep_shrink h l cs h' l' cs' (n : nat) :
  Rep h l cs → chain h' l' cs' → size l' = Nat.iter n size_decr (size l) →
  length cs = length cs' + n → Rep h' l' cs'.
Proof.
  intros (_ & Hsz & Hmax) Hc Hsz' Hlen. split; [done|].
  rewrite iter_size_decr in Hsz' by lia. lia.
Qed.

Lemma Rep_nil h : Rep h List_new [].
Proof. split; [apply chain_nil|]. unfold SIZE_MAX. simpl. lia. Qed.

(** ** Loops of insertions *)

Lemma insert_range_loop_spec range h l xs ys iter :
  chain h l (xs ++ ys) → node_ptr iter = first_of ys None →
  ∃ l' h' news,
    insert_range_loop range l h iter
    = Ok (mk_iterator (first_of (news ++ ys) None), l', h') ∧
    chain h' l' (xs ++ news ++ ys) ∧ news.*2 = reverse range ∧
    size l' = Nat.iter (length range) size_incr (size l) ∧
    framed h (xs ++ ys) h' (xs ++ news ++ ys).
Proof.
  revert h l ys iter. induction range as [|x range IH]; intros h l ys iter Hc Hpos.
  - exists l, h, []. destruct iter as [p]. simpl in *. subst p.
    split_and!; try done; apply framed_refl.
  - simpl. destruct (insert_spec h l xs ys iter x Hc Hpos)
      as (l1 & h1 & -> & Hc1 & Hsz1 & Hfr1).
    simpl. destruct (IH h1 l1 ((alloc h, x) :: ys) (mk_iterator (Some (alloc h))) Hc1 eq_refl)
      as (l2 & h2 & news & -> & Hc2 & Hvs & Hsz2 & Hfr2).
    exists l2, h2, (news ++ [(alloc h, x)]). rewrite <- !app_assoc. simpl.
    split; [done|]. split; [done|]. split; [|split].
    + by rewrite fmap_app, Hvs, reverse_cons.
    + rewrite Hsz2, Hsz1. symmetry. exact (Nat.iter_succ_r (length _) size_incr (size l)).
    + by eapply framed_trans.
Qed.

Lemma insert_count_loop_range count l h iter v :
  insert_count_loop count l h iter v = insert_range_loop (replicate count v) l h iter.
Proof.
  revert l h iter. induction count as [|count IH]; intros l h iter; [done|].
  simpl. destruct (insert l h iter v) as [[[it l'] h']| | |]; simpl; auto.
Qed.

Lemma append_range_spec rg h l cs :
  chain h l cs →
  ∃ l' h' news,
    append_range l h rg = Ok (l', h') ∧
    chain h' l' (cs ++ news) ∧ news.*2 = rg ∧
    size l' = Nat.iter (length rg) size_incr (size l) ∧
    framed h cs h' (cs ++ news).
Proof.
  revert h l cs. induction rg as [|x rg IH]; intros h l cs Hc.
  - exists l, h, []. rewrite app_nil_r. split_and!; try done; apply framed_refl.
  - simpl. destruct (emplace_back_spec h l cs x Hc) as (l1 & h1 & -> & Hc1 & Hsz1 & Hfr1).
    simpl. destruct (IH h1 l1 _ Hc1) as (l2 & h2 & news & -> & Hc2 & Hvs & Hsz2 & Hfr2).
    exists l2, h2, ((alloc h, x) :: news).
    rewrite <- app_assoc in Hc2, Hfr2. simpl in Hc2, Hfr2.
    split; [done|]. split; [done|]. split; [|split].
    + by rewrite fmap_cons, Hvs.
    + rewrite Hsz2, Hsz1. symmetry. exact (Nat.iter_succ_r (length _) size_incr (size l)).
    + by eapply framed_trans.
Qed.

Lemma push_back_all_spec elems h l cs :
  chain h l cs →
  ∃ l' h' news,
    push_back_all l h elems = Ok (l', h') ∧
    chain h' l' (cs ++ news) ∧ news.*2 = elems ∧
    size l' = Nat.iter (length elems) size_incr (size l) ∧
    framed h cs h' (cs ++ news).
Proof.
  revert h l cs. induction elems as [|x elems IH]; intros h l cs Hc.
  - exists l, h, []. rewrite app_nil_r. split_and!; try done; apply framed_refl.
  - simpl. destruct (push_back_spec h l cs x Hc) as (l1 & h1 & -> & Hc1 & Hsz1 & Hfr1).
    simpl. destruct (IH h1 l1 _ Hc1) as (l2 & h2 & news & -> & Hc2 & Hvs & Hsz2 & Hfr2).
    exists l2, h2, ((alloc h, x) :: news).
    rewrite <- app_assoc in Hc2, Hfr2. simpl in Hc2, Hfr2.
    split; [done|]. split; [done|]. split; [|split].
    + by rewrite fmap_cons, Hvs.
    + rewrite Hsz2, Hsz1. symmetry. exact (Nat.iter_succ_r (length _) size_incr (size l)).
    + by eapply framed_trans.
Qed.

Lemma prepend_range_loop_spec rrg h l cs :
  chain h l cs →
  ∃ l' h' news,
    prepend_range_loop l h rrg = Ok (l', h') ∧
    chain h' l' (news ++ cs) ∧ news.*2 = reverse rrg ∧
    size l' = Nat.iter (length rrg) size_incr (size l) ∧
    framed h cs h' (news ++ cs).
Proof.
  revert h l cs. induction rrg as [|x rrg IH]; intros h l cs Hc.
  - exists l, h, []. split_and!; try done; apply framed_refl.
  - simpl. destruct (emplace_front_spec h l cs x Hc) as (l1 & h1 & -> & Hc1 & Hsz1 & Hfr1).
    simpl. destruct (IH h1 l1 _ Hc1) as (l2 & h2 & news & -> & Hc2 & Hvs & Hsz2 & Hfr2).
    exists l2, h2, (news ++ [(alloc h, x)]). rewrite <- !app_assoc. simpl.
    split; [done|]. split; [done|]. split; [|split].
    + by rewrite fmap_app, Hvs, reverse_cons.
    + rewrite Hsz2, Hsz1. symmetry. exact (Nat.iter_succ_r (length _) size_incr (size l)).
    + by eapply framed_trans.
Qed.

Lemma prepend_range_spec rg h l cs :
  chain h l cs →
  ∃ l' h' news,
    prepend_range l h rg = Ok (l', h') ∧
    chain h' l' (news ++ cs) ∧ news.*2 = rg ∧
    size l' = Nat.iter (length rg) size_incr (size l) ∧
    framed h cs h' (news ++ cs).
Proof.
  intros Hc. unfold prepend_range.
  destruct (prepend_range_loop_spec (reverse rg) h l cs Hc)
    as (l' & h' & news & Heq & Hc' & Hvs & Hsz & Hfr).
  exists l', h', news. rewrite reverse_involutive, length_reverse in *. done.
Qed.

(** ** Loops of removals, [resize], assignment from values *)

Lemma erase_range_spec fuel h l xs mid ys first last :
  chain h l (xs ++ mid ++ ys) →
  node_ptr first = first_of (mid ++ ys) None → node_ptr last = first_of ys None →
  length mid ≤ fuel →
  ∃ l' h',
    erase_range fuel l h first last = Ok (last, l', h') ∧
    chain h' l' (xs ++ ys) ∧
    size l' = Nat.iter (length mid) size_decr (size l) ∧
    framed h (xs ++ mid ++ ys) h' (xs ++ ys).
Proof.
  revert fuel h l first. induction mid as [|[m vm] mid IH];
    intros fuel h l first Hc Hfirst Hlast Hfuel.
  - exists l, h. destruct first as [p], last as [q]. simpl in *. subst p q.
    split_and!; try done; [|apply framed_refl].
    destruct fuel; simpl; by rewrite bool_decide_eq_true_2.
  - destruct fuel as [|fuel]; simpl in Hfuel; [lia|].
    simpl in Hfirst.
    assert (first ≠ last) as Hne.
    { intros ->. destruct Hc as (_ & Hnd & _). rewrite Hlast in Hfirst.
      rewrite !fmap_app in Hnd. csimpl in Hnd.
      destruct (decide (ys = [])) as [->|Hys]; [done|].
      destruct (first_of_nonempty ys None Hys) as (y & Hy & Hin).
      rewrite Hy in Hfirst. injection Hfirst as ->. split_nodup. addr_solver. }
    simpl. rewrite bool_decide_eq_false_2 by done.
    destruct (erase_spec h l xs m vm (mid ++ ys) first Hc Hfirst)
      as (l1 & h1 & -> & Hc1 & Hsz1 & Hfr1 & _).
    simpl. destruct (IH fuel h1 l1 (mk_iterator (first_of (mid ++ ys) None)) Hc1 eq_refl Hlast)
      as (l2 & h2 & -> & Hc2 & Hsz2 & Hfr2); [lia|].
    exists l2, h2. split; [done|]. split; [done|]. split.
    + rewrite Hsz2, Hsz1. symmetry.
      exact (Nat.iter_succ_r (length _) size_decr (size l)).
    + by eapply framed_trans.
Qed.

Lemma resize_shrink_spec fuel h l cs count :
  Rep h l cs → (0 ≤ count)%Z → (Z.of_nat (length cs) - count ≤ Z.of_nat fuel)%Z →
  ∃ l' h',
    resize_shrink fuel l h count = Ok (l', h') ∧
    Rep h' l' (take (Z.to_nat count) cs) ∧
    framed h cs h' (take (Z.to_nat count) cs).
Proof.
  revert fuel h l. induction cs as [|[c vc] cs IH] using rev_ind;
    intros fuel h l HR Hcount Hfuel.
  - exists l, h. destruct HR as (Hc & Hsz & Hmax). simpl in Hsz.
    rewrite take_nil. split; [|split; [done|apply framed_refl]].
    destruct fuel; simpl; rewrite bool_decide_eq_false_2; (done || lia).
  - pose proof HR as (Hc & Hsz & Hmax). rewrite length_app in Hsz, Hfuel.
    simpl in Hsz, Hfuel.
    destruct (decide (size l > count)%Z) as [Hgt|Hle].
    + destruct fuel as [|fuel]; [lia|].
      simpl. rewrite bool_decide_eq_true_2 by done.
      destruct (pop_back_spec h l cs c vc Hc) as (l1 & h1 & -> & Hc1 & Hsz1 & Hfr1 & _).
      simpl. destruct (IH fuel h1 l1) as (l2 & h2 & -> & HR2 & Hfr2); [|done|lia|].
      { apply (Rep_shrink h l (cs ++ [(c, vc)]) h1 l1 cs 1); try done.
        rewrite length_app. simpl. lia. }
      exists l2, h2. rewrite take_app_le by lia.
      split; [done|]. split; [done|]. by eapply framed_trans.
    + exists l, h. rewrite take_ge by (rewrite length_app; simpl; lia).
      split; [|split; [done|apply framed_refl]].
      destruct fuel; simpl; rewrite bool_decide_eq_false_2; done.
Qed.

Lemma resize_grow_spec fuel h l cs count v :
  Rep h l cs → (count ≤ SIZE_MAX)%Z → (count - Z.of_nat (length cs) ≤ Z.of_nat fuel)%Z →
  ∃ l' h' news,
    resize_grow fuel l h count v = Ok (l', h') ∧
    Rep h' l' (cs ++ news) ∧
    news.*2 = replicate (Z.to_nat (count - Z.of_nat (length cs))) v ∧
    framed h cs h' (cs ++ news).
Proof.
  remember (Z.to_nat (count - Z.of_nat (length cs))) as n eqn:Hn.
  revert fuel h l cs Hn. induction n as [|n IH]; intros fuel h l cs Hn HR Hcount Hfuel.
  - exists l, h, []. pose proof HR as (Hc & Hsz & Hmax). rewrite app_nil_r.
    split_and!; try done; [|apply framed_refl].
    destruct fuel; simpl; rewrite bool_decide_eq_false_2; (done || lia).
  - pose proof HR as (Hc & Hsz & Hmax).
    destruct fuel as [|fuel]; [lia|].
    simpl. rewrite bool_decide_eq_true_2 by lia.
    destruct (emplace_back_spec h l cs v Hc) as (l1 & h1 & -> & Hc1 & Hsz1 & Hfr1).
    simpl. destruct (IH fuel h1 l1 (cs ++ [(alloc h, v)]))
      as (l2 & h2 & news & -> & HR2 & Hvs & Hfr2).
    { rewrite length_app. simpl. lia. }
    { apply (Rep_grow h l cs h1 l1 _ 1); try done.
      - rewrite length_app. simpl. lia.
      - lia. }
    { done. }
    { rewrite length_app. simpl. lia. }
    exists l2, h2, ((alloc h, v) :: news).
    rewrite <- app_assoc in HR2, Hfr2. simpl in HR2, Hfr2.
    split; [done|]. split; [done|]. split.
    + by rewrite fmap_cons, Hvs.
    + by eapply framed_trans.
Qed.

Lemma resize_spec fuel h l cs count v :
  Rep h l cs → (0 ≤ count ≤ SIZE_MAX)%Z →
  (Z.abs (count - Z.of_nat (length cs)) ≤ Z.of_nat fuel)%Z →
  ∃ l' h' news,
    resize fuel l h count v = Ok (l', h') ∧
    Rep h' l' (take (Z.to_nat count) cs ++ news) ∧
    news.*2 = replicate (Z.to_nat (count - Z.of_nat (length cs))) v ∧
    framed h cs h' (take (Z.to_nat count) cs ++ news).
Proof.
  intros HR Hcount Hfuel. pose proof HR as (Hc & Hsz & Hmax). unfold resize.
  destruct (decide (count < size l)%Z) as [Hlt|Hge].
  - rewrite bool_decide_eq_true_2 by done.
    destruct (resize_shrink_spec fuel h l cs count HR) as (l' & h' & -> & HR' & Hfr);
      [lia..|].
    exists l', h', []. rewrite app_nil_r.
    replace (Z.to_nat (count - Z.of_nat (length cs))) with 0 by lia. done.
  - rewrite bool_decide_eq_false_2 by done.
    rewrite take_ge by lia.
    destruct (decide (count > size l)%Z) as [Hgt|Hle].
    + rewrite bool_decide_eq_true_2 by done.
      apply resize_grow_spec; (done || lia).
    + rewrite bool_decide_eq_false_2 by done.
      exists l, h, []. rewrite app_nil_r.
      replace (Z.to_nat (count - Z.of_nat (length cs))) with 0 by lia.
      split_and!; try done. apply framed_refl.
Qed.

Lemma assign_range_spec fuel h l cs elems :
  chain h l cs → length cs ≤ fuel → (Z.of_nat (length elems) ≤ SIZE_MAX)%Z →
  ∃ l' h' news,
    assign_range fuel l h elems = Ok (l', h') ∧
    Rep h' l' news ∧ news.*2 = elems ∧ framed h cs h' news.
Proof.
  intros Hc Hfuel Hlen. unfold assign_range.
  destruct (clear_spec fuel h l cs Hc Hfuel) as (h1 & -> & Hc1 & Hfr1 & _).
  simpl. destruct (push_back_all_spec elems h1 List_new [] Hc1)
    as (l2 & h2 & news & -> & Hc2 & Hvs & Hsz2 & Hfr2).
  simpl in *. exists l2, h2, news. split; [done|]. split; [|split; [done|]].
  - apply (Rep_grow h1 List_new [] h2 l2 news (length elems) (Rep_nil h1) Hc2 Hsz2).
    + by rewrite <- Hvs, length_fmap.
    + done.
  - by eapply framed_trans.
Qed.

Lemma push_back_count_all count l h v :
  push_back_count count l h v = push_back_all l h (replicate count v).
Proof.
  revert l h. induction count as [|count IH]; intros l h; [done|].
  simpl. destruct (push_back l h v) as [[l' h']| | |]; simpl; auto.
Qed.

Lemma assign_count_range fuel l h count v :
  assign_count fuel l h count v = assign_range fuel l h (replicate count v).
Proof.
  unfold assign_count, assign_range.
  destruct (clear fuel l h) as [[l' h']| | |]; simpl; auto using push_back_count_all.
Qed.

Lemma assign_count_spec fuel h l cs count v :
  chain h l cs → length cs ≤ fuel → (Z.of_nat count ≤ SIZE_MAX)%Z →
  ∃ l' h' news,
    assign_count fuel l h count v = Ok (l', h') ∧
    Rep h' l' news ∧ news.*2 = replicate count v ∧ framed h cs h' news.
Proof.
  intros Hc Hfuel Hlen. rewrite assign_count_range.
  apply (assign_range_spec fuel h l cs (replicate count v)); try done.
  by rewrite length_replicate.
Qed.

(** ** Several lists *)

Lemma Rep_agree h h' l cs :
  (∀ a, a ∈ cs.*1 → h' !! a = h !! a) → Rep h l cs → Rep h' l cs.
Proof.
  intros Hag ((Hs & Hrest) & Hsz). split; [|done]. split; [|done].
  by eapply seg_agree.
Qed.

Lemma Rep_allocated h l cs a : Rep h l cs → a ∈ cs.*1 → is_Some (h !! a).
Proof. intros ((Hs & _) & _). by eapply seg_allocated. Qed.

Lemma winv_lookup w css i cs :
  winv w css → css !! i = Some cs → ∃ l, lists w !! i = Some l ∧ Rep (heap w) l cs.
Proof.
  intros (Hlen & HR & _) Hcs.
  destruct (lookup_lt_is_Some_2 (lists w) i) as [l Hl].
  { rewrite <- Hlen. by eapply lookup_lt_Some. }
  exists l. split; [done|]. by eapply HR.
Qed.

Lemma winv_chain w css i l :
  winv w css → lists w !! i = Some l → ∃ cs, css !! i = Some cs ∧ Rep (heap w) l cs.
Proof.
  intros (Hlen & HR & _) Hl.
  destruct (lookup_lt_is_Some_2 css i) as [cs Hcs].
  { rewrite Hlen. by eapply lookup_lt_Some. }
  exists cs. split; [done|]. by eapply HR.
Qed.

(** An operation on one list keeps the other lists as they are. *)
Lemma winv_update w css this cs l' h' cs' :
  winv w css → css !! this = Some cs →
  Rep h' l' cs' → framed (heap w) cs h' cs' →
  winv (mkWorld (<[this := l']> (lists w)) h') (<[this := cs']> css).
Proof.
  intros Hw Hcs HR' [Hfr1 Hfr2]. pose proof Hw as (Hlen & HR & Hdisj).
  pose proof (lookup_lt_Some _ _ _ Hcs) as Hlt.
  split; [|split]; simpl.
  - by rewrite !length_insert.
  - intros i l cs0 Hl Hc0. destruct (decide (i = this)) as [->|Hne].
    + rewrite list_lookup_insert_eq in Hl by lia.
      rewrite list_lookup_insert_eq in Hc0 by lia. by simplify_eq.
    + rewrite list_lookup_insert_ne in Hl by lia.
      rewrite list_lookup_insert_ne in Hc0 by lia.
      apply (Rep_agree (heap w)); [|by eapply HR].
      intros a Ha. apply Hfr1.
      * intros Hin. by eapply (Hdisj this i cs cs0 a).
      * eapply Rep_allocated; [by eapply HR|done].
  - assert (∀ j cj a, j ≠ this → css !! j = Some cj → a ∈ cs'.*1 → a ∉ cj.*1) as Hnew.
    { intros j cj a Hne Hcj Ha Hin.
      destruct (winv_lookup w css j cj Hw Hcj) as (lj & _ & HRj).
      destruct (Rep_allocated _ _ _ a HRj Hin) as [n Hn].
      destruct (Hfr2 a Ha) as [Hold|Hnone]; [|congruence].
      by eapply (Hdisj this j cs cj a). }
    intros i j ci cj a Hij Hci Hcj Ha.
    destruct (decide (i = this)) as [->|Hi], (decide (j = this)) as [->|Hj]; try done.
    + rewrite list_lookup_insert_eq in Hci by lia.
      rewrite list_lookup_insert_ne in Hcj by lia. simplify_eq. by eapply Hnew.
    + rewrite list_lookup_insert_ne in Hci by lia.
      rewrite list_lookup_insert_eq in Hcj by lia. simplify_eq.
      intros Hin. by eapply (Hnew i ci a).
    + rewrite list_lookup_insert_ne in Hci by lia.
      rewrite list_lookup_insert_ne in Hcj by lia. by eapply (Hdisj i j).
Qed.

Lemma call_spec (f : List → gmap addr Node → result (List * gmap addr Node))
    w css this l cs l' h' cs' :
  winv w css → lists w !! this = Some l → css !! this = Some cs →
  f l (heap w) = Ok (l', h') → Rep h' l' cs' → framed (heap w) cs h' cs' →
  call f this w = Ok (mkWorld (<[this := l']> (lists w)) h') ∧
  winv (mkWorld (<[this := l']> (lists w)) h') (<[this := cs']> css).
Proof.
  intros Hw Hl Hcs Hf HR Hfr. unfold call, get_list. rewrite Hl. simpl.
  rewrite Hf. simpl. split; [done|]. by eapply winv_update.
Qed.

Lemma call_ret_spec {A} (f : List → gmap addr Node → result (A * List * gmap addr Node))
    w css this l cs r l' h' cs' :
  winv w css → lists w !! this = Some l → css !! this = Some cs →
  f l (heap w) = Ok (r, l', h') → Rep h' l' cs' → framed (heap w) cs h' cs' →
  call_ret f this w = Ok (mkWorld (<[this := l']> (lists w)) h') ∧
  winv (mkWorld (<[this := l']> (lists w)) h') (<[this := cs']> css).
Proof.
  intros Hw Hl Hcs Hf HR Hfr. unfold call_ret, get_list. rewrite Hl. simpl.
  rewrite Hf. simpl. split; [done|]. by eapply winv_update.
Qed.

Lemma winv_construct w css : winv w css → winv (construct w) (css ++ [[]]).
Proof.
  intros (Hlen & HR & Hdisj). split; [|split]; simpl.
  - rewrite !length_app. simpl. lia.
  - intros i l cs Hl Hcs. destruct (decide (i < length css)) as [Hlt|Hge].
    + rewrite lookup_app_l in Hl by lia.
      rewrite lookup_app_l in Hcs by lia. by eapply HR.
    + rewrite lookup_app_r in Hcs by lia.
      rewrite lookup_app_r in Hl by lia.
      destruct (i - length css) as [|k] eqn:Hk; [|by destruct k].
      rewrite Hlen in Hk. rewrite Hk in Hl. simpl in *. simplify_eq.
      apply Rep_nil.
  - intros i j ci cj a Hij Hci Hcj Ha Hin.
    destruct (decide (i < length css)) as [Hi|Hi].
    + rewrite lookup_app_l in Hci by lia.
      destruct (decide (j < length css)) as [Hj|Hj].
      * rewrite lookup_app_l in Hcj by lia. by eapply (Hdisj i j).
      * rewrite lookup_app_r in Hcj by lia.
        destruct (j - length css) as [|k]; [|by destruct k].
        simpl in Hcj. simplify_eq. by apply elem_of_nil in Hin.
    + rewrite lookup_app_r in Hci by lia.
      destruct (i - length css) as [|k]; [|by destruct k].
      simpl in Hci. simplify_eq. by apply elem_of_nil in Ha.
Qed.

Lemma lookup_exchange {A} (L : list A) this other a b i :
  L !! this = Some a → L !! other = Some b →
  <[other := a]> (<[this := b]> L) !! i = L !! exchange this other i.
Proof.
  intros Ha Hb. unfold exchange.
  pose proof (lookup_lt_Some _ _ _ Ha). pose proof (lookup_lt_Some _ _ _ Hb).
  destruct (decide (i = other)) as [->|Ho].
  - by rewrite list_lookup_insert_eq by (rewrite length_insert; lia).
  - rewrite list_lookup_insert_ne by lia.
    destruct (decide (i = this)) as [->|Ht].
    + by rewrite list_lookup_insert_eq by lia.
    + by rewrite list_lookup_insert_ne by lia.
Qed.

Lemma exchange_inj this other i j :
  exchange this other i = exchange this other j → i = j.
Proof. unfold exchange. repeat case_decide; congruence. Qed.

Lemma winv_exchange w css this other a b ca cb :
  winv w css →
  lists w !! this = Some a → lists w !! other = Some b →
  css !! this = Some ca → css !! other = Some cb →
  winv (mkWorld (<[other := a]> (<[this := b]> (lists w))) (heap w))
       (<[other := ca]> (<[this := cb]> css)).
Proof.
  intros (Hlen & HR & Hdisj) Ha Hb Hca Hcb. split; [|split]; simpl.
  - by rewrite !length_insert.
  - intros i l cs. rewrite !(lookup_exchange _ this other) by done. apply HR.
  - intros i j ci cj x Hij. rewrite !(lookup_exchange _ this other) by done.
    apply Hdisj. intros Heq. by apply exchange_inj in Heq.
Qed.

Ltac list_lookup :=
  repeat first
    [ rewrite list_lookup_insert_eq by (rewrite ?length_insert; lia)
    | rewrite list_lookup_insert_ne by lia ].

Lemma swap_eq this other w a b :
  lists w !! this = Some a → lists w !! other = Some b →
  swap this other w
  = Ok (mkWorld (<[other := a]> (<[this := b]> (lists w))) (heap w)).
Proof.
  intros Ha Hb.
  pose proof (lookup_lt_Some _ _ _ Ha). pose proof (lookup_lt_Some _ _ _ Hb).
  unfold swap, set_head, set_tail, set_size, get_list.
  destruct a as [ha ta sa], b as [hb tb sb].
  destruct (decide (this = other)) as [->|Hne].
  - simplify_eq. repeat progress (simpl; list_lookup; rewrite ?Ha; simpl).
    by rewrite !list_insert_insert_eq.
  - repeat progress (simpl; list_lookup; rewrite ?Ha, ?Hb; simpl).
    f_equal. f_equal. apply list_eq. intros i.
    destruct (decide (i = other)) as [Ho|?], (decide (i = this)) as [Ht|?];
      subst; by list_lookup.
Qed.

(** [swap] exchanges the two lists and touches no node. *)
Lemma swap_spec this other w css a b :
  winv w css → lists w !! this = Some a → lists w !! other = Some b →
  ∃ w', swap this other w = Ok w' ∧ world_inv w' ∧
    lists w' !! this = Some b ∧ lists w' !! other = Some a ∧ heap w' = heap w.
Proof.
  intros Hw Ha Hb. rewrite (swap_eq this other w a b Ha Hb).
  destruct (winv_chain w css this a Hw Ha) as (ca & Hca & _).
  destruct (winv_chain w css other b Hw Hb) as (cb & Hcb & _).
  eexists. split; [done|]. split; [|split; [|split]]; simpl.
  - eexists. by eapply winv_exchange.
  - rewrite (lookup_exchange _ this other) by done. unfold exchange.
    repeat case_decide; congruence.
  - rewrite (lookup_exchange _ this other) by done. unfold exchange.
    repeat case_decide; congruence.
  - done.
Qed.

Lemma move_assign_eq fuel this other w a b h' :
  this ≠ other → lists w !! this = Some a → lists w !! other = Some b →
  clear fuel a (heap w) = Ok (List_new, h') →
  move_assign fuel this other w
  = Ok (mkWorld (<[other := List_new]> (<[this := b]> (lists w))) h').
Proof.
  intros Hne Ha Hb Hclear.
  pose proof (lookup_lt_Some _ _ _ Ha). pose proof (lookup_lt_Some _ _ _ Hb).
  unfold move_assign, call, set_head, set_tail, set_size, get_list.
  rewrite bool_decide_eq_true_2 by done. rewrite Ha. simpl. rewrite Hclear.
  destruct b as [hb tb sb].
  repeat progress (simpl; list_lookup; rewrite ?Hb; simpl).
  f_equal. f_equal. apply list_eq. intros i.
  destruct (decide (i = other)) as [Ho|?], (decide (i = this)) as [Ht|?];
    subst; by list_lookup.
Qed.

Lemma move_assign_self fuel this w : move_assign fuel this this w = Ok w.
Proof. unfold move_assign. by rewrite bool_decide_eq_false_2 by auto. Qed.

Lemma copy_assign_self fuel this w : copy_assign fuel this this w = Ok w.
Proof. unfold copy_assign. by rewrite bool_decide_eq_false_2 by auto. Qed.

Lemma move_assign_spec fuel this other w css a b ca cb :
  winv w css → this ≠ other →
  lists w !! this = Some a → lists w !! other = Some b →
  css !! this = Some ca → css !! other = Some cb → length ca ≤ fuel →
  ∃ w', move_assign fuel this other w = Ok w' ∧
    winv w' (<[other := []]> (<[this := cb]> css)) ∧
    lists w' !! this = Some b ∧ lists w' !! other = Some List_new ∧
    (∀ x, x ∈ cb.*1 → heap w' !! x = heap w !! x) ∧
    (∀ x, x ∈ ca.*1 → heap w' !! x = None).
Proof.
  intros Hw Hne Ha Hb Hca Hcb Hfuel. pose proof Hw as (Hlen & HR & Hdisj).
  pose proof (lookup_lt_Some _ _ _ Ha). pose proof (lookup_lt_Some _ _ _ Hb).
  pose proof (lookup_lt_Some _ _ _ Hca). pose proof (lookup_lt_Some _ _ _ Hcb).
  destruct (HR this a ca Ha Hca) as (Hc & _).
  destruct (clear_spec fuel (heap w) a ca Hc Hfuel) as (h1 & Hclear & _ & Hfr & Hfreed).
  rewrite (move_assign_eq fuel this other w a b h1 Hne Ha Hb Hclear).
  eexists. split; [done|]. split; [|split; [|split; [|split]]]; simpl.
  - pose proof (winv_update w css this ca List_new h1 [] Hw Hca (Rep_nil h1) Hfr) as Hw1.
    pose proof (winv_exchange _ _ this other List_new b [] cb Hw1) as Hw2.
    simpl in Hw2. rewrite !list_insert_insert_eq in Hw2. apply Hw2; by list_lookup.
  - by list_lookup.
  - by list_lookup.
  - intros x Hx. destruct Hfr as [Hfr _]. apply Hfr.
    + intros Hin. by eapply (Hdisj this other ca cb x).
    + eapply Rep_allocated; [by eapply (HR other)|done].
  - done.
Qed.

Lemma Rep_lookup h l xs c vc ys :
  Rep h l (xs ++ (c, vc) :: ys) →
  h !! c = Some (mkNode vc (first_of ys None) (last_of None xs)).
Proof. intros ((Hs & _) & _). apply seg_app in Hs as [_ [Hc _]]. done. Qed.

Lemma copy_loop_spec fuel this other rest w css l cs done_ :
  winv w css → this ≠ other →
  lists w !! this = Some l → css !! this = Some cs →
  css !! other = Some (done_ ++ rest) →
  length rest ≤ fuel → (Z.of_nat (length cs + length rest) ≤ SIZE_MAX)%Z →
  ∃ w' news, copy_loop fuel this (first_of rest None) w = Ok w' ∧
    winv w' (<[this := cs ++ news]> css) ∧ news.*2 = rest.*2.
Proof.
  revert fuel w css l cs done_.
  induction rest as [|[c vc] rest IH];
    intros fuel w css l cs done_ Hw Hne Hl Hcs Hother Hfuel Hroom.
  - exists w, []. rewrite app_nil_r, list_insert_id by done.
    split; [by destruct fuel|done].
  - destruct fuel as [|fuel]; simpl in Hfuel; [lia|].
    pose proof (lookup_lt_Some _ _ _ Hl). pose proof (lookup_lt_Some _ _ _ Hcs).
    destruct (winv_lookup w css other _ Hw Hother) as (lo & Hlo & HRo).
    pose proof Hw as (_ & HR & _). pose proof (HR this l cs Hl Hcs) as HRl.
    simpl. rewrite (Rep_lookup _ _ _ _ _ _ HRo). simpl.
    destruct (push_back_spec (heap w) l cs vc (proj1 HRl))
      as (l1 & h1 & Hpush & Hc1 & Hsz1 & Hfr1).
    assert (Rep h1 l1 (cs ++ [(alloc (heap w), vc)])) as HR1.
    { apply (Rep_grow (heap w) l cs h1 l1 _ 1); try done.
      - by rewrite length_app.
      - simpl in Hroom. lia. }
    destruct (call_spec (λ l h, push_back l h vc) w css this l cs l1 h1 _
                Hw Hl Hcs Hpush HR1 Hfr1) as [-> Hw1].
    simpl.
    destruct (winv_lookup _ _ other (done_ ++ (c, vc) :: rest) Hw1) as (lo1 & Hlo1 & HRo1).
    { by rewrite list_lookup_insert_ne by lia. }
    simpl in HRo1. rewrite (Rep_lookup _ _ _ _ _ _ HRo1). simpl.
    destruct (IH fuel _ _ l1 (cs ++ [(alloc (heap w), vc)]) (done_ ++ [(c, vc)]) Hw1 Hne)
      as (w' & news & -> & Hw' & Hvs).
    { simpl. by list_lookup. }
    { by list_lookup. }
    { rewrite list_lookup_insert_ne by lia. by rewrite <- app_assoc. }
    { lia. }
    { rewrite length_app. simpl in *. lia. }
    exists w', ((alloc (heap w), vc) :: news).
    rewrite list_insert_insert_eq, <- app_assoc in Hw'. simpl in Hw'.
    split; [done|]. split; [done|]. by rewrite !fmap_cons, Hvs.
Qed.

Lemma copy_assign_spec fuel this other w css a b ca cb :
  winv w css → this ≠ other →
  lists w !! this = Some a → lists w !! other = Some b →
  css !! this = Some ca → css !! other = Some cb →
  length ca ≤ fuel → length cb ≤ fuel →
  ∃ w' news, copy_assign fuel this other w = Ok w' ∧
    winv w' (<[this := news]> css) ∧ news.*2 = cb.*2.
Proof.
  intros Hw Hne Ha Hb Hca Hcb Hfa Hfb. pose proof Hw as (Hlen & HR & Hdisj).
  pose proof (lookup_lt_Some _ _ _ Ha). pose proof (lookup_lt_Some _ _ _ Hca).
  destruct (HR this a ca Ha Hca) as (Hc & _).
  destruct (HR other b cb Hb Hcb) as ((_ & _ & Hhb & _) & Hszb & Hmaxb).
  destruct (clear_spec fuel (heap w) a ca Hc Hfa) as (h1 & Hclear & _ & Hfr & _).
  destruct (call_spec (clear fuel) w css this a ca List_new h1 []
              Hw Ha Hca Hclear (Rep_nil h1) Hfr) as [Hcall Hw1].
  unfold copy_assign. rewrite bool_decide_eq_true_2 by done.
  rewrite Hcall. simpl. unfold get_list. simpl.
  rewrite list_lookup_insert_ne, Hb by lia. simpl. rewrite Hhb.
  destruct (copy_loop_spec fuel this other cb _ _ List_new [] [] Hw1 Hne)
    as (w' & news & -> & Hw' & Hvs).
  { simpl. by list_lookup. }
  { by list_lookup. }
  { by rewrite list_lookup_insert_ne by lia. }
  { done. }
  { simpl. lia. }
  exists w', news. rewrite list_insert_insert_eq in Hw'. done.
Qed.

(** ** The loop budget

    A result other than [OutOfFuel] does not depend on the budget. *)

Lemma bind_Ok {A B} (m : result A) (f : A → result B) b :
  m ≫= f = Ok b ↔ ∃ a, m = Ok a ∧ f a = Ok b.
Proof.
  destruct m; simpl; split; try (intros (? & ? & ?)); try done; eauto.
  by simplify_eq.
Qed.

Lemma clear_loop_mono fuel fuel' h p r :
  clear_loop fuel h p = Ok r → fuel ≤ fuel' → clear_loop fuel' h p = Ok r.
Proof.
  revert fuel' h p. induction fuel as [|fuel IH]; intros fuel' h p Hr Hle.
  - destruct p; [done|]. by destruct fuel'.
  - destruct fuel' as [|fuel']; [lia|]. destruct p as [cur|]; [|done].
    simpl in *. apply bind_Ok in Hr as (c & Hc & (h1 & Hd & Hr)%bind_Ok).
    rewrite Hc. simpl. rewrite Hd. simpl. apply IH; [done|lia].
Qed.

Lemma clear_mono fuel fuel' l h r :
  clear fuel l h = Ok r → fuel ≤ fuel' → clear fuel' l h = Ok r.
Proof.
  unfold clear. intros (h1 & Hloop & Hr)%bind_Ok Hle.
  by rewrite (clear_loop_mono _ _ _ _ _ Hloop Hle).
Qed.

Lemma erase_range_mono fuel fuel' l h first last r :
  erase_range fuel l h first last = Ok r → fuel ≤ fuel' →
  erase_range fuel' l h first last = Ok r.
Proof.
  revert fuel' l h first. induction fuel as [|fuel IH]; intros fuel' l h first Hr Hle.
  - simpl in Hr. case_bool_decide; [|done].
    destruct fuel'; simpl; by rewrite bool_decide_eq_true_2.
  - destruct fuel' as [|fuel']; [lia|]. simpl in *. case_bool_decide; [done|].
    apply bind_Ok in Hr as ([[it l1] h1] & He & Hr).
    rewrite He. simpl. apply IH; [done|lia].
Qed.

Lemma resize_shrink_mono fuel fuel' l h count r :
  resize_shrink fuel l h count = Ok r → fuel ≤ fuel' →
  resize_shrink fuel' l h count = Ok r.
Proof.
  revert fuel' l h. induction fuel as [|fuel IH]; intros fuel' l h Hr Hle.
  - simpl in Hr. case_bool_decide; [done|].
    destruct fuel'; simpl; by rewrite bool_decide_eq_false_2.
  - destruct fuel' as [|fuel']; [lia|]. simpl in *. case_bool_decide; [|done].
    apply bind_Ok in Hr as ([l1 h1] & He & Hr).
    rewrite He. simpl. apply IH; [done|lia].
Qed.

Lemma resize_grow_mono fuel fuel' l h count v r :
  resize_grow fuel l h count v = Ok r → fuel ≤ fuel' →
  resize_grow fuel' l h count v = Ok r.
Proof.
  revert fuel' l h. induction fuel as [|fuel IH]; intros fuel' l h Hr Hle.
  - simpl in Hr. case_bool_decide; [done|].
    destruct fuel'; simpl; by rewrite bool_decide_eq_false_2.
  - destruct fuel' as [|fuel']; [lia|]. simpl in *. case_bool_decide; [|done].
    apply bind_Ok in Hr as ([[x l1] h1] & He & Hr).
    rewrite He. simpl. apply IH; [done|lia].
Qed.

Lemma resize_mono fuel fuel' l h count v r :
  resize fuel l h count v = Ok r → fuel ≤ fuel' → resize fuel' l h count v = Ok r.
Proof.
  unfold resize. intros Hr Hle. repeat case_bool_decide;
    eauto using resize_shrink_mono, resize_grow_mono.
Qed.

Lemma assign_range_mono fuel fuel' l h elems r :
  assign_range fuel l h elems = Ok r → fuel ≤ fuel' →
  assign_range fuel' l h elems = Ok r.
Proof.
  unfold assign_range. intros ([l1 h1] & Hclear & Hr)%bind_Ok Hle.
  by rewrite (clear_mono _ _ _ _ _ Hclear Hle).
Qed.

Lemma assign_count_mono fuel fuel' l h count v r :
  assign_count fuel l h count v = Ok r → fuel ≤ fuel' →
  assign_count fuel' l h count v = Ok r.
Proof. rewrite !assign_count_range. apply assign_range_mono. Qed.

Lemma call_mono (f g : List → gmap addr Node → result (List * gmap addr Node)) this w r :
  (∀ l h x, f l h = Ok x → g l h = Ok x) →
  call f this w = Ok r → call g this w = Ok r.
Proof.
  intros Hfg. unfold call. intros (l & Hl & ([l1 h1] & Hf & Hr)%bind_Ok)%bind_Ok.
  rewrite Hl. simpl. by rewrite (Hfg _ _ _ Hf).
Qed.

Lemma call_ret_mono {A} (f g : List → gmap addr Node → result (A * List * gmap addr Node))
    this w r :
  (∀ l h x, f l h = Ok x → g l h = Ok x) →
  call_ret f this w = Ok r → call_ret g this w = Ok r.
Proof.
  intros Hfg. unfold call_ret.
  intros (l & Hl & ([[x l1] h1] & Hf & Hr)%bind_Ok)%bind_Ok.
  rewrite Hl. simpl. by rewrite (Hfg _ _ _ Hf).
Qed.

Lemma copy_loop_mono fuel fuel' this current w r :
  copy_loop fuel this current w = Ok r → fuel ≤ fuel' →
  copy_loop fuel' this current w = Ok r.
Proof.
  revert fuel' current w. induction fuel as [|fuel IH]; intros fuel' current w Hr Hle.
  - destruct current; [done|]. by destruct fuel'.
  - destruct fuel' as [|fuel']; [lia|]. destruct current as [cur|]; [|done].
    simpl in *.
    apply bind_Ok in Hr as (c & Hc & (w1 & Hcall & (c1 & Hc1 & Hr)%bind_Ok)%bind_Ok).
    rewrite Hc. simpl. rewrite Hcall. simpl. rewrite Hc1. simpl.
    apply IH; [done|lia].
Qed.

Lemma move_assign_mono fuel fuel' this other w r :
  move_assign fuel this other w = Ok r → fuel ≤ fuel' →
  move_assign fuel' this other w = Ok r.
Proof.
  unfold move_assign. intros Hr Hle. case_bool_decide; [|done].
  apply bind_Ok in Hr as (w1 & Hcall & Hr).
  rewrite (call_mono (clear fuel) (clear fuel') this w w1); [done| |done].
  intros l h x Hx. by eapply clear_mono.
Qed.

Lemma copy_assign_mono fuel fuel' this other w r :
  copy_assign fuel this other w = Ok r → fuel ≤ fuel' →
  copy_assign fuel' this other w = Ok r.
Proof.
  unfold copy_assign. intros Hr Hle. case_bool_decide; [|done].
  apply bind_Ok in Hr as (w1 & Hcall & (o & Ho & Hr)%bind_Ok).
  rewrite (call_mono (clear fuel) (clear fuel') this w w1); [| |done].
  - simpl. rewrite Ho. simpl. by eapply copy_loop_mono.
  - intros l h x Hx. by eapply clear_mono.
Qed.

Lemma step_mono fuel fuel' o w r :
  step fuel o w = Ok r → fuel ≤ fuel' → step fuel' o w = Ok r.
Proof.
  intros Hr Hle. destruct o; simpl in *; try done.
  - revert Hr. apply call_ret_mono. intros l h x Hx. by eapply erase_range_mono.
  - revert Hr. apply call_mono. intros l h x Hx. by eapply resize_mono.
  - revert Hr. apply call_mono. intros l h x Hx. by eapply resize_mono.
  - revert Hr. apply call_mono. intros l h x Hx. by eapply clear_mono.
  - by eapply move_assign_mono.
  - by eapply copy_assign_mono.
  - revert Hr. apply call_mono. intros l h x Hx. by eapply assign_range_mono.
  - revert Hr. apply call_mono. intros l h x Hx. by eapply assign_count_mono.
  - revert Hr. apply call_mono. intros l h x Hx. by eapply assign_range_mono.
Qed.

(** ** Every public operation keeps the representation *)

Lemma kept_call f w css this l cs :
  winv w css → lists w !! this = Some l → css !! this = Some cs →
  kept (heap w) cs (f l (heap w)) →
  ∃ w', call f this w = Ok w' ∧ world_inv w'.
Proof.
  intros Hw Hl Hcs (l' & h' & cs' & Hf & HR & Hfr).
  destruct (call_spec f w css this l cs l' h' cs' Hw Hl Hcs Hf HR Hfr) as [-> Hw'].
  eexists. split; [done|]. by eexists.
Qed.

Lemma kept_call_ret {A} (f : List → gmap addr Node → result (A * List * gmap addr Node))
    w css this l cs :
  winv w css → lists w !! this = Some l → css !! this = Some cs →
  kept_ret (heap w) cs (f l (heap w)) →
  ∃ w', call_ret f this w = Ok w' ∧ world_inv w'.
Proof.
  intros Hw Hl Hcs (r & l' & h' & cs' & Hf & HR & Hfr).
  destruct (call_ret_spec f w css this l cs r l' h' cs' Hw Hl Hcs Hf HR Hfr) as [-> Hw'].
  eexists. split; [done|]. by eexists.
Qed.

Lemma Rep_grow_1 h l cs h' l' c :
  Rep h l cs → chain h' l' (cs ++ [c]) → size l' = size_incr (size l) →
  (size l + 1 ≤ SIZE_MAX)%Z → Rep h' l' (cs ++ [c]).
Proof.
  intros HR Hc Hsz Hroom. pose proof HR as (_ & Hl & _).
  apply (Rep_grow h l cs h' l' _ 1); try done.
  - by rewrite length_app.
  - lia.
Qed.

Lemma Rep_size h l cs : Rep h l cs → size l = Z.of_nat (length cs).
Proof. by intros (_ & ? & _). Qed.

Lemma push_back_kept h l cs v :
  Rep h l cs → (size l + 1 ≤ SIZE_MAX)%Z → kept h cs (push_back l h v).
Proof.
  intros HR Hroom. destruct (push_back_spec h l cs v (proj1 HR)) as (l' & h' & ? & ? & ? & ?).
  exists l', h', (cs ++ [(alloc h, v)]). split_and!; try done. by eapply Rep_grow_1.
Qed.

Lemma emplace_back_kept h l cs v :
  Rep h l cs → (size l + 1 ≤ SIZE_MAX)%Z → kept_ret h cs (emplace_back l h v).
Proof.
  intros HR Hroom.
  destruct (emplace_back_spec h l cs v (proj1 HR)) as (l' & h' & ? & ? & ? & ?).
  exists (alloc h), l', h', (cs ++ [(alloc h, v)]). split_and!; try done.
  by eapply Rep_grow_1.
Qed.

Lemma Rep_insert h l xs ys h' l' news (n : nat) :
  Rep h l (xs ++ ys) → chain h' l' (xs ++ news ++ ys) →
  size l' = Nat.iter n size_incr (size l) → length news = n →
  (size l + Z.of_nat n ≤ SIZE_MAX)%Z → Rep h' l' (xs ++ news ++ ys).
Proof.
  intros HR Hc Hsz Hlen Hroom. pose proof (Rep_size _ _ _ HR).
  apply (Rep_grow h l (xs ++ ys) h' l' _ n); try done.
  - rewrite !length_app. lia.
  - lia.
Qed.

Lemma push_front_kept h l cs v :
  Rep h l cs → (size l + 1 ≤ SIZE_MAX)%Z → kept h cs (push_front l h v).
Proof.
  intros HR Hroom. destruct (push_front_spec h l cs v (proj1 HR)) as (l' & h' & ? & ? & ? & ?).
  exists l', h', ((alloc h, v) :: cs). split_and!; try done.
  by apply (Rep_insert h l [] cs h' l' [(alloc h, v)] 1).
Qed.

Lemma emplace_front_kept h l cs v :
  Rep h l cs → (size l + 1 ≤ SIZE_MAX)%Z → kept_ret h cs (emplace_front l h v).
Proof.
  intros HR Hroom.
  destruct (emplace_front_spec h l cs v (proj1 HR)) as (l' & h' & ? & ? & ? & ?).
  exists (alloc h), l', h', ((alloc h, v) :: cs). split_and!; try done.
  by apply (Rep_insert h l [] cs h' l' [(alloc h, v)] 1).
Qed.

Lemma insert_range_kept h l cs pos range :
  Rep h l cs → (size l + Z.of_nat (length range) ≤ SIZE_MAX)%Z → in_range h l pos →
  kept_ret h cs (insert_range l h pos range).
Proof.
  intros HR Hroom [k Hk].
  destruct (position_split h l cs k pos (proj1 HR) Hk) as (xs & ys & -> & _ & Hpos).
  destruct (insert_range_loop_spec range h l xs ys pos (proj1 HR) Hpos)
    as (l' & h' & news & ? & ? & Hvs & ? & ?).
  exists (mk_iterator (first_of (news ++ ys) None)), l', h', (xs ++ news ++ ys).
  split_and!; try done.
  apply (Rep_insert h l xs ys h' l' news (length range)); try done.
  by rewrite <- (length_fmap snd), Hvs, length_reverse.
Qed.

Lemma insert_kept h l cs pos v :
  Rep h l cs → (size l + 1 ≤ SIZE_MAX)%Z → in_range h l pos →
  kept_ret h cs (insert l h pos v).
Proof.
  intros HR Hroom Hpos.
  destruct (insert_range_kept h l cs pos [v] HR Hroom Hpos)
    as (r & l' & h' & cs' & Heq & ? & ?).
  unfold insert_range in Heq. simpl in Heq.
  destruct (insert l h pos v) as [[[it l1] h1]| | |]; try done.
  simpl in Heq. by exists it, l1, h1, cs'; simplify_eq.
Qed.

Lemma insert_count_kept h l cs pos count v :
  Rep h l cs → (size l + Z.of_nat count ≤ SIZE_MAX)%Z → in_range h l pos →
  kept_ret h cs (insert_count l h pos count v).
Proof.
  intros HR Hroom Hpos. unfold insert_count. rewrite insert_count_loop_range.
  apply insert_range_kept; try done. by rewrite length_replicate.
Qed.

Lemma append_range_kept h l cs rg :
  Rep h l cs → (size l + Z.of_nat (length rg) ≤ SIZE_MAX)%Z →
  kept h cs (append_range l h rg).
Proof.
  intros HR Hroom.
  destruct (append_range_spec rg h l cs (proj1 HR)) as (l' & h' & news & ? & Hc & Hvs & ? & ?).
  exists l', h', (cs ++ news). split_and!; try done.
  rewrite <- (app_nil_r news) in Hc |- *.
  apply (Rep_insert h l cs [] h' l' news (length rg)); try done.
  - by rewrite app_nil_r.
  - by rewrite <- (length_fmap snd), Hvs.
Qed.

Lemma prepend_range_kept h l cs rg :
  Rep h l cs → (size l + Z.of_nat (length rg) ≤ SIZE_MAX)%Z →
  kept h cs (prepend_range l h rg).
Proof.
  intros HR Hroom.
  destruct (prepend_range_spec rg h l cs (proj1 HR)) as (l' & h' & news & ? & Hc & Hvs & ? & ?).
  exists l', h', (news ++ cs). split_and!; try done.
  apply (Rep_insert h l [] cs h' l' news (length rg)); try done.
  by rewrite <- (length_fmap snd), Hvs.
Qed.

Lemma Rep_remove h l xs mid ys h' l' :
  Rep h l (xs ++ mid ++ ys) → chain h' l' (xs ++ ys) →
  size l' = Nat.iter (length mid) size_decr (size l) → Rep h' l' (xs ++ ys).
Proof.
  intros HR Hc Hsz. apply (Rep_shrink h l _ h' l' _ (length mid) HR Hc Hsz).
  rewrite !length_app. lia.
Qed.

Lemma erase_kept h l cs pos :
  Rep h l cs → in_range h l pos → kept_ret h cs (erase l h pos).
Proof.
  intros HR [k Hk].
  destruct (position_split h l cs k pos (proj1 HR) Hk) as (xs & ys & -> & _ & Hpos).
  destruct ys as [|[c vc] ys]; simpl in Hpos.
  - unfold erase. rewrite Hpos. exists (end_ l), l, h, (xs ++ []).
    split_and!; try done. apply framed_refl.
  - destruct (erase_spec h l xs c vc ys pos (proj1 HR) Hpos)
      as (l' & h' & ? & ? & ? & ? & _).
    exists (mk_iterator (first_of ys None)), l', h', (xs ++ ys). split_and!; try done.
    by apply (Rep_remove h l xs [(c, vc)] ys).
Qed.

Lemma erase_range_kept fuel h l cs first last :
  Rep h l cs → in_range h l first → (∃ k, advance h k first = Ok last) →
  length cs ≤ fuel → kept_ret h cs (erase_range fuel l h first last).
Proof.
  intros HR [k Hk] [j Hj] Hfuel.
  destruct (position_split h l cs k first (proj1 HR) Hk) as (xs & rest & -> & _ & Hfirst).
  pose proof HR as ((Hs & _) & _). apply seg_app in Hs as [_ Hrest].
  destruct first as [p]. simpl in Hfirst. subst p.
  pose proof (advance_seg_inv _ _ _ _ _ Hrest Hj) as Hle.
  rewrite (advance_seg _ _ _ _ Hrest Hle) in Hj. injection Hj as <-.
  pose proof HR as HR'. rewrite <- (take_drop j rest) in HR'.
  destruct (erase_range_spec fuel h l xs (take j rest) (drop j rest)
              (mk_iterator (first_of rest None))
              (mk_iterator (first_of (drop j rest) None)) (proj1 HR'))
    as (l' & h' & Heq & Hc' & Hsz' & Hfr').
  { by rewrite take_drop. }
  { done. }
  { rewrite length_take. rewrite !length_app in Hfuel. lia. }
  rewrite take_drop in Hfr'.
  exists (mk_iterator (first_of (drop j rest) None)), l', h', (xs ++ drop j rest).
  split_and!; try done. by apply (Rep_remove h l xs (take j rest) (drop j rest)).
Qed.

Lemma pop_back_kept h l cs : Rep h l cs → kept h cs (pop_back l h).
Proof.
  intros HR. destruct cs as [|[c vc] cs _] using rev_ind.
  - rewrite pop_back_empty by (by apply (chain_head_None h l []); [apply HR|]).
    exists l, h, []. split_and!; try done. apply framed_refl.
  - destruct (pop_back_spec h l cs c vc (proj1 HR)) as (l' & h' & ? & Hc & ? & ? & _).
    exists l', h', cs. split_and!; try done.
    rewrite <- (app_nil_r cs) in Hc |- *.
    apply (Rep_remove h l cs [(c, vc)] []); try done.
Qed.

Lemma pop_front_kept h l cs : Rep h l cs → kept h cs (pop_front l h).
Proof.
  intros HR. destruct cs as [|[c vc] cs].
  - rewrite pop_front_empty by (by apply (chain_head_None h l []); [apply HR|]).
    exists l, h, []. split_and!; try done. apply framed_refl.
  - destruct (pop_front_spec h l c vc cs (proj1 HR)) as (l' & h' & ? & Hc & ? & ? & _).
    exists l', h', cs. split_and!; try done.
    by apply (Rep_remove h l [] [(c, vc)] cs).
Qed.

Lemma clear_kept fuel h l cs : Rep h l cs → length cs ≤ fuel → kept h cs (clear fuel l h).
Proof.
  intros HR Hfuel. destruct (clear_spec fuel h l cs (proj1 HR) Hfuel) as (h' & ? & ? & ? & _).
  exists List_new, h', []. split_and!; first [done|apply Rep_nil].
Qed.

Lemma resize_kept fuel h l cs count v :
  Rep h l cs → (0 ≤ count ≤ SIZE_MAX)%Z →
  (Z.of_nat (length cs) + count ≤ Z.of_nat fuel)%Z →
  kept h cs (resize fuel l h count v).
Proof.
  intros HR Hcount Hfuel.
  destruct (resize_spec fuel h l cs count v HR Hcount) as (l' & h' & news & ? & ? & _ & ?);
    [lia|].
  by eexists l', h', _.
Qed.

Lemma assign_range_kept fuel h l cs elems :
  Rep h l cs → (Z.of_nat (length elems) ≤ SIZE_MAX)%Z → length cs ≤ fuel →
  kept h cs (assign_range fuel l h elems).
Proof.
  intros HR Hlen Hfuel.
  destruct (assign_range_spec fuel h l cs elems (proj1 HR) Hfuel Hlen)
    as (l' & h' & news & ? & ? & _ & ?).
  by exists l', h', news.
Qed.

(** ** Programs keep the invariant *)

Lemma step_spec w o :
  world_inv w → legal_op w o →
  ∃ fuel0, ∀ fuel, fuel0 ≤ fuel → ∃ w', step fuel o w = Ok w' ∧ world_inv w'.
Proof.
  intros [css Hw] Hlegal.
  destruct o; simpl in Hlegal; unfold room, position in Hlegal.
  - (* Construct *)
    exists 0. intros fuel _. exists (construct w). split; [done|].
    eexists. by apply winv_construct.
  - (* push_back *)
    destruct Hlegal as (l & Hl & Hroom).
    destruct (winv_chain _ _ _ _ Hw Hl) as (cs & Hcs & HR).
    exists 0. intros fuel _. simpl.
    eapply (kept_call (λ l h, push_back l h value)); [done..|].
    by apply push_back_kept.
  - (* push_front *)
    destruct Hlegal as (l & Hl & Hroom).
    destruct (winv_chain _ _ _ _ Hw Hl) as (cs & Hcs & HR).
    exists 0. intros fuel _. simpl.
    eapply (kept_call (λ l h, push_front l h value)); [done..|].
    by apply push_front_kept.
  - (* emplace_back *)
    destruct Hlegal as (l & Hl & Hroom).
    destruct (winv_chain _ _ _ _ Hw Hl) as (cs & Hcs & HR).
    exists 0. intros fuel _. simpl.
    eapply (kept_call_ret (λ l h, emplace_back l h args)); [done..|].
    by apply emplace_back_kept.
  - (* emplace_front *)
    destruct Hlegal as (l & Hl & Hroom).
    destruct (winv_chain _ _ _ _ Hw Hl) as (cs & Hcs & HR).
    exists 0. intros fuel _. simpl.
    eapply (kept_call_ret (λ l h, emplace_front l h args)); [done..|].
    by apply emplace_front_kept.
  - (* insert *)
    destruct Hlegal as ((l & Hl & Hroom) & (l0 & Hl0 & Hpos)). simplify_eq.
    destruct (winv_chain _ _ _ _ Hw Hl) as (cs & Hcs & HR).
    exists 0. intros fuel _. simpl.
    eapply (kept_call_ret (λ l h, insert l h pos value)); [done..|].
    by apply insert_kept.
  - (* emplace *)
    destruct Hlegal as ((l & Hl & Hroom) & (l0 & Hl0 & Hpos)). simplify_eq.
    destruct (winv_chain _ _ _ _ Hw Hl) as (cs & Hcs & HR).
    exists 0. intros fuel _. simpl.
    eapply (kept_call_ret (λ l h, emplace l h pos args)); [done..|].
    by apply insert_kept.
  - (* insert, count *)
    destruct Hlegal as ((l & Hl & Hroom) & (l0 & Hl0 & Hpos)). simplify_eq.
    destruct (winv_chain _ _ _ _ Hw Hl) as (cs & Hcs & HR).
    exists 0. intros fuel _. simpl.
    eapply (kept_call_ret (λ l h, insert_count l h pos count value)); [done..|].
    by apply insert_count_kept.
  - (* insert, range *)
    destruct Hlegal as ((l & Hl & Hroom) & (l0 & Hl0 & Hpos)). simplify_eq.
    destruct (winv_chain _ _ _ _ Hw Hl) as (cs & Hcs & HR).
    exists 0. intros fuel _. simpl.
    eapply (kept_call_ret (λ l h, insert_range l h pos range)); [done..|].
    by apply insert_range_kept.
  - (* insert, initializer list *)
    destruct Hlegal as ((l & Hl & Hroom) & (l0 & Hl0 & Hpos)). simplify_eq.
    destruct (winv_chain _ _ _ _ Hw Hl) as (cs & Hcs & HR).
    exists 0. intros fuel _. simpl.
    eapply (kept_call_ret (λ l h, insert_ilist l h pos ilist)); [done..|].
    by apply insert_range_kept.
  - (* erase *)
    destruct Hlegal as (l & Hl & Hpos).
    destruct (winv_chain _ _ _ _ Hw Hl) as (cs & Hcs & HR).
    exists 0. intros fuel _. simpl.
    eapply (kept_call_ret (λ l h, erase l h pos)); [done..|].
    by apply erase_kept.
  - (* erase, range *)
    destruct Hlegal as ((l & Hl & Hpos) & Hlast).
    destruct (winv_chain _ _ _ _ Hw Hl) as (cs & Hcs & HR).
    exists (length cs). intros fuel Hfuel. simpl.
    eapply (kept_call_ret (λ l h, erase_range fuel l h _ _)); [done..|].
    by apply erase_range_kept.
  - (* pop_back *)
    destruct Hlegal as (l & Hl).
    destruct (winv_chain _ _ _ _ Hw Hl) as (cs & Hcs & HR).
    exists 0. intros fuel _. simpl.
    eapply (kept_call pop_back); [done..|]. by apply pop_back_kept.
  - (* pop_front *)
    destruct Hlegal as (l & Hl).
    destruct (winv_chain _ _ _ _ Hw Hl) as (cs & Hcs & HR).
    exists 0. intros fuel _. simpl.
    eapply (kept_call pop_front); [done..|]. by apply pop_front_kept.
  - (* resize *)
    destruct Hlegal as ((l & Hl) & Hcount).
    destruct (winv_chain _ _ _ _ Hw Hl) as (cs & Hcs & HR).
    exists (length cs + Z.to_nat count). intros fuel Hfuel. simpl.
    eapply (kept_call (λ l h, resize fuel l h count value_init)); [done..|].
    apply resize_kept; [done..|lia].
  - (* resize, value *)
    destruct Hlegal as ((l & Hl) & Hcount).
    destruct (winv_chain _ _ _ _ Hw Hl) as (cs & Hcs & HR).
    exists (length cs + Z.to_nat count). intros fuel Hfuel. simpl.
    eapply (kept_call (λ l h, resize fuel l h count value)); [done..|].
    apply resize_kept; [done..|lia].
  - (* clear *)
    destruct Hlegal as (l & Hl).
    destruct (winv_chain _ _ _ _ Hw Hl) as (cs & Hcs & HR).
    exists (length cs). intros fuel Hfuel. simpl.
    eapply (kept_call (clear fuel)); [done..|]. by apply clear_kept.
  - (* swap *)
    destruct Hlegal as ((a & Ha) & (b & Hb)).
    exists 0. intros fuel _. simpl.
    destruct (swap_spec this other w css a b Hw Ha Hb) as (w' & ? & ? & _).
    by exists w'.
  - (* move assignment *)
    destruct Hlegal as ((a & Ha) & (b & Hb)).
    destruct (winv_chain _ _ _ _ Hw Ha) as (ca & Hca & _).
    destruct (winv_chain _ _ _ _ Hw Hb) as (cb & Hcb & _).
    exists (length ca). intros fuel Hfuel. simpl.
    destruct (decide (this = other)) as [->|Hne].
    + rewrite move_assign_self. exists w. split; [done|by exists css].
    + destruct (move_assign_spec fuel this other w css a b ca cb)
        as (w' & ? & ? & _); try done.
      exists w'. split; [done|]. by eexists.
  - (* copy assignment *)
    destruct Hlegal as ((a & Ha) & (b & Hb)).
    destruct (winv_chain _ _ _ _ Hw Ha) as (ca & Hca & _).
    destruct (winv_chain _ _ _ _ Hw Hb) as (cb & Hcb & _).
    exists (length ca + length cb). intros fuel Hfuel. simpl.
    destruct (decide (this = other)) as [->|Hne].
    + rewrite copy_assign_self. exists w. split; [done|by exists css].
    + destruct (copy_assign_spec fuel this other w css a b ca cb)
        as (w' & news & ? & ? & _); try done; try lia.
      exists w'. split; [done|]. by eexists.
  - (* assignment from an initializer list *)
    destruct Hlegal as ((l & Hl) & Hlen).
    destruct (winv_chain _ _ _ _ Hw Hl) as (cs & Hcs & HR).
    exists (length cs). intros fuel Hfuel. simpl.
    eapply (kept_call (λ l h, assign_range fuel l h ilist)); [done..|].
    by apply assign_range_kept.
  - (* assign, count *)
    destruct Hlegal as ((l & Hl) & Hlen).
    destruct (winv_chain _ _ _ _ Hw Hl) as (cs & Hcs & HR).
    exists (length cs). intros fuel Hfuel. simpl.
    eapply (kept_call (λ l h, assign_count fuel l h count value)); [done..|].
    simpl. rewrite assign_count_range.
    apply assign_range_kept; [done| |done]. by rewrite length_replicate.
  - (* assign, range *)
    destruct Hlegal as ((l & Hl) & Hlen).
    destruct (winv_chain _ _ _ _ Hw Hl) as (cs & Hcs & HR).
    exists (length cs). intros fuel Hfuel. simpl.
    eapply (kept_call (λ l h, assign_range fuel l h range)); [done..|].
    by apply assign_range_kept.
  - (* append_range *)
    destruct Hlegal as (l & Hl & Hroom).
    destruct (winv_chain _ _ _ _ Hw Hl) as (cs & Hcs & HR).
    exists 0. intros fuel _. simpl.
    eapply (kept_call (λ l h, append_range l h rg)); [done..|].
    by apply append_range_kept.
  - (* prepend_range *)
    destruct Hlegal as (l & Hl & Hroom).
    destruct (winv_chain _ _ _ _ Hw Hl) as (cs & Hcs & HR).
    exists 0. intros fuel _. simpl.
    eapply (kept_call (λ l h, prepend_range l h rg)); [done..|].
    by apply prepend_range_kept.
Qed.

Lemma step_preserves fuel w o w' :
  world_inv w → legal_op w o → step fuel o w = Ok w' → world_inv w'.
Proof.
  intros Hw Hlegal Hstep. destruct (step_spec w o Hw Hlegal) as (fuel0 & Hspec).
  destruct (Hspec (fuel `max` fuel0)) as (w'' & Hstep' & Hw''); [lia|].
  rewrite (step_mono fuel (fuel `max` fuel0) o w w' Hstep) in Hstep' by lia.
  by simplify_eq.
Qed.

Lemma reachable_world_inv w : reachable w → world_inv w.
Proof.
  induction 1 as [|w o fuel w' _ IH Hlegal Hstep].
  - exists []. split; [done|]. split.
    + intros i l cs Hl. simpl in Hl. by rewrite lookup_nil in Hl.
    + intros i j ci cj a _ Hci. by rewrite lookup_nil in Hci.
  - by eapply step_preserves.
Qed.

(** The representation gives the invariant as the specification words it. *)
Lemma seg_walk h p cs : seg h p cs None → walk h (first_of cs None) cs.*1.
Proof.
  revert p. induction cs as [|[c vc] cs IH]; intros p; simpl; [done|].
  intros [Hc Hs]. split; [done|]. eexists. split; [done|]. simpl. by eapply IH.
Qed.

Lemma seg_back_link h p cs nx a n m :
  seg h p cs nx → NoDup cs.*1 → a ∈ cs.*1 → h !! a = Some n → next n = Some m →
  Some m = nx ∨ ∃ n', h !! m = Some n' ∧ prev n' = Some a.
Proof.
  revert p. induction cs as [|[c vc] cs IH]; intros p Hs Hnd Ha Hn Hm.
  - by apply elem_of_nil in Ha.
  - destruct Hs as [Hc Hs]. simpl in Hc. csimpl in Hnd. csimpl in Ha. split_nodup.
    apply elem_of_cons in Ha as [->|Ha].
    + rewrite Hc in Hn. simplify_eq. simpl in Hm.
      destruct cs as [|[d vd] cs]; simpl in *; [by left|].
      right. destruct Hs as [Hd _]. simplify_eq. by eexists.
    + eapply IH; eauto.
Qed.

Lemma Rep_list_invariant h l cs : Rep h l cs → list_invariant h l.
Proof.
  intros ((Hs & Hnd & Hh & Ht) & Hsz & _). exists cs.*1. split_and!.
  - rewrite Hh. by eapply seg_walk.
  - by rewrite length_fmap.
  - rewrite Hh, Ht. destruct cs as [|c cs _] using rev_ind; [done|].
    rewrite last_of_snoc. by destruct cs.
  - intros a n m Ha Hn Hm.
    destruct (seg_back_link h None cs None a n m) as [?|?]; done.
  - intros a Ha. rewrite Hh in Ha. destruct cs as [|[c vc] cs]; [done|].
    simpl in *. simplify_eq. destruct Hs as [Hc _]. by eexists.
  - intros a Ha. rewrite Ht in Ha. destruct cs as [|[c vc] cs _] using rev_ind; [done|].
    rewrite last_of_snoc in Ha. simpl in Ha. simplify_eq.
    apply seg_snoc in Hs as [_ Hc]. by eexists.
Qed.

(** ** Exceptions

    [front] and [back] hold the only [throw] of the container. *)

Lemma no_throw_Ok {A} (a : A) : no_throw (Ok a).
Proof. by intros e. Qed.

Lemma no_throw_Undefined {A} : no_throw (@Undefined A).
Proof. by intros e. Qed.

Lemma no_throw_OutOfFuel {A} : no_throw (@OutOfFuel A).
Proof. by intros e. Qed.

Lemma no_throw_bind {A B} (m : result A) (f : A → result B) :
  no_throw m → (∀ a, no_throw (f a)) → no_throw (m ≫= f).
Proof.
  intros Hm Hf e.
  destruct m as [a|e0| |]; simpl; [apply Hf|by destruct (Hm e0)|done|done].
Qed.

Create HintDb nothrow.

Ltac nt :=
  repeat lazymatch goal with
  | |- no_throw (Ok _) => apply no_throw_Ok
  | |- no_throw Undefined => apply no_throw_Undefined
  | |- no_throw OutOfFuel => apply no_throw_OutOfFuel
  | |- no_throw (mbind _ _) => apply no_throw_bind
  | |- ∀ _, _ => intros ?
  | |- no_throw (match ?x with _ => _ end) => destruct x
  | |- no_throw (from_option _ _ ?x) => destruct x; simpl
  | |- _ => solve [eauto with nothrow]
  end.

Lemma load_no_throw h p : no_throw (load h p).
Proof. unfold load. nt. Qed.
Lemma store_next_no_throw h p q : no_throw (store_next h p q).
Proof. unfold store_next. nt. Qed.
Lemma store_prev_no_throw h p q : no_throw (store_prev h p q).
Proof. unfold store_prev. nt. Qed.
Lemma delete_Node_no_throw h a : no_throw (delete_Node h a).
Proof. unfold delete_Node. nt. Qed.
Hint Resolve load_no_throw store_next_no_throw store_prev_no_throw
  delete_Node_no_throw : nothrow.

Lemma iterator_ops_no_throw h it :
  no_throw (iterator_deref h it) ∧ no_throw (iterator_incr h it) ∧
  no_throw (iterator_decr h it).
Proof. unfold iterator_deref, iterator_incr, iterator_decr. split_and!; nt. Qed.

Lemma reverse_iterator_ops_no_throw h (it : reverse_iterator) :
  no_throw (reverse_iterator_deref h it) ∧ no_throw (reverse_iterator_incr h it) ∧
  no_throw (reverse_iterator_decr h it).
Proof.
  unfold reverse_iterator_deref, reverse_iterator_incr, reverse_iterator_decr.
  split_and!; nt.
Qed.

Lemma link_back_no_throw l h b a : no_throw (link_back l h b a).
Proof. unfold link_back. nt. Qed.
Lemma link_front_no_throw l h a : no_throw (link_front l h a).
Proof. unfold link_front. nt. Qed.
Hint Resolve link_back_no_throw link_front_no_throw : nothrow.

Lemma push_back_no_throw l h v : no_throw (push_back l h v).
Proof. unfold push_back, new_Node. nt. Qed.
Lemma push_front_no_throw l h v : no_throw (push_front l h v).
Proof. unfold push_front, new_Node. nt. Qed.
Lemma emplace_back_no_throw l h v : no_throw (emplace_back l h v).
Proof. unfold emplace_back, new_Node. nt. Qed.
Lemma emplace_front_no_throw l h v : no_throw (emplace_front l h v).
Proof. unfold emplace_front, new_Node. nt. Qed.
Lemma insert_no_throw l h pos v : no_throw (insert l h pos v).
Proof. unfold insert, new_Node. nt. Qed.
Lemma erase_no_throw l h pos : no_throw (erase l h pos).
Proof. unfold erase. nt. Qed.
Lemma pop_back_no_throw l h : no_throw (pop_back l h).
Proof. unfold pop_back. nt. Qed.
Lemma pop_front_no_throw l h : no_throw (pop_front l h).
Proof. unfold pop_front. nt. Qed.
Hint Resolve push_back_no_throw push_front_no_throw emplace_back_no_throw
  emplace_front_no_throw insert_no_throw erase_no_throw pop_back_no_throw
  pop_front_no_throw : nothrow.

Lemma insert_range_loop_no_throw range l h iter :
  no_throw (insert_range_loop range l h iter).
Proof. revert l h iter. induction range; intros; simpl; nt. Qed.
Lemma insert_count_loop_no_throw count l h iter v :
  no_throw (insert_count_loop count l h iter v).
Proof. rewrite insert_count_loop_range. apply insert_range_loop_no_throw. Qed.
Lemma append_range_no_throw l h rg : no_throw (append_range l h rg).
Proof. revert l h. induction rg; intros; simpl; nt. Qed.
Lemma prepend_range_loop_no_throw l h rrg : no_throw (prepend_range_loop l h rrg).
Proof. revert l h. induction rrg; intros; simpl; nt. Qed.
Lemma push_back_all_no_throw l h elems : no_throw (push_back_all l h elems).
Proof. revert l h. induction elems; intros; simpl; nt. Qed.
Lemma push_back_count_no_throw count l h v : no_throw (push_back_count count l h v).
Proof. rewrite push_back_count_all. apply push_back_all_no_throw. Qed.
Lemma erase_range_no_throw fuel l h first last :
  no_throw (erase_range fuel l h first last).
Proof. revert l h first. induction fuel; intros; simpl; nt. Qed.
Lemma clear_loop_no_throw fuel h p : no_throw (clear_loop fuel h p).
Proof. revert h p. induction fuel; intros; simpl; nt. Qed.
Lemma resize_shrink_no_throw fuel l h count : no_throw (resize_shrink fuel l h count).
Proof. revert l h. induction fuel; intros; simpl; nt. Qed.
Lemma resize_grow_no_throw fuel l h count v : no_throw (resize_grow fuel l h count v).
Proof. revert l h. induction fuel; intros; simpl; nt. Qed.
Hint Resolve insert_range_loop_no_throw insert_count_loop_no_throw
  append_range_no_throw prepend_range_loop_no_throw push_back_all_no_throw
  push_back_count_no_throw
  erase_range_no_throw clear_loop_no_throw resize_shrink_no_throw
  resize_grow_no_throw : nothrow.

Lemma clear_no_throw fuel l h : no_throw (clear fuel l h).
Proof. unfold clear. nt. Qed.
Hint Resolve clear_no_throw : nothrow.

Lemma get_list_no_throw w i : no_throw (get_list w i).
Proof. unfold get_list. nt. Qed.
Hint Resolve get_list_no_throw : nothrow.

Lemma set_head_no_throw i p w : no_throw (set_head i p w).
Proof. unfold set_head. nt. Qed.
Lemma set_tail_no_throw i p w : no_throw (set_tail i p w).
Proof. unfold set_tail. nt. Qed.
Lemma set_size_no_throw i n w : no_throw (set_size i n w).
Proof. unfold set_size. nt. Qed.
Hint Resolve set_head_no_throw set_tail_no_throw set_size_no_throw : nothrow.

Lemma call_no_throw f this w : (∀ l h, no_throw (f l h)) → no_throw (call f this w).
Proof. intros Hf. unfold call. nt. Qed.

Lemma call_ret_no_throw {A} (f : List → gmap addr Node → result (A * List * gmap addr Node))
    this w :
  (∀ l h, no_throw (f l h)) → no_throw (call_ret f this w).
Proof. intros Hf. unfold call_ret. nt. Qed.

Lemma copy_loop_no_throw fuel this current w : no_throw (copy_loop fuel this current w).
Proof.
  revert current w. induction fuel; intros; simpl; nt.
  apply call_no_throw. nt.
Qed.

Lemma step_no_throw fuel o w : no_throw (step fuel o w).
Proof.
  destruct o; simpl;
    try (apply call_no_throw; intros l h);
    try (apply call_ret_no_throw; intros l h);
    unfold emplace, insert_count, insert_range, insert_ilist, prepend_range, resize,
      assign_range, assign_count, swap, move_assign, copy_assign, construct;
    nt; try (apply call_no_throw; nt); try apply copy_loop_no_throw.
Qed.

(** ** Contents *)

Lemma seg_unique h p cs cs' :
  seg h p cs None → seg h p cs' None →
  first_of cs None = first_of cs' None → cs = cs'.
Proof.
  revert p cs'. induction cs as [|[c vc] cs IH]; intros p [|[c' vc'] cs'] Hs Hs' Hf;
    try done.
  simpl in Hf. simplify_eq. destruct Hs as [Hc Hs], Hs' as [Hc' Hs']. simpl in *.
  rewrite Hc in Hc'. simplify_eq. f_equal. by eapply IH.
Qed.

Lemma chain_unique h l cs cs' : chain h l cs → chain h l cs' → cs = cs'.
Proof.
  intros (Hs & _ & Hh & _) (Hs' & _ & Hh' & _).
  eapply seg_unique; [done..|]. by rewrite <- Hh, <- Hh'.
Qed.

Lemma contents_traverse fuel h l vs :
  contents h l vs → length vs ≤ fuel →
  traverse fuel l h = Ok vs ∧ rtraverse fuel l h = Ok (reverse vs).
Proof.
  intros (cs & Hc & <-) Hfuel. rewrite length_fmap in Hfuel.
  split; [by apply traverse_chain|by apply rtraverse_chain].
Qed.

(** What the range [insert] does: the source ends up in reverse order. *)
Lemma insert_range_contents h l xs ys pos range :
  chain h l (xs ++ ys) → node_ptr pos = first_of ys None →
  ∃ it l' h',
    insert_range l h pos range = Ok (it, l', h') ∧
    contents h' l' (xs.*2 ++ reverse range ++ ys.*2).
Proof.
  intros Hc Hpos.
  destruct (insert_range_loop_spec range h l xs ys pos Hc Hpos)
    as (l' & h' & news & Heq & Hc' & Hvs & _).
  eexists _, l', h'. split; [done|]. exists (xs ++ news ++ ys).
  split; [done|]. by rewrite !fmap_app, Hvs.
Qed.

(** * The claims of the specification *)

(** C2. For a list with chain [xs ++ ys], a position [pos] that follows
    [xs] (the end position when [ys] is empty), a count [n >= 1] and a
    value [v], [insert(pos, n, v)] succeeds, puts [n] newly allocated nodes
    holding [v] between [xs] and [ys], and returns an iterator to the
    first of them in list order: the node that [begin()] reaches after
    [length xs] increments. *)
Theorem insert_count_returns_first h l xs ys pos (n : nat) v :
  chain h l (xs ++ ys) → node_ptr pos = first_of ys None → 1 ≤ n →
  ∃ it l' h' news,
    insert_count l h pos n v = Ok (it, l', h') ∧
    chain h' l' (xs ++ news ++ ys) ∧
    length news = n ∧ news.*2 = replicate n v ∧
    (∀ a, a ∈ news.*1 → h !! a = None) ∧
    node_ptr it = first_of news None ∧
    is_Some (node_ptr it) ∧
    advance h' (length xs) (begin l') = Ok it.
Proof.
  intros Hc Hpos Hn. unfold insert_count. rewrite insert_count_loop_range.
  destruct (insert_range_loop_spec (replicate n v) h l xs ys pos Hc Hpos)
    as (l' & h' & news & Heq & Hc' & Hvs & _ & _ & Hnew).
  assert (length news = n) as Hlen.
  { by rewrite <- (length_fmap snd), Hvs, length_reverse, length_replicate. }
  exists (mk_iterator (first_of (news ++ ys) None)), l', h', news.
  assert (first_of (news ++ ys) None = first_of news None) as Hfirst.
  { destruct news; [simpl in Hlen; lia|done]. }
  split_and!; try done.
  - by rewrite Hvs, reverse_replicate.
  - intros a Ha. destruct (Hnew a) as [Hold|Hnone]; [|exfalso|done].
    { rewrite !fmap_app. addr_solver. }
    destruct Hc' as (_ & Hnd & _). rewrite !fmap_app in Hnd. rewrite !fmap_app in Hold.
    apply NoDup_app in Hnd as (_ & Hx & Hnd). apply NoDup_app in Hnd as (_ & Hy & _).
    apply elem_of_app in Hold as [Hin|Hin].
    + apply (Hx a Hin). addr_solver.
    + by apply (Hy a Ha).
  - simpl. rewrite Hfirst. destruct news; [simpl in Hlen; lia|by eexists].
  - destruct Hc' as (Hs & _ & Hh & _). unfold begin. rewrite Hh.
    rewrite (advance_seg h' None _ (length xs) Hs) by (rewrite length_app; lia).
    by rewrite drop_app_length.
Qed.

(** C3. In every state that a finite sequence of public operations reaches
    from the start, each list satisfies the invariant: [size] is the
    number of nodes that following [next] from [head] reaches, [head] and
    [tail] are both null or both non-null, the [prev] of the successor of
    every node is that node, [head->prev] and [tail->next] are null.  And
    every further operation of a well-formed program completes. *)
Theorem invariant_preserved w :
  reachable w →
  (∀ l, l ∈ lists w → list_invariant (heap w) l) ∧
  (∀ o, legal_op w o → ∃ fuel w', step fuel o w = Ok w' ∧ reachable w').
Proof.
  intros Hreach. pose proof (reachable_world_inv w Hreach) as [css Hw]. split.
  - intros l [i Hl]%list_elem_of_lookup.
    destruct (winv_chain w css i l Hw Hl) as (cs & _ & HR).
    by eapply Rep_list_invariant.
  - intros o Hlegal.
    destruct (step_spec w o (ex_intro _ css Hw) Hlegal) as (fuel & Hstep).
    destruct (Hstep fuel (le_n _)) as (w' & Hw' & _).
    exists fuel, w'. split; [done|]. by eapply reachable_step.
Qed.

(** C4. [front()] and [back()] throw [out_of_range] on an empty list; on a
    list that is not empty they return a reference to the first and to the
    last element; and no other operation of the container throws: not a
    step of a program over the public interface, not an operation of an
    iterator. *)
Theorem front_back_out_of_range :
  (∀ h l, Rep h l [] →
     front l h = Throw out_of_range ∧ back l h = Throw out_of_range) ∧
  (∀ h l c vc cs, chain h l ((c, vc) :: cs) →
     front l h = Ok c ∧ read h c = Ok vc) ∧
  (∀ h l cs c vc, chain h l (cs ++ [(c, vc)]) →
     back l h = Ok c ∧ read h c = Ok vc) ∧
  (∀ fuel o w, no_throw (step fuel o w)) ∧
  (∀ h it, no_throw (iterator_deref h it) ∧ no_throw (iterator_incr h it) ∧
     no_throw (iterator_decr h it)) ∧
  (∀ h (it : reverse_iterator), no_throw (reverse_iterator_deref h it) ∧
     no_throw (reverse_iterator_incr h it) ∧ no_throw (reverse_iterator_decr h it)).
Proof.
  split_and!.
  - intros h l ((_ & _ & Hh & Ht) & _). unfold front, back. by rewrite Hh, Ht.
  - intros h l c vc cs (Hs & _ & Hh & _). destruct Hs as [Hc _]. simpl in *.
    unfold front, read. rewrite Hh. simpl. by rewrite Hc.
  - intros h l cs c vc (Hs & _ & _ & Ht). apply seg_snoc in Hs as [_ Hc].
    rewrite last_of_snoc in Ht. simpl in *.
    unfold back, read. rewrite Ht. simpl. by rewrite Hc.
  - apply step_no_throw.
  - apply iterator_ops_no_throw.
  - apply reverse_iterator_ops_no_throw.
Qed.

(** C5. Pushing [v1 .. vn] in this order onto an empty list gives a list
    whose traversal from [begin()] to [end()] yields [v1 .. vn] and whose
    traversal from [rbegin()] to [rend()] yields [vn .. v1]. *)
Theorem push_back_order vs h fuel :
  length vs ≤ fuel →
  ∃ l h',
    push_back_all List_new h vs = Ok (l, h') ∧
    traverse fuel l h' = Ok vs ∧
    rtraverse fuel l h' = Ok (reverse vs).
Proof.
  intros Hfuel.
  destruct (push_back_all_spec vs h List_new [] (chain_nil h))
    as (l & h' & news & Heq & Hc & Hvs & _).
  exists l, h'. split; [done|]. apply contents_traverse; [|done].
  exists news. by split.
Qed.

(** C6. On an empty list [pop_back()] and [pop_front()] return without an
    error and change nothing: the list stays empty and [getSize()] is 0.
    On a list that is not empty they free exactly the last (first) node,
    leave the other nodes linked as a list with the new [tail] ([head]),
    both fields null when the list had one node, and [getSize()] is one
    less. *)
Theorem pop_back_pop_front :
  (∀ h l, Rep h l [] →
     pop_back l h = Ok (l, h) ∧ pop_front l h = Ok (l, h) ∧
     getSize l = 0%Z ∧ head l = None ∧ tail l = None) ∧
  (∀ h l cs c vc, Rep h l (cs ++ [(c, vc)]) →
     ∃ l' h', pop_back l h = Ok (l', h') ∧
       Rep h' l' cs ∧ h' !! c = None ∧
       getSize l' = (getSize l - 1)%Z ∧
       tail l' = last_of None cs ∧
       (cs = [] → head l' = None ∧ tail l' = None)) ∧
  (∀ h l c vc cs, Rep h l ((c, vc) :: cs) →
     ∃ l' h', pop_front l h = Ok (l', h') ∧
       Rep h' l' cs ∧ h' !! c = None ∧
       getSize l' = (getSize l - 1)%Z ∧
       head l' = first_of cs None ∧
       (cs = [] → head l' = None ∧ tail l' = None)).
Proof.
  split_and!.
  - intros h l ((_ & _ & Hh & Ht) & Hsz & _).
    by rewrite pop_back_empty, pop_front_empty.
  - intros h l cs c vc HR.
    destruct (pop_back_spec h l cs c vc (proj1 HR)) as (l' & h' & Heq & Hc & Hsz & _ & Hfree).
    assert (Rep h' l' cs) as HR'.
    { rewrite <- (app_nil_r cs) in Hc |- *.
      by apply (Rep_remove h l cs [(c, vc)] []). }
    exists l', h'. split_and!; try done.
    + unfold getSize. rewrite (Rep_size _ _ _ HR), (Rep_size _ _ _ HR'), length_app.
      simpl. lia.
    + by destruct Hc as (_ & _ & _ & ?).
    + intros ->. by destruct Hc as (_ & _ & ? & ?).
  - intros h l c vc cs HR.
    destruct (pop_front_spec h l c vc cs (proj1 HR)) as (l' & h' & Heq & Hc & Hsz & _ & Hfree).
    assert (Rep h' l' cs) as HR' by (by apply (Rep_remove h l [] [(c, vc)] cs)).
    exists l', h'. split_and!; try done.
    + unfold getSize. rewrite (Rep_size _ _ _ HR), (Rep_size _ _ _ HR'). simpl. lia.
    + by destruct Hc as (_ & _ & ? & _).
    + intros ->. by destruct Hc as (_ & _ & ? & ?).
Qed.

(** C7. For two distinct lists of a well-formed state, [A = move(B)]
    (with budget for the [clear()] of [A]) leaves [A] with the [head],
    [tail] and [size] that [B] had, hence with the contents [B] had, and
    leaves [B] in the state of [List()].  [A = move(A)] changes nothing. *)
Theorem move_assign_adopts :
  (∀ w this other a b,
     world_inv w → this ≠ other →
     lists w !! this = Some a → lists w !! other = Some b →
     ∃ fuel0, ∀ fuel, fuel0 ≤ fuel →
       ∃ w', move_assign fuel this other w = Ok w' ∧
         lists w' !! this = Some b ∧
         lists w' !! other = Some List_new ∧
         (∀ vs, contents (heap w) b vs → contents (heap w') b vs) ∧
         world_inv w') ∧
  (∀ fuel w this, move_assign fuel this this w = Ok w).
Proof.
  split; [|intros; apply move_assign_self].
  intros w this other a b [css Hw] Hne Ha Hb.
  destruct (winv_chain _ _ _ _ Hw Ha) as (ca & Hca & _).
  destruct (winv_chain _ _ _ _ Hw Hb) as (cb & Hcb & HRb).
  exists (length ca). intros fuel Hfuel.
  destruct (move_assign_spec fuel this other w css a b ca cb)
    as (w' & Heq & Hw' & Ha' & Hb' & Hsame & _); try done.
  exists w'. split_and!; try done; [|by eexists].
  intros vs (cs & Hc & <-). rewrite (chain_unique _ _ _ _ Hc (proj1 HRb)).
  exists cb. split; [|done].
  destruct HRb as ((Hs & Hrest) & _). split; [|done]. by eapply seg_agree.
Qed.

(** C8. For a list holding [vs] and a source sequence [rg],
    [prepend_range(rg)], which walks the source backwards, leaves a list
    that holds [rg] followed by [vs], and [append_range(rg)] one that
    holds [vs] followed by [rg]. *)
Theorem range_ends_order h l vs rg :
  contents h l vs →
  (prepend_range l h rg = prepend_range_loop l h (reverse rg)) ∧
  (∃ l' h', prepend_range l h rg = Ok (l', h') ∧
     contents h' l' (rg ++ vs) ∧
     traverse (length (rg ++ vs)) l' h' = Ok (rg ++ vs)) ∧
  (∃ l' h', append_range l h rg = Ok (l', h') ∧
     contents h' l' (vs ++ rg) ∧
     traverse (length (vs ++ rg)) l' h' = Ok (vs ++ rg)).
Proof.
  intros (cs & Hc & <-). split; [done|]. split.
  - destruct (prepend_range_spec rg h l cs Hc) as (l' & h' & news & Heq & Hc' & Hvs & _).
    assert (contents h' l' (rg ++ cs.*2)) as Hcont.
    { exists (news ++ cs). split; [done|]. by rewrite fmap_app, Hvs. }
    exists l', h'. split_and!; try done. by apply contents_traverse.
  - destruct (append_range_spec rg h l cs Hc) as (l' & h' & news & Heq & Hc' & Hvs & _).
    assert (contents h' l' (cs.*2 ++ rg)) as Hcont.
    { exists (cs ++ news). split; [done|]. by rewrite fmap_app, Hvs. }
    exists l', h'. split_and!; try done. by apply contents_traverse.
Qed.

(** C9. [insert(pos, 0, v)] returns [pos] and leaves the list and the
    store as they are. *)
Theorem insert_count_zero l h pos v : insert_count l h pos 0 v = Ok (pos, l, h).
Proof. reflexivity. Qed.

(** C10. [L.swap(L)] completes and leaves the state as it is: the fields
    of [L], every other list, and the store with all the nodes. *)
Theorem swap_self w this l :
  lists w !! this = Some l →
  swap this this w = Ok w ∧
  (∀ w', swap this this w = Ok w' →
     lists w' !! this = Some l ∧ heap w' = heap w ∧
     ∀ fuel, traverse fuel l (heap w') = traverse fuel l (heap w)).
Proof.
  intros Hl. assert (swap this this w = Ok w) as Heq.
  { rewrite (swap_eq this this w l l Hl Hl).
    rewrite list_insert_insert_eq, list_insert_id by done. by destruct w. }
  split; [done|]. intros w' Hw'. rewrite Heq in Hw'. by simplify_eq.
Qed.

(** * Further properties of the container *)

(** ** Where the store changes *)

Lemma grows_insert h k (n : @Node T) : grows h (<[k := n]> h) [k].
Proof.
  intros a Ha. destruct (decide (a = k)) as [->|Hne]; [left; apply list_elem_of_singleton; done|].
  right. by rewrite lookup_insert_ne in Ha.
Qed.

Lemma store_next_grows h p q h' S : store_next h p q = Ok h' → grows h h' S.
Proof.
  unfold store_next. destruct p as [k|]; [|done]. destruct (h !! k) eqn:Hk; [|done].
  intros [= <-] a Ha. right. destruct (decide (a = k)) as [->|Hne]; [by eexists|].
  by rewrite lookup_insert_ne in Ha.
Qed.

Lemma store_prev_grows h p q h' S : store_prev h p q = Ok h' → grows h h' S.
Proof.
  unfold store_prev. destruct p as [k|]; [|done]. destruct (h !! k) eqn:Hk; [|done].
  intros [= <-] a Ha. right. destruct (decide (a = k)) as [->|Hne]; [by eexists|].
  by rewrite lookup_insert_ne in Ha.
Qed.

Lemma delete_Node_grows h k h' S : delete_Node h k = Ok h' → grows h h' S.
Proof.
  unfold delete_Node. destruct (h !! k) eqn:Hk; [|done].
  intros [= <-] a Ha. right. destruct (decide (a = k)) as [->|Hne]; [by eexists|].
  by rewrite lookup_delete_ne in Ha.
Qed.

(** Taking a computation that succeeded apart. *)
Ltac unbind S :=
  repeat match goal with
  | H : mbind _ _ = Ok _ |- _ => apply bind_Ok in H as (? & ? & ?)
  | H : (λ _, _) _ = Ok _ |- _ => cbv beta in H
  | H : Ok _ = Ok _ |- _ => injection H as ?
  | H : Undefined = Ok _ |- _ => discriminate H
  | H : from_option _ _ ?x = Ok _ |- _ => destruct x; simpl in H
  | H : match ?x with _ => _ end = Ok _ |- _ => destruct x
  | H : store_next _ _ _ = Ok _ |- _ => apply (store_next_grows _ _ _ _ S) in H
  | H : store_prev _ _ _ = Ok _ |- _ => apply (store_prev_grows _ _ _ _ S) in H
  | H : delete_Node _ _ = Ok _ |- _ => apply (delete_Node_grows _ _ _ S) in H
  end.

Ltac grows_chain :=
  subst;
  let a := fresh "a" in let Ha := fresh "Ha" in
  intros a Ha;
  repeat match goal with
  | H : grows _ ?h' _, Ha' : is_Some (?h' !! _) |- _ =>
      apply H in Ha' as [Ha'|Ha']; [by left|]; clear H
  end;
  first [ by right | by left ].

Lemma link_back_grows l h (b : bool) k l' h' S :
  link_back l h b k = Ok (l', h') → grows h h' S.
Proof. unfold link_back. intros H. unbind S; grows_chain. Qed.

Lemma link_front_grows l h k l' h' S :
  link_front l h k = Ok (l', h') → grows h h' S.
Proof. unfold link_front. intros H. unbind S; grows_chain. Qed.

Lemma push_back_grows l h v l' h' :
  push_back l h v = Ok (l', h') → grows h h' [alloc h].
Proof.
  unfold push_back, new_Node. intros H.
  pose proof (grows_insert h (alloc h) (mkNode v None None)).
  unbind [alloc h].
  match goal with H : link_back _ _ _ _ = Ok _ |- _ =>
    apply (link_back_grows _ _ _ _ _ _ [alloc h]) in H end.
  grows_chain.
Qed.

Lemma emplace_back_grows l h v r l' h' :
  emplace_back l h v = Ok (r, l', h') → grows h h' [alloc h].
Proof.
  unfold emplace_back, new_Node. intros H.
  pose proof (grows_insert h (alloc h) (mkNode v None None)).
  unbind [alloc h].
  match goal with H : link_back _ _ _ _ = Ok _ |- _ =>
    apply (link_back_grows _ _ _ _ _ _ [alloc h]) in H end.
  grows_chain.
Qed.

Lemma push_front_grows l h v l' h' :
  push_front l h v = Ok (l', h') → grows h h' [alloc h].
Proof.
  unfold push_front, new_Node. intros H.
  pose proof (grows_insert h (alloc h) (mkNode v None None)).
  unbind [alloc h].
  match goal with H : link_front _ _ _ = Ok _ |- _ =>
    apply (link_front_grows _ _ _ _ _ [alloc h]) in H end.
  grows_chain.
Qed.

Lemma emplace_front_grows l h v r l' h' :
  emplace_front l h v = Ok (r, l', h') → grows h h' [alloc h].
Proof.
  unfold emplace_front, new_Node. intros H.
  pose proof (grows_insert h (alloc h) (mkNode v None None)).
  unbind [alloc h].
  match goal with H : link_front _ _ _ = Ok _ |- _ =>
    apply (link_front_grows _ _ _ _ _ [alloc h]) in H end.
  grows_chain.
Qed.

Lemma insert_grows l h pos v r l' h' :
  insert l h pos v = Ok (r, l', h') → grows h h' [alloc h].
Proof.
  unfold insert, new_Node, link_back. intros H.
  pose proof (grows_insert h (alloc h) (mkNode v None None)).
  unbind [alloc h]; grows_chain.
Qed.

Lemma erase_grows l h pos r l' h' :
  erase l h pos = Ok (r, l', h') → grows h h' [].
Proof. unfold erase. intros H. unbind (@nil addr); grows_chain. Qed.

Lemma pop_back_grows l h l' h' : pop_back l h = Ok (l', h') → grows h h' [].
Proof. unfold pop_back. intros H. unbind (@nil addr); grows_chain. Qed.

Lemma pop_front_grows l h l' h' : pop_front l h = Ok (l', h') → grows h h' [].
Proof. unfold pop_front. intros H. unbind (@nil addr); grows_chain. Qed.

(** ** The store an operation leaves *)

Lemma moved_intro h cs h' cs' S :
  framed h cs h' cs' → grows h h' S →
  (∀ a, a ∈ S → a ∈ cs'.*1) →
  (∀ a, a ∈ cs.*1 → a ∉ cs'.*1 → h' !! a = None) →
  moved h cs h' cs'.
Proof.
  intros HF HG HS Hfree. split; [done|]. intros a Hna.
  destruct (decide (a ∈ cs.*1)) as [Hin|Hnin]; [by apply Hfree|].
  destruct (h !! a) as [n|] eqn:E.
  - rewrite <- E. apply HF; [done|by rewrite E].
  - destruct (h' !! a) as [n'|] eqn:E'; [|done].
    destruct (HG a) as [Ha|Ha]; [by rewrite E'|by apply HS in Ha|].
    rewrite E in Ha. by destruct Ha.
Qed.

Lemma moved_refl h cs : moved h cs h cs.
Proof.
  split; [apply framed_refl|]. intros a Hna. by rewrite decide_False.
Qed.

Lemma moved_trans h cs h1 cs1 h2 cs2 :
  moved h cs h1 cs1 → moved h1 cs1 h2 cs2 → moved h cs h2 cs2.
Proof.
  intros [HF1 HS1] [HF2 HS2]. split; [by eapply framed_trans|].
  intros a Hna. rewrite (HS2 a Hna).
  destruct (decide (a ∈ cs1.*1)) as [Hin|Hnin]; [|by apply HS1].
  destruct (proj2 HF1 a Hin) as [Ha|Ha].
  - by rewrite decide_True.
  - by destruct (decide (a ∈ cs.*1)).
Qed.

(** The chain fixes the store at its nodes. *)
Lemma seg_lookup_agree h h' p cs nx a :
  seg h p cs nx → seg h' p cs nx → a ∈ cs.*1 → h' !! a = h !! a.
Proof.
  revert p. induction cs as [|c cs IH]; intros p; simpl.
  - by intros _ _ ?%elem_of_nil.
  - intros [H1 H2] [H1' H2'] [->|Hin]%elem_of_cons.
    + by rewrite H1, H1'.
    + by eapply IH.
Qed.

(** Two states with the same chain, the same [size] and the same store off
    the chain are one state. *)
Lemma state_determined h l h' l' cs :
  chain h l cs → chain h' l' cs → size l' = size l →
  (∀ a, a ∉ cs.*1 → h' !! a = h !! a) →
  l' = l ∧ h' = h.
Proof.
  intros (Hs & _ & Hh & Ht) (Hs' & _ & Hh' & Ht') Hsize Hoff. split.
  - destruct l, l'; simpl in *. congruence.
  - apply map_eq. intros a.
    destruct (decide (a ∈ cs.*1)); [by eapply seg_lookup_agree|by apply Hoff].
Qed.

Lemma push_back_moved h l cs v l' h' :
  chain h l cs → push_back l h v = Ok (l', h') →
  chain h' l' (cs ++ [(alloc h, v)]) ∧ size l' = size_incr (size l) ∧
  moved h cs h' (cs ++ [(alloc h, v)]).
Proof.
  intros Hc Heq. destruct (push_back_spec h l cs v Hc) as (l1 & h1 & E & ? & ? & ?).
  rewrite E in Heq. injection Heq as <- <-. split_and!; [done..|].
  eapply moved_intro; [done|by eapply push_back_grows| |];
    intros a; rewrite ?fmap_app; csimpl; addr_solver.
Qed.

Lemma emplace_back_moved h l cs v r l' h' :
  chain h l cs → emplace_back l h v = Ok (r, l', h') →
  r = alloc h ∧ chain h' l' (cs ++ [(alloc h, v)]) ∧ size l' = size_incr (size l) ∧
  moved h cs h' (cs ++ [(alloc h, v)]).
Proof.
  intros Hc Heq. destruct (emplace_back_spec h l cs v Hc) as (l1 & h1 & E & ? & ? & ?).
  rewrite E in Heq. injection Heq as <- <- <-. split_and!; [done..|].
  eapply moved_intro; [done|by eapply emplace_back_grows| |];
    intros a; rewrite ?fmap_app; csimpl; addr_solver.
Qed.

Lemma push_front_moved h l cs v l' h' :
  chain h l cs → push_front l h v = Ok (l', h') →
  chain h' l' ((alloc h, v) :: cs) ∧ size l' = size_incr (size l) ∧
  moved h cs h' ((alloc h, v) :: cs).
Proof.
  intros Hc Heq. destruct (push_front_spec h l cs v Hc) as (l1 & h1 & E & ? & ? & ?).
  rewrite E in Heq. injection Heq as <- <-. split_and!; [done..|].
  eapply moved_intro; [done|by eapply push_front_grows| |];
    intros a; rewrite ?fmap_app; csimpl; addr_solver.
Qed.

Lemma emplace_front_moved h l cs v r l' h' :
  chain h l cs → emplace_front l h v = Ok (r, l', h') →
  r = alloc h ∧ chain h' l' ((alloc h, v) :: cs) ∧ size l' = size_incr (size l) ∧
  moved h cs h' ((alloc h, v) :: cs).
Proof.
  intros Hc Heq. destruct (emplace_front_spec h l cs v Hc) as (l1 & h1 & E & ? & ? & ?).
  rewrite E in Heq. injection Heq as <- <- <-. split_and!; [done..|].
  eapply moved_intro; [done|by eapply emplace_front_grows| |];
    intros a; rewrite ?fmap_app; csimpl; addr_solver.
Qed.

Lemma insert_moved h l xs ys pos v r l' h' :
  chain h l (xs ++ ys) → node_ptr pos = first_of ys None →
  insert l h pos v = Ok (r, l', h') →
  r = mk_iterator (Some (alloc h)) ∧
  chain h' l' (xs ++ (alloc h, v) :: ys) ∧ size l' = size_incr (size l) ∧
  moved h (xs ++ ys) h' (xs ++ (alloc h, v) :: ys).
Proof.
  intros Hc Hpos Heq.
  destruct (insert_spec h l xs ys pos v Hc Hpos) as (l1 & h1 & E & ? & ? & ?).
  rewrite E in Heq. injection Heq as <- <- <-. split_and!; [done..|].
  eapply moved_intro; [done|by eapply insert_grows| |].
  - intros a. rewrite fmap_app. csimpl. addr_solver.
  - intros a. rewrite !fmap_app. csimpl. addr_solver.
Qed.

Lemma erase_moved h l xs c vc ys pos r l' h' :
  chain h l (xs ++ (c, vc) :: ys) → node_ptr pos = Some c →
  erase l h pos = Ok (r, l', h') →
  r = mk_iterator (first_of ys None) ∧
  chain h' l' (xs ++ ys) ∧ size l' = size_decr (size l) ∧
  moved h (xs ++ (c, vc) :: ys) h' (xs ++ ys) ∧ h' !! c = None.
Proof.
  intros Hc Hpos Heq.
  destruct (erase_spec h l xs c vc ys pos Hc Hpos) as (l1 & h1 & E & ? & ? & ? & Hfree).
  rewrite E in Heq. injection Heq as <- <- <-. split_and!; [done..| |done].
  eapply (moved_intro _ _ _ _ []); [done|by eapply erase_grows| |].
  - by intros a ?%elem_of_nil.
  - intros a. rewrite !fmap_app. csimpl. intros Hin Hnin.
    assert (a = c) as -> by addr_solver. done.
Qed.

Lemma pop_back_moved h l xs c vc l' h' :
  chain h l (xs ++ [(c, vc)]) → pop_back l h = Ok (l', h') →
  chain h' l' xs ∧ size l' = size_decr (size l) ∧
  moved h (xs ++ [(c, vc)]) h' xs ∧ h' !! c = None.
Proof.
  intros Hc Heq.
  destruct (pop_back_spec h l xs c vc Hc) as (l1 & h1 & E & ? & ? & ? & Hfree).
  rewrite E in Heq. injection Heq as <- <-. split_and!; [done..| |done].
  eapply (moved_intro _ _ _ _ []); [done|by eapply pop_back_grows| |].
  - by intros a ?%elem_of_nil.
  - intros a. rewrite !fmap_app. csimpl. intros Hin Hnin.
    assert (a = c) as -> by addr_solver. done.
Qed.

Lemma pop_front_moved h l c vc ys l' h' :
  chain h l ((c, vc) :: ys) → pop_front l h = Ok (l', h') →
  chain h' l' ys ∧ size l' = size_decr (size l) ∧
  moved h ((c, vc) :: ys) h' ys ∧ h' !! c = None.
Proof.
  intros Hc Heq.
  destruct (pop_front_spec h l c vc ys Hc) as (l1 & h1 & E & ? & ? & ? & Hfree).
  rewrite E in Heq. injection Heq as <- <-. split_and!; [done..| |done].
  eapply (moved_intro _ _ _ _ []); [done|by eapply pop_front_grows| |].
  - by intros a ?%elem_of_nil.
  - intros a. csimpl. intros Hin Hnin.
    assert (a = c) as -> by addr_solver. done.
Qed.

Lemma moves_Ok h l cs : chain h l cs → moves h cs (Ok (l, h)).
Proof. intros Hc l' h' [= <- <-]. exists cs. split; [done|apply moved_refl]. Qed.

Lemma moves_ret_Ok {A} (r : A) h l cs : chain h l cs → moves_ret h cs (Ok (r, l, h)).
Proof. intros Hc r' l' h' [= <- <- <-]. exists cs. split; [done|apply moved_refl]. Qed.

Lemma push_back_moves h l cs v : chain h l cs → moves h cs (push_back l h v).
Proof.
  intros Hc l' h' Heq. destruct (push_back_moved _ _ _ _ _ _ Hc Heq) as (? & _ & ?).
  by eexists.
Qed.

Lemma emplace_back_moves h l cs v : chain h l cs → moves_ret h cs (emplace_back l h v).
Proof.
  intros Hc r l' h' Heq.
  destruct (emplace_back_moved _ _ _ _ _ _ _ Hc Heq) as (_ & ? & _ & ?). by eexists.
Qed.

Lemma push_front_moves h l cs v : chain h l cs → moves h cs (push_front l h v).
Proof.
  intros Hc l' h' Heq. destruct (push_front_moved _ _ _ _ _ _ Hc Heq) as (? & _ & ?).
  by eexists.
Qed.

Lemma emplace_front_moves h l cs v : chain h l cs → moves_ret h cs (emplace_front l h v).
Proof.
  intros Hc r l' h' Heq.
  destruct (emplace_front_moved _ _ _ _ _ _ _ Hc Heq) as (_ & ? & _ & ?). by eexists.
Qed.

Lemma pop_back_moves h l cs : chain h l cs → moves h cs (pop_back l h).
Proof.
  intros Hc. destruct cs as [|[c vc] cs _] using rev_ind.
  - rewrite pop_back_empty by (by apply (chain_head_None h l [])).
    by apply moves_Ok.
  - intros l' h' Heq.
    destruct (pop_back_moved _ _ _ _ _ _ _ Hc Heq) as (? & _ & ? & _). by eexists.
Qed.

Lemma pop_front_moves h l cs : chain h l cs → moves h cs (pop_front l h).
Proof.
  intros Hc. destruct cs as [|[c vc] cs].
  - rewrite pop_front_empty by (by apply (chain_head_None h l [])).
    by apply moves_Ok.
  - intros l' h' Heq.
    destruct (pop_front_moved _ _ _ _ _ _ _ Hc Heq) as (? & _ & ? & _). by eexists.
Qed.

Lemma insert_moves h l xs ys pos v :
  chain h l (xs ++ ys) → node_ptr pos = first_of ys None →
  moves_ret h (xs ++ ys) (insert l h pos v).
Proof.
  intros Hc Hpos r l' h' Heq.
  destruct (insert_moved _ _ _ _ _ _ _ _ _ Hc Hpos Heq) as (_ & ? & _ & ?). by eexists.
Qed.

Lemma erase_moves h l xs ys pos :
  chain h l (xs ++ ys) → node_ptr pos = first_of ys None →
  moves_ret h (xs ++ ys) (erase l h pos).
Proof.
  intros Hc Hpos. destruct ys as [|[c vc] ys]; simpl in Hpos.
  - unfold erase. rewrite Hpos. by apply moves_ret_Ok.
  - intros r l' h' Heq.
    destruct (erase_moved _ _ _ _ _ _ _ _ _ _ Hc Hpos Heq) as (_ & ? & _ & ? & _).
    by eexists.
Qed.

Lemma clear_moves fuel h l cs : chain h l cs → moves h cs (clear fuel l h).
Proof.
  intros Hc l' h' Heq.
  apply (clear_mono _ (fuel + length cs)) in Heq; [|lia].
  pose proof Hc as (Hs & Hnd & Hh & _).
  unfold clear in Heq. rewrite Hh in Heq.
  destruct (clear_loop_spec (fuel + length cs) h None cs Hs Hnd) as (h1 & E & Hoff & Hfree);
    [lia|].
  rewrite E in Heq. simpl in Heq. injection Heq as <- <-.
  exists []. split; [apply chain_nil|]. split.
  - split; [by intros a Ha _; apply Hoff|by intros a ?%elem_of_nil].
  - intros a _. destruct (decide (a ∈ cs.*1)); [by apply Hfree|by apply Hoff].
Qed.

(** Sequencing. *)
Lemma moves_bind h cs (m : result (List * gmap addr Node))
    (k : List * gmap addr Node → result (List * gmap addr Node)) :
  moves h cs m →
  (∀ l1 h1 cs1, chain h1 l1 cs1 → moves h1 cs1 (k (l1, h1))) →
  moves h cs (m ≫= k).
Proof.
  intros Hm Hk l' h' Heq. apply bind_Ok in Heq as ([l1 h1] & E1 & E2).
  destruct (Hm _ _ E1) as (cs1 & Hc1 & Hm1).
  destruct (Hk _ _ _ Hc1 _ _ E2) as (cs' & Hc' & Hm').
  exists cs'. split; [done|by eapply moved_trans].
Qed.

Lemma moves_ret_bind {A} h cs (m : result (A * List * gmap addr Node))
    (k : A * List * gmap addr Node → result (List * gmap addr Node)) :
  moves_ret h cs m →
  (∀ r l1 h1 cs1, chain h1 l1 cs1 → moves h1 cs1 (k (r, l1, h1))) →
  moves h cs (m ≫= k).
Proof.
  intros Hm Hk l' h' Heq. apply bind_Ok in Heq as ([[r l1] h1] & E1 & E2).
  destruct (Hm _ _ _ E1) as (cs1 & Hc1 & Hm1).
  destruct (Hk _ _ _ _ Hc1 _ _ E2) as (cs' & Hc' & Hm').
  exists cs'. split; [done|by eapply moved_trans].
Qed.

Lemma insert_range_loop_moves range h l xs ys iter :
  chain h l (xs ++ ys) → node_ptr iter = first_of ys None →
  moves_ret h (xs ++ ys) (insert_range_loop range l h iter).
Proof.
  revert h l ys iter. induction range as [|x range IH]; intros h l ys iter Hc Hpos.
  - by apply moves_ret_Ok.
  - intros r l' h' Heq. simpl in Heq. apply bind_Ok in Heq as ([[it l1] h1] & E1 & E2).
    destruct (insert_moved _ _ _ _ _ _ _ _ _ Hc Hpos E1) as (-> & Hc1 & _ & Hm1).
    destruct (IH h1 l1 ((alloc h, x) :: ys) (mk_iterator (Some (alloc h))) Hc1 eq_refl
                _ _ _ E2) as (cs' & Hc' & Hm').
    exists cs'. split; [done|by eapply moved_trans].
Qed.

Lemma insert_range_moves h l cs pos range :
  chain h l cs → in_range h l pos → moves_ret h cs (insert_range l h pos range).
Proof.
  intros Hc [k Hk].
  destruct (position_split h l cs k pos Hc Hk) as (xs & ys & -> & _ & Hpos).
  by apply insert_range_loop_moves.
Qed.

Lemma insert_count_moves h l cs pos count v :
  chain h l cs → in_range h l pos → moves_ret h cs (insert_count l h pos count v).
Proof.
  intros Hc Hpos. unfold insert_count. rewrite insert_count_loop_range.
  by apply insert_range_moves.
Qed.

Lemma insert_in_range_moves h l cs pos v :
  chain h l cs → in_range h l pos → moves_ret h cs (insert l h pos v).
Proof.
  intros Hc [k Hk].
  destruct (position_split h l cs k pos Hc Hk) as (xs & ys & -> & _ & Hpos).
  by apply insert_moves.
Qed.

Lemma erase_in_range_moves h l cs pos :
  chain h l cs → in_range h l pos → moves_ret h cs (erase l h pos).
Proof.
  intros Hc [k Hk].
  destruct (position_split h l cs k pos Hc Hk) as (xs & ys & -> & _ & Hpos).
  by apply erase_moves.
Qed.

Lemma append_range_moves rg h l cs : chain h l cs → moves h cs (append_range l h rg).
Proof.
  revert h l cs. induction rg as [|x rg IH]; intros h l cs Hc.
  - by apply moves_Ok.
  - simpl. eapply moves_ret_bind; [by apply emplace_back_moves|].
    intros r l1 h1 cs1 Hc1. by apply IH.
Qed.

Lemma prepend_range_loop_moves rrg h l cs :
  chain h l cs → moves h cs (prepend_range_loop l h rrg).
Proof.
  revert h l cs. induction rrg as [|x rrg IH]; intros h l cs Hc.
  - by apply moves_Ok.
  - simpl. eapply moves_ret_bind; [by apply emplace_front_moves|].
    intros r l1 h1 cs1 Hc1. by apply IH.
Qed.

Lemma push_back_all_moves elems h l cs :
  chain h l cs → moves h cs (push_back_all l h elems).
Proof.
  revert h l cs. induction elems as [|x elems IH]; intros h l cs Hc.
  - by apply moves_Ok.
  - simpl. eapply moves_bind; [by apply push_back_moves|].
    intros l1 h1 cs1 Hc1. by apply IH.
Qed.

Lemma resize_shrink_moves fuel h l cs count :
  chain h l cs → moves h cs (resize_shrink fuel l h count).
Proof.
  revert h l cs. induction fuel as [|fuel IH]; intros h l cs Hc; simpl.
  - case_bool_decide; [by intros ???|by apply moves_Ok].
  - case_bool_decide; [|by apply moves_Ok].
    eapply moves_bind; [by apply pop_back_moves|].
    intros l1 h1 cs1 Hc1. by apply IH.
Qed.

Lemma resize_grow_moves fuel h l cs count v :
  chain h l cs → moves h cs (resize_grow fuel l h count v).
Proof.
  revert h l cs. induction fuel as [|fuel IH]; intros h l cs Hc; simpl.
  - case_bool_decide; [by intros ???|by apply moves_Ok].
  - case_bool_decide; [|by apply moves_Ok].
    eapply moves_ret_bind; [by apply emplace_back_moves|].
    intros r l1 h1 cs1 Hc1. by apply IH.
Qed.

Lemma resize_moves fuel h l cs count v :
  chain h l cs → moves h cs (resize fuel l h count v).
Proof.
  intros Hc. unfold resize. repeat case_bool_decide.
  - by apply resize_shrink_moves.
  - by apply resize_grow_moves.
  - by apply moves_Ok.
Qed.

Lemma assign_range_moves fuel h l cs elems :
  chain h l cs → moves h cs (assign_range fuel l h elems).
Proof.
  intros Hc. unfold assign_range. eapply moves_bind; [by apply clear_moves|].
  intros l1 h1 cs1 Hc1. by apply push_back_all_moves.
Qed.

Lemma erase_range_moves fuel h l xs mid ys first last :
  chain h l (xs ++ mid ++ ys) →
  node_ptr first = first_of (mid ++ ys) None → node_ptr last = first_of ys None →
  moves_ret h (xs ++ mid ++ ys) (erase_range fuel l h first last).
Proof.
  revert fuel h l first. induction mid as [|[c vc] mid IH]; intros fuel h l first Hc Hf Hl.
  - assert (first = last) as -> by (destruct first, last; simpl in *; congruence).
    destruct fuel; simpl; rewrite bool_decide_eq_true_2 by done; by apply moves_ret_Ok.
  - intros r l' h' Heq. destruct fuel as [|fuel]; simpl in Heq.
    + case_bool_decide; [|done]. injection Heq as <- <- <-.
      exists (xs ++ ((c, vc) :: mid) ++ ys). split; [done|apply moved_refl].
    + case_bool_decide as Hfl.
      * injection Heq as <- <- <-.
        exists (xs ++ ((c, vc) :: mid) ++ ys). split; [done|apply moved_refl].
      * apply bind_Ok in Heq as ([[it l1] h1] & E1 & E2).
        destruct (erase_moved h l xs c vc (mid ++ ys) first it l1 h1 Hc Hf E1)
          as (-> & Hc1 & _ & Hm1 & _).
        destruct (IH fuel h1 l1 (mk_iterator (first_of (mid ++ ys) None)) Hc1 eq_refl Hl
                    _ _ _ E2) as (cs' & Hc' & Hm').
        exists cs'. split; [done|by eapply moved_trans].
Qed.

Lemma erase_range_in_range_moves fuel h l cs first last :
  chain h l cs → in_range h l first → (∃ k, advance h k first = Ok last) →
  moves_ret h cs (erase_range fuel l h first last).
Proof.
  intros Hc [k Hk] [j Hj].
  destruct (position_split h l cs k first Hc Hk) as (xs & rest & -> & _ & Hfirst).
  pose proof Hc as (Hs & _). apply seg_app in Hs as [_ Hrest].
  destruct first as [p]. simpl in Hfirst. subst p.
  pose proof (advance_seg_inv _ _ _ _ _ Hrest Hj) as Hle.
  rewrite (advance_seg _ _ _ _ Hrest Hle) in Hj. injection Hj as <-.
  pose proof Hc as Hc'. rewrite <- (take_drop j rest) in Hc'.
  pose proof (erase_range_moves fuel h l xs (take j rest) (drop j rest)
                (mk_iterator (first_of rest None))
                (mk_iterator (first_of (drop j rest) None)) Hc') as Hm.
  rewrite take_drop in Hm. by apply Hm.
Qed.

(** ** Every node belongs to a list *)

Lemma owned_update w css this cs (L : list List) h' cs' :
  owned w css → css !! this = Some cs → moved (heap w) cs h' cs' →
  owned (mkWorld L h') (<[this := cs']> css).
Proof.
  intros Ho Hcs [_ Hset] a Ha. simpl in Ha.
  pose proof (lookup_lt_Some _ _ _ Hcs) as Hlt.
  destruct (decide (a ∈ cs'.*1)) as [Hin|Hnin].
  - exists this, cs'. split; [by list_lookup|done].
  - rewrite (Hset a Hnin) in Ha.
    destruct (decide (a ∈ cs.*1)) as [|Hncs]; [by destruct Ha|].
    destruct (Ho a Ha) as (i & ci & Hci & Hai).
    assert (i ≠ this) by (intros ->; congruence).
    exists i, ci. split; [by list_lookup|done].
Qed.

Lemma own_call f w css this l cs w' :
  winv w css → owned w css → lists w !! this = Some l → css !! this = Some cs →
  moves (heap w) cs (f l (heap w)) → call f this w = Ok w' → world_inv w' →
  ∃ cs', winv w' (<[this := cs']> css) ∧ owned w' (<[this := cs']> css).
Proof.
  intros Hw Ho Hl Hcs Hm Hcall [css' Hw'].
  unfold call, get_list in Hcall. rewrite Hl in Hcall. simpl in Hcall.
  apply bind_Ok in Hcall as ([l' h'] & Hf & [= <-]).
  destruct (Hm _ _ Hf) as (cs' & Hc' & Hmv).
  pose proof (lookup_lt_Some _ _ _ Hl) as Hlt.
  destruct (winv_chain _ css' this l' Hw') as (cs'' & _ & HR'); [simpl; by list_lookup|].
  simpl in HR'. rewrite (chain_unique _ _ _ _ (proj1 HR') Hc') in HR'.
  exists cs'. split.
  - eapply winv_update; [done..|apply Hmv].
  - by eapply owned_update.
Qed.

Lemma own_call_ret {A} (f : List → gmap addr Node → result (A * List * gmap addr Node))
    w css this l cs w' :
  winv w css → owned w css → lists w !! this = Some l → css !! this = Some cs →
  moves_ret (heap w) cs (f l (heap w)) → call_ret f this w = Ok w' → world_inv w' →
  ∃ cs', winv w' (<[this := cs']> css) ∧ owned w' (<[this := cs']> css).
Proof.
  intros Hw Ho Hl Hcs Hm Hcall [css' Hw'].
  unfold call_ret, get_list in Hcall. rewrite Hl in Hcall. simpl in Hcall.
  apply bind_Ok in Hcall as ([[r l'] h'] & Hf & [= <-]).
  destruct (Hm _ _ _ Hf) as (cs' & Hc' & Hmv).
  pose proof (lookup_lt_Some _ _ _ Hl) as Hlt.
  destruct (winv_chain _ css' this l' Hw') as (cs'' & _ & HR'); [simpl; by list_lookup|].
  simpl in HR'. rewrite (chain_unique _ _ _ _ (proj1 HR') Hc') in HR'.
  exists cs'. split.
  - eapply winv_update; [done..|apply Hmv].
  - by eapply owned_update.
Qed.

Lemma owned_construct w css : owned w css → owned (construct w) (css ++ [[]]).
Proof.
  intros Ho a Ha. destruct (Ho a Ha) as (i & ci & Hci & Hai).
  exists i, ci. split; [|done]. by apply lookup_app_l_Some.
Qed.

Lemma owned_exchange w css this other (L : list List) ca cb :
  owned w css → css !! this = Some ca → css !! other = Some cb →
  owned (mkWorld L (heap w)) (<[other := ca]> (<[this := cb]> css)).
Proof.
  intros Ho Hca Hcb a Ha. destruct (Ho a Ha) as (i & ci & Hci & Hai).
  exists (exchange this other i), ci. split; [|done].
  rewrite (lookup_exchange _ this other ca cb) by done.
  unfold exchange. repeat case_decide; congruence.
Qed.

Lemma copy_loop_owned fuel this other rest w css l cs done_ :
  winv w css → owned w css → this ≠ other →
  lists w !! this = Some l → css !! this = Some cs →
  css !! other = Some (done_ ++ rest) →
  length rest ≤ fuel → (Z.of_nat (length cs + length rest) ≤ SIZE_MAX)%Z →
  ∃ w' news, copy_loop fuel this (first_of rest None) w = Ok w' ∧
    winv w' (<[this := cs ++ news]> css) ∧ owned w' (<[this := cs ++ news]> css).
Proof.
  revert fuel w css l cs done_.
  induction rest as [|[c vc] rest IH];
    intros fuel w css l cs done_ Hw Ho Hne Hl Hcs Hother Hfuel Hroom.
  - exists w, []. rewrite app_nil_r, list_insert_id by done.
    split; [by destruct fuel|done].
  - destruct fuel as [|fuel]; simpl in Hfuel; [lia|].
    pose proof (lookup_lt_Some _ _ _ Hl). pose proof (lookup_lt_Some _ _ _ Hcs).
    destruct (winv_lookup w css other _ Hw Hother) as (lo & Hlo & HRo).
    pose proof Hw as (_ & HR & _). pose proof (HR this l cs Hl Hcs) as HRl.
    simpl. rewrite (Rep_lookup _ _ _ _ _ _ HRo). simpl.
    destruct (push_back_spec (heap w) l cs vc (proj1 HRl))
      as (l1 & h1 & Hpush & Hc1 & Hsz1 & Hfr1).
    destruct (push_back_moved _ _ _ _ _ _ (proj1 HRl) Hpush) as (_ & _ & Hmv1).
    assert (Rep h1 l1 (cs ++ [(alloc (heap w), vc)])) as HR1.
    { apply (Rep_grow (heap w) l cs h1 l1 _ 1); try done.
      - by rewrite length_app.
      - simpl in Hroom. lia. }
    destruct (call_spec (λ l h, push_back l h vc) w css this l cs l1 h1 _
                Hw Hl Hcs Hpush HR1 Hfr1) as [-> Hw1].
    pose proof (owned_update w css this cs (<[this := l1]> (lists w)) h1 _ Ho Hcs Hmv1)
      as Ho1.
    simpl.
    destruct (winv_lookup _ _ other (done_ ++ (c, vc) :: rest) Hw1) as (lo1 & Hlo1 & HRo1).
    { by rewrite list_lookup_insert_ne by lia. }
    simpl in HRo1. rewrite (Rep_lookup _ _ _ _ _ _ HRo1). simpl.
    destruct (IH fuel _ _ l1 (cs ++ [(alloc (heap w), vc)]) (done_ ++ [(c, vc)]) Hw1 Ho1 Hne)
      as (w' & news & -> & Hw' & Ho').
    { simpl. by list_lookup. }
    { by list_lookup. }
    { rewrite list_lookup_insert_ne by lia. by rewrite <- app_assoc. }
    { lia. }
    { rewrite length_app. simpl in *. lia. }
    exists w', ((alloc (heap w), vc) :: news).
    rewrite list_insert_insert_eq, <- app_assoc in Hw'. simpl in Hw'.
    rewrite list_insert_insert_eq, <- app_assoc in Ho'. simpl in Ho'.
    done.
Qed.

Lemma copy_assign_owned fuel this other w css a b ca cb :
  winv w css → owned w css → this ≠ other →
  lists w !! this = Some a → lists w !! other = Some b →
  css !! this = Some ca → css !! other = Some cb →
  length ca ≤ fuel → length cb ≤ fuel →
  ∃ w' news, copy_assign fuel this other w = Ok w' ∧
    winv w' (<[this := news]> css) ∧ owned w' (<[this := news]> css).
Proof.
  intros Hw Ho Hne Ha Hb Hca Hcb Hfa Hfb. pose proof Hw as (Hlen & HR & Hdisj).
  pose proof (lookup_lt_Some _ _ _ Ha). pose proof (lookup_lt_Some _ _ _ Hca).
  destruct (HR this a ca Ha Hca) as (Hc & _).
  destruct (HR other b cb Hb Hcb) as ((_ & _ & Hhb & _) & Hszb & Hmaxb).
  destruct (clear_spec fuel (heap w) a ca Hc Hfa) as (h1 & Hclear & Hc1 & Hfr & _).
  destruct (clear_moves fuel _ _ _ Hc _ _ Hclear) as (cs1 & Hc1' & Hmv).
  rewrite (chain_unique _ _ _ _ Hc1' Hc1) in Hmv.
  destruct (call_spec (clear fuel) w css this a ca List_new h1 []
              Hw Ha Hca Hclear (Rep_nil h1) Hfr) as [Hcall Hw1].
  pose proof (owned_update w css this ca (<[this := List_new]> (lists w)) h1 _ Ho Hca Hmv)
    as Ho1.
  unfold copy_assign. rewrite bool_decide_eq_true_2 by done.
  rewrite Hcall. simpl. unfold get_list. simpl.
  rewrite list_lookup_insert_ne, Hb by lia. simpl. rewrite Hhb.
  destruct (copy_loop_owned fuel this other cb _ _ List_new [] [] Hw1 Ho1 Hne)
    as (w' & news & -> & Hw' & Ho').
  { simpl. by list_lookup. }
  { by list_lookup. }
  { by rewrite list_lookup_insert_ne by lia. }
  { done. }
  { simpl. lia. }
  exists w', news. rewrite list_insert_insert_eq in Hw', Ho'. done.
Qed.

Lemma move_assign_owned fuel this other w css a b ca cb :
  winv w css → owned w css → this ≠ other →
  lists w !! this = Some a → lists w !! other = Some b →
  css !! this = Some ca → css !! other = Some cb → length ca ≤ fuel →
  ∃ w', move_assign fuel this other w = Ok w' ∧
    winv w' (<[other := []]> (<[this := cb]> css)) ∧
    owned w' (<[other := []]> (<[this := cb]> css)).
Proof.
  intros Hw Ho Hne Ha Hb Hca Hcb Hfuel. pose proof Hw as (Hlen & HR & Hdisj).
  pose proof (lookup_lt_Some _ _ _ Ha). pose proof (lookup_lt_Some _ _ _ Hb).
  pose proof (lookup_lt_Some _ _ _ Hca). pose proof (lookup_lt_Some _ _ _ Hcb).
  destruct (HR this a ca Ha Hca) as (Hc & _).
  destruct (clear_spec fuel (heap w) a ca Hc Hfuel) as (h1 & Hclear & Hc1 & Hfr & _).
  destruct (clear_moves fuel _ _ _ Hc _ _ Hclear) as (cs1 & Hc1' & Hmv).
  rewrite (chain_unique _ _ _ _ Hc1' Hc1) in Hmv.
  rewrite (move_assign_eq fuel this other w a b h1 Hne Ha Hb Hclear).
  eexists. split; [done|]. split.
  - pose proof (winv_update w css this ca List_new h1 [] Hw Hca (Rep_nil h1) Hfr) as Hw1.
    pose proof (winv_exchange _ _ this other List_new b [] cb Hw1) as Hw2.
    simpl in Hw2. rewrite !list_insert_insert_eq in Hw2. apply Hw2; by list_lookup.
  - pose proof (owned_update w css this ca (<[this := List_new]> (lists w)) h1 _ Ho Hca Hmv)
      as Ho1.
    pose proof (owned_exchange _ _ this other
                  (<[other := List_new]> (<[this := b]> (lists w))) [] cb Ho1) as Ho2.
    simpl in Ho2. rewrite !list_insert_insert_eq in Ho2. apply Ho2; by list_lookup.
Qed.

Ltac tracked_call lem :=
  match goal with
  | Hw : winv ?w ?css, Ho : owned ?w ?css, Hl : lists ?w !! ?this = Some ?l,
    Hstep : _ = Ok ?w', Hw' : world_inv ?w' |- _ =>
      let cs := fresh "cs" in let Hcs := fresh "Hcs" in let HR := fresh "HR" in
      let cs' := fresh "cs'" in let H1 := fresh "Hwn" in let H2 := fresh "Hon" in
      destruct (winv_chain _ _ _ _ Hw Hl) as (cs & Hcs & HR);
      pose proof (lookup_lt_Some _ _ _ Hcs);
      destruct (lem w css this l cs w' Hw Ho Hl Hcs) as (cs' & H1 & H2);
      [|exact Hstep|exact Hw'|
       exists (<[this := cs']> css); split_and!; [exact H1|exact H2|];
       intros j cj Hj Hcj; rewrite list_lookup_insert_ne; [done|];
       intros <-; apply Hj; simpl; apply elem_of_cons; by left]
  end.

Lemma step_tracked fuel w o w' css :
  winv w css → owned w css → legal_op w o → step fuel o w = Ok w' →
  ∃ css', tracked w' o css css'.
Proof.
  intros Hw Ho Hlegal Hstep.
  assert (world_inv w') as Hw' by (eapply step_preserves; [by exists css|done..]).
  destruct o; simpl in Hlegal, Hstep; unfold room, position in Hlegal.
  - (* Construct *)
    injection Hstep as <-. exists (css ++ [[]]).
    split_and!; [by apply winv_construct|by apply owned_construct|].
    intros j cj _ Hcj. by apply lookup_app_l_Some.
  - destruct Hlegal as (l & Hl & Hroom).
    tracked_call (own_call (λ l h, push_back l h value)).
    apply push_back_moves, HR.
  - destruct Hlegal as (l & Hl & Hroom).
    tracked_call (own_call (λ l h, push_front l h value)).
    apply push_front_moves, HR.
  - destruct Hlegal as (l & Hl & Hroom).
    tracked_call (@own_call_ret reference (λ l h, emplace_back l h args)).
    apply emplace_back_moves, HR.
  - destruct Hlegal as (l & Hl & Hroom).
    tracked_call (@own_call_ret reference (λ l h, emplace_front l h args)).
    apply emplace_front_moves, HR.
  - destruct Hlegal as ((l & Hl & Hroom) & (l0 & Hl0 & Hpos)). simplify_eq.
    tracked_call (@own_call_ret iterator (λ l h, insert l h pos value)).
    by apply insert_in_range_moves; [apply HR|].
  - destruct Hlegal as ((l & Hl & Hroom) & (l0 & Hl0 & Hpos)). simplify_eq.
    tracked_call (@own_call_ret iterator (λ l h, emplace l h pos args)).
    by apply insert_in_range_moves; [apply HR|].
  - destruct Hlegal as ((l & Hl & Hroom) & (l0 & Hl0 & Hpos)). simplify_eq.
    tracked_call (@own_call_ret iterator (λ l h, insert_count l h pos count value)).
    by apply insert_count_moves; [apply HR|].
  - destruct Hlegal as ((l & Hl & Hroom) & (l0 & Hl0 & Hpos)). simplify_eq.
    tracked_call (@own_call_ret iterator (λ l h, insert_range l h pos range)).
    by apply insert_range_moves; [apply HR|].
  - destruct Hlegal as ((l & Hl & Hroom) & (l0 & Hl0 & Hpos)). simplify_eq.
    tracked_call (@own_call_ret iterator (λ l h, insert_ilist l h pos ilist)).
    by apply insert_range_moves; [apply HR|].
  - destruct Hlegal as (l & Hl & Hpos).
    tracked_call (@own_call_ret iterator (λ l h, erase l h pos)).
    by apply erase_in_range_moves; [apply HR|].
  - destruct Hlegal as ((l & Hl & Hpos) & Hlast).
    match goal with
    | Hs : call_ret ?f _ _ = Ok _ |- _ => tracked_call (@own_call_ret iterator f)
    end.
    by apply erase_range_in_range_moves; [apply HR| |].
  - destruct Hlegal as (l & Hl).
    tracked_call (own_call pop_back). apply pop_back_moves, HR.
  - destruct Hlegal as (l & Hl).
    tracked_call (own_call pop_front). apply pop_front_moves, HR.
  - destruct Hlegal as ((l & Hl) & Hcount).
    tracked_call (own_call (λ l h, resize fuel l h count value_init)).
    apply resize_moves, HR.
  - destruct Hlegal as ((l & Hl) & Hcount).
    tracked_call (own_call (λ l h, resize fuel l h count value)).
    apply resize_moves, HR.
  - destruct Hlegal as (l & Hl).
    tracked_call (own_call (clear fuel)). apply clear_moves, HR.
  - (* swap *)
    destruct Hlegal as ((a & Ha) & (b & Hb)).
    rewrite (swap_eq this other w a b Ha Hb) in Hstep. injection Hstep as <-.
    destruct (winv_chain w css this a Hw Ha) as (ca & Hca & _).
    destruct (winv_chain w css other b Hw Hb) as (cb & Hcb & _).
    exists (<[other := ca]> (<[this := cb]> css)).
    split_and!; [by eapply winv_exchange|by apply owned_exchange|].
    intros j cj Hj Hcj. simpl in Hj.
    rewrite !list_lookup_insert_ne; [done|intros <-|intros <-];
      apply Hj; rewrite !elem_of_cons; auto.
  - (* move assignment *)
    destruct Hlegal as ((a & Ha) & (b & Hb)).
    destruct (winv_chain _ _ _ _ Hw Ha) as (ca & Hca & _).
    destruct (winv_chain _ _ _ _ Hw Hb) as (cb & Hcb & _).
    destruct (decide (this = other)) as [->|Hne].
    + rewrite move_assign_self in Hstep. injection Hstep as <-. by exists css.
    + apply (move_assign_mono _ (fuel + length ca)) in Hstep; [|lia].
      destruct (move_assign_owned (fuel + length ca) this other w css a b ca cb)
        as (w'' & E & ? & ?); try done; [lia|].
      rewrite E in Hstep. injection Hstep as <-.
      exists (<[other := []]> (<[this := cb]> css)). split_and!; [done..|].
      intros j cj Hj Hcj. simpl in Hj.
      rewrite !list_lookup_insert_ne; [done|intros <-|intros <-];
        apply Hj; rewrite !elem_of_cons; auto.
  - (* copy assignment *)
    destruct Hlegal as ((a & Ha) & (b & Hb)).
    destruct (winv_chain _ _ _ _ Hw Ha) as (ca & Hca & _).
    destruct (winv_chain _ _ _ _ Hw Hb) as (cb & Hcb & _).
    destruct (decide (this = other)) as [->|Hne].
    + rewrite copy_assign_self in Hstep. injection Hstep as <-. by exists css.
    + apply (copy_assign_mono _ (fuel + length ca + length cb)) in Hstep; [|lia].
      destruct (copy_assign_owned (fuel + length ca + length cb) this other w css a b ca cb)
        as (w'' & news & E & ? & ?); try done; try lia.
      rewrite E in Hstep. injection Hstep as <-.
      exists (<[this := news]> css). split_and!; [done..|].
      intros j cj Hj Hcj. simpl in Hj.
      rewrite list_lookup_insert_ne; [done|intros <-].
      apply Hj. rewrite elem_of_cons. auto.
  - destruct Hlegal as ((l & Hl) & Hlen).
    tracked_call (own_call (λ l h, assign_range fuel l h ilist)).
    apply assign_range_moves, HR.
  - destruct Hlegal as ((l & Hl) & Hlen).
    tracked_call (own_call (λ l h, assign_count fuel l h count value)).
    simpl. rewrite assign_count_range. apply assign_range_moves, HR.
  - destruct Hlegal as ((l & Hl) & Hlen).
    tracked_call (own_call (λ l h, assign_range fuel l h range)).
    apply assign_range_moves, HR.
  - destruct Hlegal as (l & Hl & Hroom).
    tracked_call (own_call (λ l h, append_range l h rg)).
    apply append_range_moves, HR.
  - destruct Hlegal as (l & Hl & Hroom).
    tracked_call (own_call (λ l h, prepend_range l h rg)).
    apply prepend_range_loop_moves, HR.
Qed.

Lemma reachable_ownership w : reachable w → ownership w.
Proof.
  induction 1 as [|w o fuel w' _ (css & Hw & Ho) Hlegal Hstep].
  - exists []. split; [|by intros a [n Hn]; simpl in Hn; rewrite lookup_empty in Hn].
    split; [done|]. split.
    + intros i l cs Hl. simpl in Hl. by rewrite lookup_nil in Hl.
    + intros i j ci cj a _ Hci. by rewrite lookup_nil in Hci.
  - destruct (step_tracked fuel w o w' css Hw Ho Hlegal Hstep) as (css' & ? & ? & _).
    by exists css'.
Qed.

(** ** What the operations do, as their callers see it *)

Lemma chain_lookup h l xs c vc ys :
  chain h l (xs ++ (c, vc) :: ys) →
  h !! c = Some (mkNode vc (first_of ys None) (last_of None xs)).
Proof. intros (Hs & _). apply seg_app in Hs as [_ [Hc _]]. done. Qed.

Lemma chain_deref h l cs c vc :
  chain h l cs → (c, vc) ∈ cs → iterator_deref h (mk_iterator (Some c)) = Ok vc.
Proof.
  intros Hc (xs & ys & ->)%list_elem_of_split.
  unfold iterator_deref, load. simpl. by rewrite (chain_lookup _ _ _ _ _ _ Hc).
Qed.

Lemma chain_advance h l xs ys :
  chain h l (xs ++ ys) →
  advance h (length xs) (begin l) = Ok (mk_iterator (first_of ys None)).
Proof.
  intros (Hs & _ & Hh & _). unfold begin. rewrite Hh.
  rewrite (advance_seg _ _ _ _ Hs) by (rewrite length_app; lia).
  by rewrite drop_app_length.
Qed.

Lemma size_incr_small (s : Z) : (0 ≤ s < SIZE_MAX)%Z → size_incr s = (s + 1)%Z.
Proof. intros Hs. unfold size_incr, SIZE_MAX in *. apply Z.mod_small. lia. Qed.

Lemma size_decr_small (s : Z) : (0 < s ≤ SIZE_MAX)%Z → size_decr s = (s - 1)%Z.
Proof. intros Hs. unfold size_decr, SIZE_MAX in *. apply Z.mod_small. lia. Qed.

(** X1. [insert(pos, value)] on a list of fewer than [SIZE_MAX] elements,
    at a position of the list ([end()] included): the call succeeds, the
    value stands just before the element [pos] denotes, [getSize()] grows
    by one, the returned iterator denotes the new element (it dereferences
    to [value], [begin()] reaches it after as many increments as there are
    elements before [pos], and its increment is [pos]), and every iterator
    to an element the list already had still denotes that element. *)
Theorem insert_places_value h l xs ys pos v :
  Rep h l (xs ++ ys) → node_ptr pos = first_of ys None → (size l < SIZE_MAX)%Z →
  ∃ it l' h',
    insert l h pos v = Ok (it, l', h') ∧
    contents h' l' (xs.*2 ++ v :: ys.*2) ∧
    getSize l' = (getSize l + 1)%Z ∧
    iterator_deref h' it = Ok v ∧
    advance h' (length xs) (begin l') = Ok it ∧
    iterator_incr h' it = Ok pos ∧
    (∀ c vc, (c, vc) ∈ xs ++ ys →
       iterator_deref h' (mk_iterator (Some c)) = Ok vc).
Proof.
  intros (Hc & Hsz & Hmax) Hpos Hroom.
  destruct (insert_spec h l xs ys pos v Hc Hpos) as (l' & h' & Heq & Hc' & Hsz' & _).
  pose proof (chain_lookup _ _ _ _ _ _ Hc') as Hnew.
  exists (mk_iterator (Some (alloc h))), l', h'. split_and!.
  - done.
  - exists (xs ++ (alloc h, v) :: ys). split; [done|]. by rewrite fmap_app.
  - unfold getSize. rewrite Hsz'. apply size_incr_small. lia.
  - unfold iterator_deref, load. simpl. by rewrite Hnew.
  - by apply (chain_advance h' l' xs ((alloc h, v) :: ys)).
  - unfold iterator_incr, load. simpl. rewrite Hnew. simpl.
    rewrite <- Hpos. by destruct pos.
  - intros c vc Hin. apply (chain_deref h' l' _ c vc Hc').
    apply elem_of_app in Hin as [Hin|Hin]; apply elem_of_app; [by left|right].
    by apply elem_of_cons; right.
Qed.

(** X2. [erase(pos)] at an element of the list: the call succeeds, the
    element is gone and the others keep their order, [getSize()] drops by
    one, the returned iterator denotes the element that followed (or is
    [end()]), the node is freed, so that [pos] is no longer usable
    (dereferencing it or erasing it again is undefined), and the iterators
    to the other elements still denote them. *)
Theorem erase_removes_element h l xs c vc ys pos :
  Rep h l (xs ++ (c, vc) :: ys) → node_ptr pos = Some c →
  ∃ it l' h',
    erase l h pos = Ok (it, l', h') ∧
    contents h' l' (xs.*2 ++ ys.*2) ∧
    getSize l' = (getSize l - 1)%Z ∧
    node_ptr it = first_of ys None ∧
    advance h' (length xs) (begin l') = Ok it ∧
    h' !! c = None ∧
    iterator_deref h' pos = Undefined ∧
    erase l' h' pos = Undefined ∧
    (∀ c' vc', (c', vc') ∈ xs ++ ys →
       iterator_deref h' (mk_iterator (Some c')) = Ok vc').
Proof.
  intros (Hc & Hsz & Hmax) Hpos.
  destruct (erase_spec h l xs c vc ys pos Hc Hpos) as (l' & h' & Heq & Hc' & Hsz' & _ & Hfree).
  exists (mk_iterator (first_of ys None)), l', h'. split_and!.
  - done.
  - exists (xs ++ ys). split; [done|]. by rewrite fmap_app.
  - unfold getSize. rewrite Hsz'. apply size_decr_small.
    assert (0 < size l)%Z by (rewrite Hsz, length_app; simpl; lia). lia.
  - done.
  - by apply chain_advance.
  - done.
  - unfold iterator_deref, load. by rewrite Hpos, Hfree.
  - unfold erase, load. by rewrite Hpos, Hfree.
  - intros c' vc' Hin. by apply (chain_deref h' l' _ c' vc' Hc').
Qed.

(** X3. [erase(first, last)] on a range of the list: the call succeeds and
    returns [last], the elements of the range are gone and their nodes are
    freed, [getSize()] drops by the length of the range, the elements
    outside the range keep their order and their iterators, and the rest
    of the store is as it was. *)
Theorem erase_range_removes fuel h l xs mid ys first last :
  Rep h l (xs ++ mid ++ ys) →
  node_ptr first = first_of (mid ++ ys) None → node_ptr last = first_of ys None →
  length mid ≤ fuel →
  ∃ l' h',
    erase_range fuel l h first last = Ok (last, l', h') ∧
    contents h' l' (xs.*2 ++ ys.*2) ∧
    getSize l' = (getSize l - Z.of_nat (length mid))%Z ∧
    (∀ a, a ∈ mid.*1 → h' !! a = None) ∧
    (∀ c vc, (c, vc) ∈ xs ++ ys →
       iterator_deref h' (mk_iterator (Some c)) = Ok vc) ∧
    (∀ a, a ∉ (xs ++ mid ++ ys).*1 → h' !! a = h !! a).
Proof.
  intros (Hc & Hsz & Hmax) Hf Hl Hfuel.
  destruct (erase_range_spec fuel h l xs mid ys first last Hc Hf Hl Hfuel)
    as (l' & h' & Heq & Hc' & Hsz' & _).
  destruct (erase_range_moves fuel h l xs mid ys first last Hc Hf Hl _ _ _ Heq)
    as (cs' & Hc'' & _ & Hset).
  rewrite (chain_unique _ _ _ _ Hc'' Hc') in Hset.
  pose proof Hc as (_ & Hnd & _). rewrite !fmap_app in Hnd.
  apply NoDup_app in Hnd as (_ & Hxm & Hnd). apply NoDup_app in Hnd as (_ & Hmy & _).
  exists l', h'. split_and!.
  - done.
  - exists (xs ++ ys). split; [done|]. by rewrite fmap_app.
  - unfold getSize. rewrite Hsz'. apply iter_size_decr; [|done].
    rewrite Hsz, !length_app. lia.
  - intros a Ha. rewrite (Hset a).
    + rewrite decide_True; [done|]. rewrite !fmap_app, !elem_of_app. auto.
    + rewrite fmap_app, elem_of_app. intros [Hx|Hy].
      * apply (Hxm a Hx). apply elem_of_app. by left.
      * by apply (Hmy a).
  - intros c vc Hin. by apply (chain_deref h' l' _ c vc Hc').
  - intros a Ha. rewrite (Hset a).
    + by rewrite decide_False.
    + intros Hin. apply Ha. revert Hin. rewrite !fmap_app, !elem_of_app. tauto.
Qed.


(** X5. [clear()], and the destructor, which calls it: every node of the
    list is freed, so that dereferencing an iterator to one of its
    elements is undefined afterwards, and no other node is touched; the
    list is left empty, with [getSize() == 0], so that [front()] throws;
    clearing it again changes nothing. *)
Theorem clear_frees_all fuel h l cs :
  chain h l cs → length cs ≤ fuel →
  ∃ l' h',
    clear fuel l h = Ok (l', h') ∧
    List_destroy fuel l h = Ok (l', h') ∧
    contents h' l' [] ∧ empty l' = true ∧ getSize l' = 0%Z ∧
    front l' h' = Throw out_of_range ∧
    (∀ a, a ∈ cs.*1 → h' !! a = None) ∧
    (∀ a, a ∈ cs.*1 → iterator_deref h' (mk_iterator (Some a)) = Undefined) ∧
    (∀ a, a ∉ cs.*1 → h' !! a = h !! a) ∧
    clear fuel l' h' = Ok (l', h').
Proof.
  intros Hc Hfuel.
  destruct (clear_spec fuel h l cs Hc Hfuel) as (h' & Heq & Hc' & _ & Hfree).
  destruct (clear_moves fuel h l cs Hc _ _ Heq) as (cs' & Hc'' & _ & Hset).
  rewrite (chain_unique _ _ _ _ Hc'' Hc') in Hset.
  exists List_new, h'. split_and!; try done.
  - by exists [].
  - intros a Ha. unfold iterator_deref, load. simpl. by rewrite (Hfree a Ha).
  - intros a Ha. rewrite (Hset a); [by rewrite decide_False|]. by intros ?%elem_of_nil.
  - by destruct fuel.
Qed.

(** X6. What [insert(pos, first, last)] and [insert(pos, ilist)] do: the
    call succeeds and puts the source elements before [pos] in the
    reverse of their source order; [getSize()] grows by their number; the
    returned iterator is at the place [pos] had, where the last source
    element now stands; with an empty source nothing changes and [pos]
    is returned. *)
Theorem insert_range_reversed h l xs ys pos range :
  Rep h l (xs ++ ys) → node_ptr pos = first_of ys None →
  (size l + Z.of_nat (length range) ≤ SIZE_MAX)%Z →
  ∃ it l' h',
    insert_range l h pos range = Ok (it, l', h') ∧
    insert_ilist l h pos range = Ok (it, l', h') ∧
    contents h' l' (xs.*2 ++ reverse range ++ ys.*2) ∧
    getSize l' = (getSize l + Z.of_nat (length range))%Z ∧
    advance h' (length xs) (begin l') = Ok it ∧
    (∀ x, last range = Some x → iterator_deref h' it = Ok x) ∧
    (range = [] → it = pos ∧ l' = l ∧ h' = h).
Proof.
  intros (Hc & Hsz & Hmax) Hpos Hroom.
  destruct (insert_range_loop_spec range h l xs ys pos Hc Hpos)
    as (l' & h' & news & Heq & Hc' & Hvs & Hsz' & _).
  exists (mk_iterator (first_of (news ++ ys) None)), l', h'. split_and!.
  - done.
  - done.
  - exists (xs ++ news ++ ys). split; [done|]. by rewrite !fmap_app, Hvs.
  - unfold getSize. rewrite Hsz'. apply iter_size_incr; [lia|done].
  - by apply (chain_advance h' l' xs (news ++ ys)).
  - intros x Hx. apply last_Some in Hx as [range' ->].
    rewrite reverse_snoc in Hvs. destruct news as [|[a va] news]; [done|].
    injection Hvs as -> _. simpl.
    apply (chain_deref h' l' _ a x Hc'). rewrite !elem_of_app, elem_of_cons. auto.
  - intros ->. simpl in Heq. injection Heq as Hit <- <-. split; [|done].
    rewrite <- Hit. by destruct pos.
Qed.

(** X7. [resize(count)] and [resize(count, value)]: the call succeeds and
    leaves the first [count] elements, followed, when the list was
    shorter, by copies of [value] up to [count] elements; [getSize()] is
    [count]; the elements that stay keep their iterators; a [count] equal
    to the size changes nothing. *)
Theorem resize_contents fuel h l cs count v :
  Rep h l cs → (0 ≤ count ≤ SIZE_MAX)%Z →
  (Z.abs (count - getSize l) ≤ Z.of_nat fuel)%Z →
  ∃ l' h',
    resize fuel l h count v = Ok (l', h') ∧
    contents h' l'
      (take (Z.to_nat count) cs.*2 ++ replicate (Z.to_nat (count - getSize l)) v) ∧
    getSize l' = count ∧
    (∀ c vc, (c, vc) ∈ take (Z.to_nat count) cs →
       iterator_deref h' (mk_iterator (Some c)) = Ok vc) ∧
    (count = getSize l → l' = l ∧ h' = h).
Proof.
  intros HR Hcount Hfuel. pose proof HR as (Hc & Hsz & Hmax).
  unfold getSize in *. rewrite Hsz in Hfuel |- *.
  destruct (resize_spec fuel h l cs count v HR Hcount Hfuel)
    as (l' & h' & news & Heq & (Hc' & Hsz' & _) & Hvs & _).
  exists l', h'. split_and!.
  - done.
  - exists (take (Z.to_nat count) cs ++ news). split; [done|].
    by rewrite fmap_app, fmap_take, Hvs.
  - rewrite Hsz', length_app, length_take, <- (length_fmap snd news), Hvs, length_replicate.
    lia.
  - intros c vc Hin. apply (chain_deref h' l' _ c vc Hc'). apply elem_of_app. by left.
  - intros ->. unfold resize in Heq. rewrite Hsz in Heq.
    rewrite !bool_decide_eq_false_2 in Heq by lia. by injection Heq as <- <-.
Qed.

Lemma front_chain h l c vc cs : chain h l ((c, vc) :: cs) → front l h = Ok c.
Proof.
  intros Hc. pose proof (chain_lookup h l [] c vc cs Hc) as Hn.
  destruct Hc as (_ & _ & Hh & _). unfold front, load. rewrite Hh. simpl. by rewrite Hn.
Qed.

Lemma back_chain h l cs c vc : chain h l (cs ++ [(c, vc)]) → back l h = Ok c.
Proof.
  intros Hc. pose proof (chain_lookup h l cs c vc [] Hc) as Hn.
  destruct Hc as (_ & _ & _ & Ht). unfold back, load. rewrite Ht, last_of_snoc.
  simpl. by rewrite Hn.
Qed.

Lemma read_chain h l cs c vc : chain h l cs → (c, vc) ∈ cs → read h c = Ok vc.
Proof. intros Hc Hin. exact (chain_deref h l cs c vc Hc Hin). Qed.

Lemma size_decr_incr (s : Z) : (0 ≤ s ≤ SIZE_MAX)%Z → size_decr (size_incr s) = s.
Proof.
  intros Hs. unfold size_decr, size_incr, SIZE_MAX in *.
  destruct (decide (s = 2 ^ 64 - 1)%Z) as [->|Hne]; [done|].
  rewrite (Z.mod_small (s + 1)) by lia. rewrite Z.mod_small by lia. lia.
Qed.

(** Two runs from one state that leave the same chain and the same [size]
    leave the same state. *)
Lemma same_state h cs h1 l1 h2 l2 cs' :
  chain h1 l1 cs' → chain h2 l2 cs' → size l2 = size l1 →
  moved h cs h1 cs' → moved h cs h2 cs' → l2 = l1 ∧ h2 = h1.
Proof.
  intros Hc1 Hc2 Hsz [_ Hs1] [_ Hs2]. apply (state_determined h1 l1 h2 l2 cs'); try done.
  intros a Ha. by rewrite (Hs1 a Ha), (Hs2 a Ha).
Qed.

(** X8. [swap(other)] exchanges the two lists and touches no node: each
    list has the fields, and so the elements and the iterators, that the
    other had; the other lists and the store are as they were; it does
    not matter which of the two lists the call is made on, and a second
    [swap] restores the state. *)
Theorem swap_exchanges this other w a b :
  lists w !! this = Some a → lists w !! other = Some b →
  ∃ w',
    swap this other w = Ok w' ∧
    lists w' !! this = Some b ∧ lists w' !! other = Some a ∧
    (∀ i, i ≠ this → i ≠ other → lists w' !! i = lists w !! i) ∧
    heap w' = heap w ∧
    swap other this w = Ok w' ∧
    swap this other w' = Ok w.
Proof.
  intros Ha Hb. rewrite (swap_eq this other w a b Ha Hb).
  assert (lists (mkWorld (<[other := a]> (<[this := b]> (lists w))) (heap w)) !! this
          = Some b) as Ha'.
  { simpl. rewrite (lookup_exchange _ this other) by done. unfold exchange.
    repeat case_decide; congruence. }
  assert (lists (mkWorld (<[other := a]> (<[this := b]> (lists w))) (heap w)) !! other
          = Some a) as Hb'.
  { simpl. rewrite (lookup_exchange _ this other) by done. unfold exchange.
    repeat case_decide; congruence. }
  eexists. split; [done|]. split_and!; try done.
  - intros i Hi Ho. simpl. rewrite (lookup_exchange _ this other) by done.
    unfold exchange. by repeat case_decide.
  - rewrite (swap_eq other this w b a Hb Ha). f_equal. f_equal.
    apply list_eq. intros i.
    rewrite (lookup_exchange _ other this b a), (lookup_exchange _ this other a b) by done.
    unfold exchange. repeat case_decide; congruence.
  - rewrite (swap_eq this other _ b a Ha' Hb'). simpl. destruct w as [L H]. simpl in *.
    f_equal. f_equal. apply list_eq. intros i.
    rewrite (lookup_exchange _ this other b a) by done.
    rewrite (lookup_exchange _ this other a b) by done.
    unfold exchange. repeat case_decide; congruence.
Qed.

(** X9. Copy assignment [this = other] between two lists: the call
    succeeds; [this] then holds the elements of [other], in the same
    order and number, in nodes of its own, none of which is a node of
    [other]; [other] has the fields and the elements it had.  Assigning
    a list to itself changes nothing. *)
Theorem copy_assign_copies fuel this other w a b :
  world_inv w → this ≠ other →
  lists w !! this = Some a → lists w !! other = Some b →
  (getSize a ≤ Z.of_nat fuel)%Z → (getSize b ≤ Z.of_nat fuel)%Z →
  ∃ w' a',
    copy_assign fuel this other w = Ok w' ∧
    lists w' !! this = Some a' ∧ lists w' !! other = Some b ∧
    getSize a' = getSize b ∧
    (∀ vs, contents (heap w) b vs →
       contents (heap w') a' vs ∧ contents (heap w') b vs) ∧
    (∀ ca cb, chain (heap w') a' ca → chain (heap w') b cb →
       ∀ x, x ∈ ca.*1 → x ∉ cb.*1) ∧
    world_inv w' ∧
    copy_assign fuel this this w = Ok w.
Proof.
  intros [css Hw] Hne Ha Hb Hfa Hfb.
  destruct (winv_chain _ _ _ _ Hw Ha) as (ca & Hca & HRa).
  destruct (winv_chain _ _ _ _ Hw Hb) as (cb & Hcb & HRb).
  unfold getSize in *. rewrite (Rep_size _ _ _ HRa) in Hfa. rewrite (Rep_size _ _ _ HRb) in Hfb.
  destruct (copy_assign_spec fuel this other w css a b ca cb)
    as (w' & news & Heq & Hw' & Hvs); try done; try lia.
  pose proof (lookup_lt_Some _ _ _ Hca) as Hlt. pose proof (lookup_lt_Some _ _ _ Hcb) as Hlt'.
  destruct (winv_lookup w' _ this news Hw') as (a' & Ha' & HRa'); [by list_lookup|].
  destruct (winv_lookup w' _ other cb Hw') as (b' & Hb' & HRb'); [by list_lookup|].
  assert (b' = b) as ->.
  { destruct HRb as ((_ & _ & Hh & Ht) & Hs & _), HRb' as ((_ & _ & Hh' & Ht') & Hs' & _).
    destruct b, b'; simpl in *. congruence. }
  exists w', a'. split_and!; try done.
  - rewrite (Rep_size _ _ _ HRa'), (Rep_size _ _ _ HRb).
    by rewrite <- (length_fmap snd news), Hvs, length_fmap.
  - intros vs (cb0 & Hc0 & <-).
    rewrite (chain_unique _ _ _ _ Hc0 (proj1 HRb)). split.
    + exists news. split; [apply HRa'|done].
    + exists cb. split; [apply HRb'|done].
  - intros ca0 cb0 Hca0 Hcb0.
    rewrite (chain_unique _ _ _ _ Hca0 (proj1 HRa')), (chain_unique _ _ _ _ Hcb0 (proj1 HRb')).
    destruct Hw' as (_ & _ & Hdisj). intros x. apply (Hdisj this other); [done| |].
    + by list_lookup.
    + by list_lookup.
  - by eexists.
  - apply copy_assign_self.
Qed.

(** X10. [assign(first, last)], [assign(ilist)] and [operator=(ilist)]:
    whatever the list held, the call succeeds and the list then holds
    exactly the source elements, in source order, with [getSize()] their
    number; nodes of other lists are not touched.  [assign(count, value)]
    is the same call on [count] copies of [value]. *)
Theorem assign_replaces fuel h l cs elems :
  chain h l cs → length cs ≤ fuel → (Z.of_nat (length elems) ≤ SIZE_MAX)%Z →
  ∃ l' h',
    assign_range fuel l h elems = Ok (l', h') ∧
    contents h' l' elems ∧
    getSize l' = Z.of_nat (length elems) ∧
    (∀ a, a ∉ cs.*1 → is_Some (h !! a) → h' !! a = h !! a) ∧
    (∀ count v, elems = replicate count v →
       assign_count fuel l h count v = Ok (l', h')).
Proof.
  intros Hc Hfuel Hlen.
  destruct (assign_range_spec fuel h l cs elems Hc Hfuel Hlen)
    as (l' & h' & news & Heq & HR' & Hvs & Hfr & _).
  exists l', h'. split_and!.
  - done.
  - exists news. split; [apply HR'|done].
  - unfold getSize. rewrite (Rep_size _ _ _ HR').
    by rewrite <- (length_fmap snd news), Hvs.
  - done.
  - intros count v ->. by rewrite assign_count_range.
Qed.

(** X11. [emplace_back] and [emplace_front] on a list of fewer than
    [SIZE_MAX] elements: the call succeeds and returns a reference to the
    new element, which is the one [back()] (resp. [front()]) then returns
    and which reads as the value given; the element is added at that end,
    [getSize()] grows by one, and the other end of a non-empty list is the
    node it was. *)
Theorem emplace_returns_reference h l cs v :
  Rep h l cs → (size l < SIZE_MAX)%Z →
  (∃ r l' h',
     emplace_back l h v = Ok (r, l', h') ∧
     back l' h' = Ok r ∧ read h' r = Ok v ∧
     contents h' l' (cs.*2 ++ [v]) ∧ getSize l' = (getSize l + 1)%Z ∧
     (cs ≠ [] → front l' h' = front l h)) ∧
  (∃ r l' h',
     emplace_front l h v = Ok (r, l', h') ∧
     front l' h' = Ok r ∧ read h' r = Ok v ∧
     contents h' l' (v :: cs.*2) ∧ getSize l' = (getSize l + 1)%Z ∧
     (cs ≠ [] → back l' h' = back l h)).
Proof.
  intros (Hc & Hsz & Hmax) Hroom. split.
  - destruct (emplace_back_spec h l cs v Hc) as (l' & h' & Heq & Hc' & Hsz' & _).
    exists (alloc h), l', h'. split_and!.
    + done.
    + by eapply back_chain.
    + apply (read_chain h' l' _ _ _ Hc'). apply elem_of_app. right. by apply list_elem_of_singleton.
    + exists (cs ++ [(alloc h, v)]). split; [done|]. by rewrite fmap_app.
    + unfold getSize. rewrite Hsz'. apply size_incr_small. lia.
    + intros Hne. destruct cs as [|[c vc] cs]; [done|].
      by rewrite (front_chain h l c vc cs Hc), (front_chain h' l' c vc _ Hc').
  - destruct (emplace_front_spec h l cs v Hc) as (l' & h' & Heq & Hc' & Hsz' & _).
    exists (alloc h), l', h'. split_and!.
    + done.
    + by eapply front_chain.
    + apply (read_chain h' l' _ _ _ Hc'). by apply elem_of_cons; left.
    + exists ((alloc h, v) :: cs). split; [done|]. done.
    + unfold getSize. rewrite Hsz'. apply size_incr_small. lia.
    + intros Hne. destruct cs as [|[c vc] cs _] using rev_ind; [done|].
      rewrite (back_chain h l cs c vc Hc).
      by rewrite (back_chain h' l' ((alloc h, v) :: cs) c vc Hc').
Qed.

(** X12. On a well-formed list [push_back(value)] and
    [emplace_back(value)] leave the same state, though one tests [head]
    and the other [tail] for emptiness; so do [push_front(value)] and
    [emplace_front(value)]. *)
Theorem push_same_as_emplace h l cs v :
  chain h l cs →
  (∃ r l' h',
     emplace_back l h v = Ok (r, l', h') ∧ push_back l h v = Ok (l', h')) ∧
  (∃ r l' h',
     emplace_front l h v = Ok (r, l', h') ∧ push_front l h v = Ok (l', h')).
Proof.
  intros Hc. split.
  - destruct (emplace_back_spec h l cs v Hc) as (l1 & h1 & E1 & _).
    destruct (push_back_spec h l cs v Hc) as (l2 & h2 & E2 & _).
    destruct (emplace_back_moved _ _ _ _ _ _ _ Hc E1) as (_ & Hc1 & Hs1 & Hm1).
    destruct (push_back_moved _ _ _ _ _ _ Hc E2) as (Hc2 & Hs2 & Hm2).
    destruct (same_state h cs h1 l1 h2 l2 _ Hc1 Hc2) as [-> ->]; try done; [congruence|].
    by exists (alloc h), l1, h1.
  - destruct (emplace_front_spec h l cs v Hc) as (l1 & h1 & E1 & _).
    destruct (push_front_spec h l cs v Hc) as (l2 & h2 & E2 & _).
    destruct (emplace_front_moved _ _ _ _ _ _ _ Hc E1) as (_ & Hc1 & Hs1 & Hm1).
    destruct (push_front_moved _ _ _ _ _ _ Hc E2) as (Hc2 & Hs2 & Hm2).
    destruct (same_state h cs h1 l1 h2 l2 _ Hc1 Hc2) as [-> ->]; try done; [congruence|].
    by exists (alloc h), l1, h1.
Qed.

(** X13. [insert(begin(), value)] leaves the state that
    [push_front(value)] leaves and returns the new [begin()];
    [insert(end(), value)] leaves the state that [push_back(value)] leaves
    and returns an iterator to the node at which [rbegin()] then stands. *)
Theorem insert_at_the_ends h l cs v :
  chain h l cs →
  (∃ it l' h',
     insert l h (begin l) v = Ok (it, l', h') ∧ push_front l h v = Ok (l', h') ∧
     it = begin l') ∧
  (∃ it l' h',
     insert l h (end_ l) v = Ok (it, l', h') ∧ push_back l h v = Ok (l', h') ∧
     node_ptr it = rnode_ptr (rbegin l')).
Proof.
  intros Hc. split.
  - assert (node_ptr (begin l) = first_of cs None) as Hpos by apply Hc.
    destruct (insert_spec h l [] cs (begin l) v Hc Hpos) as (l1 & h1 & E1 & _).
    destruct (push_front_spec h l cs v Hc) as (l2 & h2 & E2 & _).
    destruct (insert_moved h l [] cs _ _ _ _ _ Hc Hpos E1) as (_ & Hc1 & Hs1 & Hm1).
    destruct (push_front_moved _ _ _ _ _ _ Hc E2) as (Hc2 & Hs2 & Hm2).
    destruct (same_state h cs h1 l1 h2 l2 _ Hc1 Hc2) as [-> ->]; try done; [congruence|].
    eexists _, l1, h1. split_and!; [done..|].
    unfold begin. destruct Hc1 as (_ & _ & -> & _). done.
  - pose proof Hc as Hc0. rewrite <- (app_nil_r cs) in Hc0.
    destruct (insert_spec h l cs [] (end_ l) v Hc0 eq_refl) as (l1 & h1 & E1 & _).
    destruct (push_back_spec h l cs v Hc) as (l2 & h2 & E2 & _).
    destruct (insert_moved h l cs [] (end_ l) _ _ _ _ Hc0 eq_refl E1)
      as (_ & Hc1 & Hs1 & Hm1).
    destruct (push_back_moved _ _ _ _ _ _ Hc E2) as (Hc2 & Hs2 & Hm2).
    rewrite app_nil_r in Hm1.
    destruct (same_state h cs h1 l1 h2 l2 _ Hc1 Hc2) as [-> ->]; try done; [congruence|].
    eexists _, l1, h1. split_and!; [done..|].
    unfold rbegin. destruct Hc1 as (_ & _ & _ & ->). simpl. by rewrite last_of_snoc.
Qed.

(** X14. [push_back] followed by [pop_back], and [push_front] followed by
    [pop_front], restore the state exactly: the fields of the list
    ([getSize()] included, even when it wrapped) and the whole store. *)
Theorem push_then_pop_restores h l cs v :
  Rep h l cs →
  (∃ l1 h1, push_back l h v = Ok (l1, h1) ∧ pop_back l1 h1 = Ok (l, h)) ∧
  (∃ l1 h1, push_front l h v = Ok (l1, h1) ∧ pop_front l1 h1 = Ok (l, h)).
Proof.
  intros (Hc & Hsz & Hmax).
  assert (0 ≤ size l ≤ SIZE_MAX)%Z as Hrange by lia. split.
  - destruct (push_back_spec h l cs v Hc) as (l1 & h1 & E1 & _).
    destruct (push_back_moved _ _ _ _ _ _ Hc E1) as (Hc1 & Hs1 & Hm1).
    destruct (pop_back_spec h1 l1 cs _ _ Hc1) as (l2 & h2 & E2 & _).
    destruct (pop_back_moved _ _ _ _ _ _ _ Hc1 E2) as (Hc2 & Hs2 & Hm2 & _).
    destruct (same_state h cs h l h2 l2 cs Hc Hc2) as [-> ->].
    + by rewrite Hs2, Hs1, size_decr_incr.
    + apply moved_refl.
    + by eapply moved_trans.
    + by exists l1, h1.
  - destruct (push_front_spec h l cs v Hc) as (l1 & h1 & E1 & _).
    destruct (push_front_moved _ _ _ _ _ _ Hc E1) as (Hc1 & Hs1 & Hm1).
    destruct (pop_front_spec h1 l1 _ _ cs Hc1) as (l2 & h2 & E2 & _).
    destruct (pop_front_moved _ _ _ _ _ _ _ Hc1 E2) as (Hc2 & Hs2 & Hm2 & _).
    destruct (same_state h cs h l h2 l2 cs Hc Hc2) as [-> ->].
    + by rewrite Hs2, Hs1, size_decr_incr.
    + apply moved_refl.
    + by eapply moved_trans.
    + by exists l1, h1.
Qed.

(** X15. [erase] of the iterator that [insert(pos, value)] returned
    restores the state exactly, the fields of the list and the whole
    store, and returns [pos]. *)
Theorem insert_then_erase_restores h l xs ys pos v :
  Rep h l (xs ++ ys) → node_ptr pos = first_of ys None →
  ∃ it l1 h1,
    insert l h pos v = Ok (it, l1, h1) ∧ erase l1 h1 it = Ok (pos, l, h).
Proof.
  intros (Hc & Hsz & Hmax) Hpos.
  assert (0 ≤ size l ≤ SIZE_MAX)%Z as Hrange by lia.
  destruct (insert_spec h l xs ys pos v Hc Hpos) as (l1 & h1 & E1 & _).
  destruct (insert_moved _ _ _ _ _ _ _ _ _ Hc Hpos E1) as (_ & Hc1 & Hs1 & Hm1).
  destruct (erase_spec h1 l1 xs _ _ ys (mk_iterator (Some (alloc h))) Hc1 eq_refl)
    as (l2 & h2 & E2 & _).
  destruct (erase_moved _ _ _ _ _ _ (mk_iterator (Some (alloc h))) _ _ _ Hc1 eq_refl E2)
    as (_ & Hc2 & Hs2 & Hm2 & _).
  destruct (same_state h (xs ++ ys) h l h2 l2 (xs ++ ys) Hc Hc2) as [-> ->].
  - by rewrite Hs2, Hs1, size_decr_incr.
  - apply moved_refl.
  - by eapply moved_trans.
  - eexists _, l1, h1. split; [done|]. rewrite E2. rewrite <- Hpos. by destruct pos.
Qed.

(** X16. The iterator operators on two neighbouring elements [a], [b] of a
    list: [*] and [->] give the element; [++] on [a] gives [b] and [--]
    on [b] gives [a], so that each undoes the other; the postfix forms
    return the iterator as it was and move it the same way.  A reverse
    iterator moves the other way: [++] on [b] gives [a], [--] on [a]
    gives [b]. *)
Theorem iterator_steps h l xs a va b vb ys :
  chain h l (xs ++ (a, va) :: (b, vb) :: ys) →
  iterator_deref h (mk_iterator (Some a)) = Ok va ∧
  (r ← iterator_arrow h (mk_iterator (Some a)); read h r) = Ok va ∧
  iterator_incr h (mk_iterator (Some a)) = Ok (mk_iterator (Some b)) ∧
  iterator_decr h (mk_iterator (Some b)) = Ok (mk_iterator (Some a)) ∧
  iterator_post_incr h (mk_iterator (Some a))
  = Ok (mk_iterator (Some a), mk_iterator (Some b)) ∧
  iterator_post_decr h (mk_iterator (Some b))
  = Ok (mk_iterator (Some b), mk_iterator (Some a)) ∧
  reverse_iterator_deref h (mk_reverse_iterator (Some b)) = Ok vb ∧
  (r ← reverse_iterator_arrow h (mk_reverse_iterator (Some b)); read h r) = Ok vb ∧
  reverse_iterator_incr h (mk_reverse_iterator (Some b))
  = Ok (mk_reverse_iterator (Some a)) ∧
  reverse_iterator_decr h (mk_reverse_iterator (Some a))
  = Ok (mk_reverse_iterator (Some b)) ∧
  reverse_iterator_post_incr h (mk_reverse_iterator (Some b))
  = Ok (mk_reverse_iterator (Some b), mk_reverse_iterator (Some a)) ∧
  reverse_iterator_post_decr h (mk_reverse_iterator (Some a))
  = Ok (mk_reverse_iterator (Some a), mk_reverse_iterator (Some b)).
Proof.
  intros Hc. pose proof (chain_lookup _ _ _ _ _ _ Hc) as Ha.
  pose proof Hc as Hc'. rewrite cons_middle, app_assoc in Hc'.
  pose proof (chain_lookup _ _ _ _ _ _ Hc') as Hb.
  rewrite last_of_snoc in Hb. simpl in Ha, Hb.
  unfold iterator_deref, iterator_arrow, iterator_incr, iterator_decr,
    iterator_post_incr, iterator_post_decr, reverse_iterator_deref,
    reverse_iterator_arrow, reverse_iterator_incr, reverse_iterator_decr,
    reverse_iterator_post_incr, reverse_iterator_post_decr, read, load.
  simpl. rewrite Ha, Hb. simpl. rewrite Ha, Hb. done.
Qed.

(** X17. The ends of a list.  [begin()] reaches [end()] after as many
    increments as the list has elements; [++] on the last element gives
    [end()], and [rbegin()] stands on the last element; [--] on
    [begin()] gives the null iterator, which is [end()], and [++] on a
    reverse iterator at the first element gives [rend()].  [end()] and
    [rend()] hold no node: dereferencing or moving them, [--end()]
    included, is undefined.  On an empty list [begin()] is [end()] and
    [rbegin()] is [rend()]. *)
Theorem iterators_at_the_ends h l cs :
  chain h l cs →
  advance h (length cs) (begin l) = Ok (end_ l) ∧
  (∀ cs' c vc, cs = cs' ++ [(c, vc)] →
     iterator_incr h (mk_iterator (Some c)) = Ok (end_ l) ∧
     rbegin l = mk_reverse_iterator (Some c) ∧
     reverse_iterator_deref h (rbegin l) = Ok vc) ∧
  (∀ c vc cs', cs = (c, vc) :: cs' →
     begin l = mk_iterator (Some c) ∧
     iterator_deref h (begin l) = Ok vc ∧
     iterator_decr h (begin l) = Ok (end_ l) ∧
     reverse_iterator_incr h (mk_reverse_iterator (Some c)) = Ok (rend l)) ∧
  iterator_deref h (end_ l) = Undefined ∧
  iterator_incr h (end_ l) = Undefined ∧
  iterator_decr h (end_ l) = Undefined ∧
  reverse_iterator_deref h (rend l) = Undefined ∧
  reverse_iterator_incr h (rend l) = Undefined ∧
  reverse_iterator_decr h (rend l) = Undefined ∧
  (cs = [] → begin l = end_ l ∧ rbegin l = rend l).
Proof.
  intros Hc. split_and!; try done.
  - pose proof Hc as Hc'. rewrite <- (app_nil_r cs) in Hc'.
    by rewrite (chain_advance h l cs [] Hc').
  - intros cs' c vc ->. pose proof (chain_lookup _ _ _ _ _ _ Hc) as Hn.
    destruct Hc as (_ & _ & _ & Ht).
    unfold iterator_incr, reverse_iterator_deref, rbegin, load.
    rewrite Ht, last_of_snoc. simpl. by rewrite Hn.
  - intros c vc cs' ->. pose proof (chain_lookup h l [] c vc cs' Hc) as Hn.
    destruct Hc as (_ & _ & Hh & _).
    unfold iterator_deref, iterator_decr, reverse_iterator_incr, begin, load.
    rewrite Hh. simpl. by rewrite Hn.
  - intros ->. destruct Hc as (_ & _ & Hh & Ht). unfold begin, rbegin. by rewrite Hh, Ht.
Qed.

(** X18. In every state that a program reaches, the observers of a list
    agree: the forward traversal from [begin()] to [end()] yields
    [getSize()] elements, the traversal from [rbegin()] to [rend()]
    yields the same elements in the opposite order, [empty()] holds
    exactly when [getSize()] is [0], and [getSize()] is a [size_t]
    value. *)
Theorem observers_agree w l :
  reachable w → l ∈ lists w →
  ∃ vs,
    traverse (Z.to_nat (getSize l)) l (heap w) = Ok vs ∧
    rtraverse (Z.to_nat (getSize l)) l (heap w) = Ok (reverse vs) ∧
    Z.of_nat (length vs) = getSize l ∧
    (empty l = true ↔ getSize l = 0%Z) ∧
    (0 ≤ getSize l ≤ SIZE_MAX)%Z.
Proof.
  intros Hreach [i Hl]%list_elem_of_lookup.
  destruct (reachable_world_inv w Hreach) as [css Hw].
  destruct (winv_chain _ _ _ _ Hw Hl) as (cs & _ & Hc & Hsz & Hmax).
  unfold getSize. rewrite Hsz, Nat2Z.id. exists cs.*2. split_and!.
  - by apply traverse_chain.
  - by apply rtraverse_chain.
  - by rewrite length_fmap.
  - unfold empty, begin, end_. rewrite bool_decide_eq_true.
    destruct Hc as (_ & _ & Hh & _). rewrite Hh.
    destruct cs; simpl; (split; [done || lia|done || lia]).
  - lia.
  - by rewrite <- Hsz.
Qed.

(** X19. In every state that a program reaches, every node of the store
    is an element of exactly one list, at one place: some list reaches it
    from [begin()] by increments, and no other list and no other number
    of increments does.  No node is leaked and none is shared. *)
Theorem every_node_in_one_list w a :
  reachable w → is_Some (heap w !! a) →
  ∃ i l k,
    lists w !! i = Some l ∧
    advance (heap w) k (begin l) = Ok (mk_iterator (Some a)) ∧
    (∀ j l' k', lists w !! j = Some l' →
       advance (heap w) k' (begin l') = Ok (mk_iterator (Some a)) →
       j = i ∧ k' = k).
Proof.
  intros Hreach Ha.
  destruct (reachable_ownership w Hreach) as (css & Hw & Ho).
  destruct (Ho a Ha) as (i & ci & Hci & Hin).
  apply list_elem_of_fmap in Hin as ([a' va] & -> & Hin). simpl.
  apply list_elem_of_split in Hin as (xs & ys & ->).
  destruct (winv_lookup _ _ _ _ Hw Hci) as (l & Hl & Hc & _).
  exists i, l, (length xs). split_and!.
  - done.
  - by rewrite (chain_advance _ _ _ _ Hc).
  - intros j l' k' Hl' Hk'.
    destruct (winv_chain _ _ _ _ Hw Hl') as (cj & Hcj & Hc' & _).
    destruct (position_split _ _ _ _ _ Hc' Hk') as (xs' & ys' & -> & Hlen & Hpos).
    destruct ys' as [|[a'' va'] ys']; simpl in Hpos; [done|]. injection Hpos as <-.
    assert (j = i) as ->.
    { destruct (decide (j = i)) as [|Hne]; [done|].
      destruct Hw as (_ & _ & Hdisj).
      destruct (Hdisj j i _ _ a' Hne Hcj Hci); rewrite fmap_app, elem_of_app; right;
        by apply elem_of_cons; left. }
    split; [done|]. rewrite Hci in Hcj. injection Hcj as H. subst k'.
    destruct Hc as (_ & Hnd & _).
    apply (NoDup_lookup _ _ _ a' Hnd).
    + rewrite H, fmap_app. rewrite <- (length_fmap fst xs'). by apply list_lookup_middle.
    + rewrite fmap_app. rewrite <- (length_fmap fst xs). by apply list_lookup_middle.
Qed.

Lemma chains_bounded css : ∃ n, ∀ i cs, css !! i = Some cs → length cs ≤ n.
Proof.
  induction css as [|c css [n IH]].
  - exists 0. intros i cs Hi. by rewrite lookup_nil in Hi.
  - exists (length c `max` n). intros [|i] cs Hi; simpl in Hi.
    + injection Hi as <-. lia.
    + pose proof (IH i cs Hi). lia.
Qed.

Lemma destroy_all_spec fuel n w css :
  winv w css → owned w css → n ≤ length css →
  (∀ i cs, n ≤ i → css !! i = Some cs → cs = []) →
  (∀ i cs, css !! i = Some cs → length cs ≤ fuel) →
  ∃ w', destroy_all fuel n w = Ok w' ∧ heap w' = ∅ ∧ length (lists w') = length (lists w).
Proof.
  revert w css. induction n as [|n IH]; intros w css Hw Ho Hn Hempty Hfuel.
  - exists w. split_and!; [done| |done]. apply map_empty. intros a.
    destruct (heap w !! a) as [x|] eqn:E; [|done].
    destruct (Ho a) as (i & cs & Hcs & Hin); [by rewrite E|].
    rewrite (Hempty i cs) in Hin by (done || lia). by apply elem_of_nil in Hin.
  - destruct (lookup_lt_is_Some_2 css n) as [cs Hcs]; [lia|].
    destruct (winv_lookup _ _ _ _ Hw Hcs) as (l & Hl & HR).
    destruct (clear_spec fuel (heap w) l cs (proj1 HR)) as (h1 & Hclear & Hc1 & Hfr & _).
    { by eapply Hfuel. }
    destruct (clear_moves fuel _ _ _ (proj1 HR) _ _ Hclear) as (cs1 & Hc1' & Hmv).
    rewrite (chain_unique _ _ _ _ Hc1' Hc1) in Hmv.
    destruct (call_spec (List_destroy fuel) w css n l cs List_new h1 []
                Hw Hl Hcs Hclear (Rep_nil h1) Hfr) as [Hcall Hw1].
    pose proof (owned_update w css n cs (<[n := List_new]> (lists w)) h1 _ Ho Hcs Hmv) as Ho1.
    simpl. rewrite Hcall. simpl.
    destruct (IH _ _ Hw1 Ho1) as (w' & Heq & Hheap & Hlen).
    + rewrite length_insert. lia.
    + intros i ci Hi Hci. destruct (decide (i = n)) as [->|Hne].
      * rewrite list_lookup_insert_eq in Hci by lia. by injection Hci as <-.
      * rewrite list_lookup_insert_ne in Hci by lia. apply (Hempty i); [lia|done].
    + intros i ci Hci. destruct (decide (i = n)) as [->|Hne].
      * rewrite list_lookup_insert_eq in Hci by lia. injection Hci as <-. simpl. lia.
      * rewrite list_lookup_insert_ne in Hci by lia. by eapply Hfuel.
    + exists w'. split_and!; [done..|]. rewrite Hlen. simpl. by rewrite length_insert.
Qed.

(** X20. When the lists of a state that a program reached go out of
    scope, their destructors, run in the reverse of the order of
    construction, complete and leave the store with no node at all. *)
Theorem destructors_free_every_node w :
  reachable w →
  ∃ fuel0, ∀ fuel, fuel0 ≤ fuel →
    ∃ w', destroy_all fuel (length (lists w)) w = Ok w' ∧ heap w' = ∅.
Proof.
  intros Hreach. destruct (reachable_ownership w Hreach) as (css & Hw & Ho).
  destruct (chains_bounded css) as [n Hn]. exists n. intros fuel Hfuel.
  destruct (destroy_all_spec fuel (length (lists w)) w css Hw Ho) as (w' & ? & ? & _).
  - destruct Hw as (-> & _). done.
  - intros i cs Hi Hcs. apply lookup_lt_Some in Hcs. destruct Hw as (Hlen & _). lia.
  - intros i cs Hcs. pose proof (Hn i cs Hcs). lia.
  - by exists w'.
Qed.

(** X21. Move assignment [this = std::move(other)] between two lists
    frees exactly the nodes that [this] had: they are gone from the
    store, and every other node, those of [other] included, is as it
    was.  [other] is left an empty list. *)
Theorem move_assign_releases fuel this other w a b ca :
  this ≠ other → lists w !! this = Some a → lists w !! other = Some b →
  chain (heap w) a ca → length ca ≤ fuel →
  ∃ w',
    move_assign fuel this other w = Ok w' ∧
    (∀ x, x ∈ ca.*1 → heap w' !! x = None) ∧
    (∀ x, x ∉ ca.*1 → heap w' !! x = heap w !! x) ∧
    lists w' !! this = Some b ∧
    lists w' !! other = Some List_new.
Proof.
  intros Hne Ha Hb Hc Hfuel.
  pose proof (lookup_lt_Some _ _ _ Ha). pose proof (lookup_lt_Some _ _ _ Hb).
  destruct (clear_spec fuel (heap w) a ca Hc Hfuel) as (h1 & Hclear & Hc1 & _ & Hfreed).
  destruct (clear_moves fuel _ _ _ Hc _ _ Hclear) as (cs1 & Hc1' & _ & Hset).
  rewrite (chain_unique _ _ _ _ Hc1' Hc1) in Hset.
  rewrite (move_assign_eq fuel this other w a b h1 Hne Ha Hb Hclear).
  eexists. split; [done|]. simpl. split_and!.
  - done.
  - intros x Hx. rewrite (Hset x); [by rewrite decide_False|]. by intros ?%elem_of_nil.
  - by list_lookup.
  - by list_lookup.
Qed.

Lemma Rep_fields h l h' l' cs : Rep h l cs → Rep h' l' cs → l' = l.
Proof.
  intros ((_ & _ & Hh & Ht) & Hs & _) ((_ & _ & Hh' & Ht') & Hs' & _).
  destruct l, l'; simpl in *. congruence.
Qed.

(** X22. An operation of a program leaves the lists it is not called on
    as they are ([other] of a copy assignment included): such a list has
    the fields it had, the same chain of nodes with the same elements,
    and every iterator that [begin()] reached still is reached after the
    same number of increments and still denotes the same element. *)
Theorem other_lists_untouched fuel w o w' j l :
  reachable w → legal_op w o → step fuel o w = Ok w' →
  lists w !! j = Some l → j ∉ written o →
  lists w' !! j = Some l ∧
  (∀ cs, chain (heap w) l cs → chain (heap w') l cs) ∧
  (∀ vs, contents (heap w) l vs → contents (heap w') l vs) ∧
  (∀ k it, advance (heap w) k (begin l) = Ok it →
     advance (heap w') k (begin l) = Ok it ∧
     iterator_deref (heap w') it = iterator_deref (heap w) it).
Proof.
  intros Hreach Hlegal Hstep Hl Hj.
  destruct (reachable_ownership w Hreach) as (css & Hw & Ho).
  destruct (winv_chain _ _ _ _ Hw Hl) as (cj & Hcj & HR).
  destruct (step_tracked fuel w o w' css Hw Ho Hlegal Hstep) as (css' & Hw' & _ & Hsame).
  destruct (winv_lookup _ _ _ _ Hw' (Hsame j cj Hj Hcj)) as (l' & Hl' & HR').
  assert (l' = l) as -> by exact (Rep_fields _ _ _ _ _ HR HR').
  assert (∀ cs, chain (heap w) l cs → chain (heap w') l cs) as Hchain.
  { intros cs Hc. rewrite (chain_unique _ _ _ _ Hc (proj1 HR)). apply HR'. }
  split_and!; try done.
  - intros vs (cs & Hc & <-). exists cs. split; [by apply Hchain|done].
  - intros k it Hk.
    destruct (position_split _ _ _ _ _ (proj1 HR) Hk) as (xs & ys & -> & <- & Hpos).
    destruct it as [p]. simpl in Hpos. subst p. split.
    + by apply chain_advance, HR'.
    + unfold iterator_deref, load. simpl. destruct ys as [|[c vc] ys]; [done|]. simpl.
      by rewrite (chain_lookup _ _ _ _ _ _ (proj1 HR)), (chain_lookup _ _ _ _ _ _ (proj1 HR')).
Qed.

(** X24. [pop_front()] leaves the state that [erase(begin())] leaves, and
    [pop_back()] the state that [erase] at the last element leaves; on an
    empty list all four change nothing.  [erase] returns the new
    [begin()] in the first case and [end()] in the second. *)
Theorem pop_same_as_erase h l cs :
  chain h l cs →
  (∃ it l' h',
     erase l h (begin l) = Ok (it, l', h') ∧ pop_front l h = Ok (l', h') ∧
     it = begin l') ∧
  (∀ pos, node_ptr pos = tail l →
     ∃ it l' h',
       erase l h pos = Ok (it, l', h') ∧ pop_back l h = Ok (l', h') ∧
       it = end_ l').
Proof.
  intros Hc. pose proof Hc as (_ & _ & Hh & Ht). split.
  - destruct cs as [|[c vc] ys].
    + rewrite pop_front_empty by done. unfold erase, begin. rewrite Hh. simpl.
      eexists _, l, h. split_and!; try done. unfold end_. by rewrite Hh.
    + assert (node_ptr (begin l) = Some c) as Hpos by done.
      destruct (erase_spec h l [] c vc ys (begin l) Hc Hpos) as (l1 & h1 & E1 & _).
      destruct (pop_front_spec h l c vc ys Hc) as (l2 & h2 & E2 & _).
      destruct (erase_moved h l [] c vc ys (begin l) _ _ _ Hc Hpos E1)
        as (_ & Hc1 & Hs1 & Hm1 & _).
      destruct (pop_front_moved _ _ _ _ _ _ _ Hc E2) as (Hc2 & Hs2 & Hm2 & _).
      destruct (same_state h ((c, vc) :: ys) h1 l1 h2 l2 ys Hc1 Hc2) as [-> ->];
        try done; [congruence|].
      eexists _, l1, h1. split_and!; [done..|].
      unfold begin. destruct Hc1 as (_ & _ & -> & _). done.
  - intros pos Hpos. destruct cs as [|[c vc] xs _] using rev_ind.
    + rewrite pop_back_empty by done. unfold erase. rewrite Hpos, Ht. simpl.
      by eexists _, l, h.
    + rewrite Ht, last_of_snoc in Hpos. simpl in Hpos.
      destruct (erase_spec h l xs c vc [] pos Hc Hpos) as (l1 & h1 & E1 & _).
      destruct (pop_back_spec h l xs c vc Hc) as (l2 & h2 & E2 & _).
      destruct (erase_moved h l xs c vc [] pos _ _ _ Hc Hpos E1)
        as (_ & Hc1 & Hs1 & Hm1 & _).
      destruct (pop_back_moved _ _ _ _ _ _ _ Hc E2) as (Hc2 & Hs2 & Hm2 & _).
      rewrite app_nil_r in Hc1, Hm1.
      destruct (same_state h (xs ++ [(c, vc)]) h1 l1 h2 l2 xs Hc1 Hc2) as [-> ->];
        try done; [congruence|].
      by eexists _, l1, h1.
Qed.

(** X25. [erase(begin(), end())] leaves the state that [clear()] leaves:
    the empty list, with all its nodes freed. *)
Theorem erase_all_same_as_clear fuel h l cs :
  Rep h l cs → length cs ≤ fuel →
  ∃ l' h',
    clear fuel l h = Ok (l', h') ∧
    erase_range fuel l h (begin l) (end_ l) = Ok (end_ l, l', h').
Proof.
  intros (Hc & Hsz & Hmax) Hfuel. pose proof Hc as (_ & _ & Hh & _).
  destruct (clear_spec fuel h l cs Hc Hfuel) as (h1 & E1 & Hc1 & _).
  destruct (clear_moves fuel h l cs Hc _ _ E1) as (cs1 & Hc1' & Hm1).
  rewrite (chain_unique _ _ _ _ Hc1' Hc1) in Hm1.
  pose proof Hc as Hc0. rewrite <- (app_nil_r cs) in Hc0.
  assert (node_ptr (begin l) = first_of (cs ++ []) None) as Hfirst
    by (by rewrite app_nil_r).
  destruct (erase_range_spec fuel h l [] cs [] (begin l) (end_ l) Hc0 Hfirst eq_refl Hfuel)
    as (l2 & h2 & E2 & Hc2 & Hs2 & _).
  destruct (erase_range_moves fuel h l [] cs [] (begin l) (end_ l) Hc0 Hfirst eq_refl
              _ _ _ E2) as (cs2 & Hc2' & Hm2).
  rewrite (chain_unique _ _ _ _ Hc2' Hc2) in Hm2. simpl in Hm2, Hc2.
  rewrite app_nil_r in Hm2.
  destruct (same_state h cs h1 List_new h2 l2 [] Hc1 Hc2) as [-> ->]; try done.
  - rewrite Hs2, iter_size_decr by lia. simpl. lia.
  - by exists List_new, h1.
Qed.

Lemma bind_ret {A B} (a : A) (f : A → result B) : Ok a ≫= f = f a.
Proof. reflexivity. Qed.

(** [insert] at a node that is the head of neither list does the same to
    the store whichever list it is called on. *)
Lemma insert_elsewhere l l0 h pos v c it l' h' :
  node_ptr pos = Some c → head l ≠ Some c → head l0 ≠ Some c →
  insert l0 h pos v = Ok (it, l', h') →
  insert l h pos v = Ok (it, bump l, h').
Proof.
  intros Hpos Hl Hl0. unfold insert, new_Node. rewrite Hpos.
  rewrite !bool_decide_eq_false_2 by congruence.
  intros H. apply bind_Ok in H as ([l1 h1] & H1 & [= <- <- <-]).
  apply bind_Ok in H1 as (h2 & E2 & H1). rewrite E2, bind_ret.
  apply bind_Ok in H1 as (n2 & E3 & H1). rewrite E3, bind_ret.
  apply bind_Ok in H1 as (h3 & E4 & H1). rewrite E4, bind_ret.
  apply bind_Ok in H1 as (n3 & E5 & H1). rewrite E5, bind_ret.
  apply bind_Ok in H1 as (h4 & E6 & H1). rewrite E6, bind_ret.
  apply bind_Ok in H1 as (h5 & E7 & [= <- <-]). rewrite E7, !bind_ret. done.
Qed.

(** X26. No list checks that an iterator is its own.  [A.insert(pos,
    value)] with [pos] at an element of another list [B], not the first
    one, succeeds: the new element is put into [B], before [pos], while
    [B.getSize()] stays as it was; [A] holds the elements it held, while
    [A.getSize()] has grown by one.  Each list then reports a size that
    is not the number of its elements. *)
Theorem insert_foreign_iterator h A B ca xs c vc ys v :
  Rep h A ca → Rep h B (xs ++ (c, vc) :: ys) → xs ≠ [] →
  (∀ a, a ∈ ca.*1 → a ∉ (xs ++ (c, vc) :: ys).*1) →
  (size A < SIZE_MAX)%Z →
  ∃ it A' h',
    insert A h (mk_iterator (Some c)) v = Ok (it, A', h') ∧
    iterator_deref h' it = Ok v ∧
    contents h' A' ca.*2 ∧
    getSize A' = (Z.of_nat (length ca) + 1)%Z ∧
    contents h' B (xs.*2 ++ v :: vc :: ys.*2) ∧
    getSize B = (Z.of_nat (length (xs.*2 ++ v :: vc :: ys.*2)) - 1)%Z.
Proof.
  intros HRA HRB Hxs Hdisj Hroom.
  pose proof HRA as (HcA & HsA & _). pose proof HRB as (HcB & HsB & _).
  destruct (insert_spec h B xs ((c, vc) :: ys) (mk_iterator (Some c)) v HcB eq_refl)
    as (B' & h' & Heq & HcB' & _ & Hfr & _).
  assert (head B ≠ Some c) as HhB.
  { destruct HcB as (_ & Hnd & -> & _). destruct xs as [|[x vx] xs]; [done|]. simpl.
    intros [= ->]. simpl in Hnd.
    apply NoDup_cons in Hnd as [Hnin _]. apply Hnin.
    rewrite fmap_app, fmap_cons, elem_of_app, elem_of_cons. auto. }
  assert (head A ≠ Some c) as HhA.
  { destruct HcA as (_ & _ & -> & _). destruct ca as [|[x vx] ca]; [done|]. simpl.
    intros [= ->]. apply (Hdisj c).
    - rewrite fmap_cons. apply elem_of_cons. by left.
    - rewrite fmap_app, fmap_cons, elem_of_app, elem_of_cons. auto. }
  pose proof (insert_elsewhere A B h (mk_iterator (Some c)) v c _ _ _ eq_refl HhA HhB Heq)
    as HeqA.
  assert (chain h' B (xs ++ (alloc h, v) :: (c, vc) :: ys)) as HcB''.
  { destruct HcB as (_ & _ & HhB0 & HtB0), HcB' as (Hs' & Hnd' & _ & _).
    split_and!; try done.
    - rewrite HhB0. by destruct xs.
    - rewrite HtB0. rewrite !last_of_app. done. }
  assert (Rep h' A ca) as HRA'.
  { apply (Rep_agree h); [|done]. intros a Ha. apply Hfr.
    - by apply Hdisj.
    - exact (Rep_allocated h A ca a HRA Ha). }
  exists (mk_iterator (Some (alloc h))), (bump A), h'. split_and!.
  - done.
  - unfold iterator_deref, load. simpl. by rewrite (chain_lookup _ _ _ _ _ _ HcB'').
  - exists ca. split; [|done]. apply chain_size_bump, HRA'.
  - unfold getSize. simpl. rewrite size_incr_small by lia. lia.
  - exists (xs ++ (alloc h, v) :: (c, vc) :: ys). split; [done|]. by rewrite fmap_app.
  - unfold getSize. rewrite HsB, !length_app, !length_fmap. simpl. rewrite !length_fmap. lia.
Qed.

End Properties.

#[local] Existing Instance bump_allocator.
#[local] Existing Instance int_default.

(** * [List<int>] with the bump allocator: the scenarios of the specification *)

Example scenario_A_contents : play scenario_A = Ok ([10; 20; 30]%Z, 3%Z).
Proof. vm_compute. reflexivity. Qed.

(** [insert(begin(), 5)], then [insert(begin(), 2, 15)]. *)
Example scenario_B_C :
  play (scenario_A ++ [Insert 0 (at_node 1) 5%Z]) = Ok ([5; 10; 20; 30]%Z, 4%Z) ∧
  play (scenario_A ++ [Insert 0 (at_node 1) 5%Z; InsertCount 0 (at_node 4) 2 15%Z])
  = Ok ([15; 15; 5; 10; 20; 30]%Z, 6%Z).
Proof. split; vm_compute; reflexivity. Qed.

(** [erase(begin())], then [erase(begin(), end())]. *)
Example scenario_D :
  play (scenario_A ++ [Insert 0 (at_node 1) 5%Z; InsertCount 0 (at_node 4) 2 15%Z;
                       Erase 0 (at_node 6)])
  = Ok ([15; 5; 10; 20; 30]%Z, 5%Z) ∧
  play (scenario_A ++ [Insert 0 (at_node 1) 5%Z; InsertCount 0 (at_node 4) 2 15%Z;
                       Erase 0 (at_node 6); EraseRange 0 (at_node 5) at_end])
  = Ok ([], 0%Z).
Proof. split; vm_compute; reflexivity. Qed.

(** [resize(5, 99)], then [pop_back(); pop_front()]. *)
Example scenario_E :
  play (scenario_A ++ [ResizeValue 0 5 99%Z]) = Ok ([10; 20; 30; 99; 99]%Z, 5%Z) ∧
  play (scenario_A ++ [ResizeValue 0 5 99%Z; PopBack 0; PopFront 0])
  = Ok ([20; 30; 99]%Z, 3%Z).
Proof. split; vm_compute; reflexivity. Qed.

(** [front()] on the empty list throws, [pop_back()] on it does nothing. *)
Example scenario_F :
  front (@List_new) (∅ : gmap addr (@Node Z)) = Throw out_of_range ∧
  play [Construct; PopBack 0] = Ok ([], 0%Z).
Proof. split; vm_compute; reflexivity. Qed.

(** C1. The range [insert] does not keep the source order.  On the list
    [10, 20, 30], [insert(pos, first, last)] with [pos] at the element [20]
    and the source [1, 2, 3] leaves [10, 3, 2, 1, 20, 30]: each element goes
    before the one inserted just before it, not before [pos]. *)
Theorem insert_range_reverses_source :
  play (scenario_A ++ [InsertRange 0 (at_node 2) [1; 2; 3]%Z])
  = Ok ([10; 3; 2; 1; 20; 30]%Z, 6%Z) ∧
  play (scenario_A ++ [InsertRange 0 (at_node 2) [1; 2; 3]%Z])
  ≠ Ok ([10; 1; 2; 3; 20; 30]%Z, 6%Z).
Proof. split; vm_compute; [reflexivity|discriminate]. Qed.

(** * Instances of the theorems on concrete lists *)

Lemma two_chain_ok : chain two_nodes two_list two_chain.
Proof. repeat split. compute_done. Qed.

Lemma two_Rep : Rep two_nodes two_list two_chain.
Proof. split; [apply two_chain_ok|]. split; [reflexivity|]. by vm_compute. Qed.

(** [insert(begin(), 2, 15)] on [5, 10]. *)
Lemma insert_count_returns_first_witness :
  ∃ it l' h' news,
    insert_count two_list two_nodes (at_node 1) 2 15%Z = Ok (it, l', h') ∧
    chain h' l' ([] ++ news ++ two_chain) ∧
    length news = 2 ∧ news.*2 = replicate 2 15%Z ∧
    (∀ a, a ∈ news.*1 → two_nodes !! a = None) ∧
    node_ptr it = first_of news None ∧
    is_Some (node_ptr it) ∧
    advance h' (length (@nil (addr * Z))) (begin l') = Ok it.
Proof.
  apply (insert_count_returns_first
           two_nodes two_list [] two_chain (at_node 1) 2 15%Z).
  - apply two_chain_ok.
  - reflexivity.
  - lia.
Defined.

Lemma w_three_reachable : reachable w_three.
Proof.
  apply (reachable_step w_two (Insert 0 (at_node 2) 15%Z) 0).
  - apply (reachable_step w_one (PushBack 0 20%Z) 0).
    + apply (reachable_step w_made (PushBack 0 10%Z) 0).
      * apply (reachable_step w_start Construct 0); [constructor|exact I|reflexivity].
      * exists List_new. split; [reflexivity|by vm_compute].
      * vm_compute. reflexivity.
    + eexists. split; [reflexivity|by vm_compute].
    + vm_compute. reflexivity.
  - split.
    + eexists. split; [reflexivity|by vm_compute].
    + eexists. split; [reflexivity|]. exists 1. vm_compute. reflexivity.
  - vm_compute. reflexivity.
Defined.

Lemma invariant_preserved_witness :
  reachable w_three ∧
  (∀ l, l ∈ lists w_three → list_invariant (heap w_three) l) ∧
  (∀ o, legal_op w_three o →
     ∃ fuel w', step fuel o w_three = Ok w' ∧
       reachable w').
Proof.
  split; [apply w_three_reachable|].
  apply (invariant_preserved w_three).
  apply w_three_reachable.
Defined.

(** [front()] and [back()] on [List()] and on [5, 10]. *)
Lemma front_back_out_of_range_witness :
  (front (@List_new) (∅ : gmap addr (@Node Z)) = Throw out_of_range ∧
   back (@List_new) (∅ : gmap addr (@Node Z)) = Throw out_of_range) ∧
  (front two_list two_nodes = Ok 1%positive ∧ read two_nodes 1%positive = Ok 5%Z) ∧
  (back two_list two_nodes = Ok 2%positive ∧ read two_nodes 2%positive = Ok 10%Z).
Proof.
  destruct (front_back_out_of_range (T:=Z)) as (Hempty & Hfront & Hback & _).
  split; [|split].
  - apply Hempty, Rep_nil.
  - apply (Hfront _ _ _ _ [(2%positive, 10%Z)]), two_chain_ok.
  - apply (Hback _ _ [(1%positive, 5%Z)]), two_chain_ok.
Defined.

Lemma push_back_order_witness :
  ∃ l h',
    push_back_all List_new (∅ : gmap addr (@Node Z)) [10; 20; 30]%Z
    = Ok (l, h') ∧
    traverse 3 l h' = Ok [10; 20; 30]%Z ∧
    rtraverse 3 l h' = Ok (reverse [10; 20; 30]%Z).
Proof.
  apply (push_back_order [10; 20; 30]%Z ∅ 3).
  simpl. lia.
Defined.

(** [pop_back()] and [pop_front()] on [List()] and on [5, 10]. *)
Lemma pop_back_pop_front_witness :
  (pop_back (@List_new) (∅ : gmap addr (@Node Z)) = Ok (List_new, ∅) ∧
   pop_front (@List_new) (∅ : gmap addr (@Node Z)) = Ok (List_new, ∅) ∧
   getSize (@List_new) = 0%Z ∧ head (@List_new) = None ∧ tail (@List_new) = None) ∧
  (∃ l' h', pop_back two_list two_nodes = Ok (l', h') ∧
     Rep h' l' [(1%positive, 5%Z)] ∧ h' !! 2%positive = None ∧
     getSize l' = (getSize two_list - 1)%Z ∧
     tail l' = last_of None [(1%positive, 5%Z)] ∧
     ([(1%positive, 5%Z)] = [] → head l' = None ∧ tail l' = None)) ∧
  (∃ l' h', pop_front two_list two_nodes = Ok (l', h') ∧
     Rep h' l' [(2%positive, 10%Z)] ∧ h' !! 1%positive = None ∧
     getSize l' = (getSize two_list - 1)%Z ∧
     head l' = first_of [(2%positive, 10%Z)] None ∧
     ([(2%positive, 10%Z)] = [] → head l' = None ∧ tail l' = None)).
Proof.
  destruct (pop_back_pop_front (T:=Z)) as (Hempty & Hback & Hfront).
  split; [|split].
  - apply Hempty, Rep_nil.
  - apply (Hback _ _ [(1%positive, 5%Z)] 2%positive 10%Z), two_Rep.
  - apply (Hfront _ _ 1%positive 5%Z [(2%positive, 10%Z)]), two_Rep.
Defined.

Lemma w_pair_reachable : reachable w_pair.
Proof.
  apply (reachable_step w_pair_two (PushBack 1 3%Z) 0).
  - apply (reachable_step w_pair_one (PushBack 1 2%Z) 0).
    + apply (reachable_step w_pair_made (PushBack 0 1%Z) 0).
      * apply (reachable_step w_made Construct 0).
        -- apply (reachable_step w_start Construct 0); [constructor|exact I|reflexivity].
        -- exact I.
        -- reflexivity.
      * exists List_new. split; [reflexivity|by vm_compute].
      * vm_compute. reflexivity.
    + exists List_new. split; [reflexivity|by vm_compute].
    + vm_compute. reflexivity.
  - eexists. split; [reflexivity|by vm_compute].
  - vm_compute. reflexivity.
Defined.

Lemma move_assign_adopts_witness :
  (∃ fuel0, ∀ fuel, fuel0 ≤ fuel →
     ∃ w', move_assign fuel 0 1 w_pair = Ok w' ∧
       lists w' !! 0 = Some (mkList (Some 2%positive) (Some 3%positive) 2) ∧
       lists w' !! 1 = Some List_new ∧
       (∀ vs, contents (heap w_pair) (mkList (Some 2%positive) (Some 3%positive) 2) vs →
          contents (heap w') (mkList (Some 2%positive) (Some 3%positive) 2) vs) ∧
       world_inv w') ∧
  (∀ fuel, move_assign fuel 0 0 w_pair = Ok w_pair).
Proof.
  destruct (move_assign_adopts (T:=Z)) as [Hmove Hself]. split.
  - apply (Hmove w_pair 0 1 (mkList (Some 1%positive) (Some 1%positive) 1)).
    + apply (reachable_world_inv w_pair), w_pair_reachable.
    + lia.
    + reflexivity.
    + reflexivity.
  - intros fuel. apply Hself.
Defined.

Lemma two_contents : contents two_nodes two_list [5; 10]%Z.
Proof. exists two_chain. split; [apply two_chain_ok|reflexivity]. Qed.

Lemma range_ends_order_witness :
  contents two_nodes two_list [5; 10]%Z ∧
  (prepend_range two_list two_nodes [1; 2; 3]%Z
   = prepend_range_loop two_list two_nodes (reverse [1; 2; 3]%Z)) ∧
  (∃ l' h', prepend_range two_list two_nodes [1; 2; 3]%Z = Ok (l', h') ∧
     contents h' l' ([1; 2; 3] ++ [5; 10])%Z ∧
     traverse (length ([1; 2; 3] ++ [5; 10])%Z) l' h' = Ok ([1; 2; 3] ++ [5; 10])%Z) ∧
  (∃ l' h', append_range two_list two_nodes [1; 2; 3]%Z = Ok (l', h') ∧
     contents h' l' ([5; 10] ++ [1; 2; 3])%Z ∧
     traverse (length ([5; 10] ++ [1; 2; 3])%Z) l' h' = Ok ([5; 10] ++ [1; 2; 3])%Z).
Proof.
  split; [apply two_contents|].
  apply (range_ends_order two_nodes two_list
           [5; 10]%Z [1; 2; 3]%Z).
  apply two_contents.
Defined.

Lemma swap_self_witness :
  lists w_three !! 0 = Some (mkList (Some 1%positive) (Some 2%positive) 3) ∧
  swap 0 0 w_three = Ok w_three ∧
  (∀ w', swap 0 0 w_three = Ok w' →
     lists w' !! 0 = Some (mkList (Some 1%positive) (Some 2%positive) 3) ∧
     heap w' = heap w_three ∧
     ∀ fuel, traverse fuel (mkList (Some 1%positive) (Some 2%positive) 3) (heap w')
             = traverse fuel (mkList (Some 1%positive) (Some 2%positive) 3)
                 (heap w_three)).
Proof.
  split; [reflexivity|].
  apply (swap_self w_three 0 (mkList (Some 1%positive) (Some 2%positive) 3)).
  reflexivity.
Defined.

(** * The further properties, on concrete lists *)

(** X23. The driver of the repository runs to its end without undefined
    behaviour and without an exception (no loop of it makes more than
    [11] iterations); it prints the front and the back element, the list
    after each group of calls and the final size as given here, line by
    line, and when it returns, the destructors of its two lists leave no
    node in the store. *)
Theorem main_output :
  main 11
  = Ok ([[10]; [50];
         [10; 20; 30; 40; 50];
         [5; 10; 20; 30; 40; 50];
         [15; 15; 5; 10; 20; 30; 40; 50];
         [15; 5; 10; 20; 30; 40; 50];
         [];
         [10; 20; 30; 99; 99];
         [20; 30; 99];
         [99; 30; 20];
         [20; 30; 99; 1; 2; 3];
         [4; 5; 6; 20; 30; 99; 1; 2; 3];
         [100; 4; 5; 6; 20; 30; 99; 1; 2; 3];
         [100; 4; 5; 6; 20; 30; 99; 1; 2; 3; 200];
         [999; 888];
         [100; 4; 5; 6; 20; 30; 99; 1; 2; 3; 200];
         [0]]%Z,
        mkWorld [List_new; List_new] ∅).
Proof. vm_compute. reflexivity. Qed.

(** [insert(pos, 7)] before the [10] of [5, 10]. *)
Lemma insert_places_value_witness :
  ∃ it l' h',
    insert two_list two_nodes (at_node 2) 7%Z = Ok (it, l', h') ∧
    contents h' l' [5; 7; 10]%Z ∧
    getSize l' = 3%Z ∧
    iterator_deref h' it = Ok 7%Z ∧
    advance h' 1 (begin l') = Ok it ∧
    iterator_incr h' it = Ok (at_node 2) ∧
    (∀ c vc, (c, vc) ∈ two_chain →
       iterator_deref h' (mk_iterator (Some c)) = Ok vc).
Proof.
  apply (insert_places_value two_nodes two_list
           [(1%positive, 5%Z)] [(2%positive, 10%Z)] (at_node 2) 7%Z).
  - apply two_Rep.
  - reflexivity.
  - reflexivity.
Defined.

(** [erase] of the [5] of [5, 10]. *)
Lemma erase_removes_element_witness :
  ∃ it l' h',
    erase two_list two_nodes (at_node 1) = Ok (it, l', h') ∧
    contents h' l' [10]%Z ∧
    getSize l' = 1%Z ∧
    node_ptr it = Some 2%positive ∧
    advance h' 0 (begin l') = Ok it ∧
    h' !! 1%positive = None ∧
    iterator_deref h' (at_node 1) = Undefined ∧
    erase l' h' (at_node 1) = Undefined ∧
    (∀ c' vc', (c', vc') ∈ [(2%positive, 10%Z)] →
       iterator_deref h' (mk_iterator (Some c')) = Ok vc').
Proof.
  apply (erase_removes_element two_nodes two_list
           [] 1%positive 5%Z [(2%positive, 10%Z)] (at_node 1)).
  - apply two_Rep.
  - reflexivity.
Defined.

(** [erase(begin(), end())] on [5, 10]. *)
Lemma erase_range_removes_witness :
  ∃ l' h',
    erase_range 2 two_list two_nodes (at_node 1) at_end = Ok (at_end, l', h') ∧
    contents h' l' [] ∧
    getSize l' = 0%Z ∧
    (∀ a, a ∈ two_chain.*1 → h' !! a = None) ∧
    (∀ c vc, (c, vc) ∈ @nil (addr * Z) →
       iterator_deref h' (mk_iterator (Some c)) = Ok vc) ∧
    (∀ a, a ∉ two_chain.*1 → h' !! a = two_nodes !! a).
Proof.
  apply (erase_range_removes 2 two_nodes two_list [] two_chain [] (at_node 1) at_end).
  - apply two_Rep.
  - reflexivity.
  - reflexivity.
  - simpl. lia.
Defined.


(** [clear()] on [5, 10]. *)
Lemma clear_frees_all_witness :
  ∃ l' h',
    clear 2 two_list two_nodes = Ok (l', h') ∧
    List_destroy 2 two_list two_nodes = Ok (l', h') ∧
    contents h' l' [] ∧ empty l' = true ∧ getSize l' = 0%Z ∧
    front l' h' = Throw out_of_range ∧
    (∀ a, a ∈ two_chain.*1 → h' !! a = None) ∧
    (∀ a, a ∈ two_chain.*1 → iterator_deref h' (mk_iterator (Some a)) = Undefined) ∧
    (∀ a, a ∉ two_chain.*1 → h' !! a = two_nodes !! a) ∧
    clear 2 l' h' = Ok (l', h').
Proof.
  apply (clear_frees_all 2 two_nodes two_list two_chain).
  - apply two_chain_ok.
  - simpl. lia.
Defined.

(** [insert(pos, {1, 2, 3})] before the [10] of [5, 10]. *)
Lemma insert_range_reversed_witness :
  ∃ it l' h',
    insert_range two_list two_nodes (at_node 2) [1; 2; 3]%Z = Ok (it, l', h') ∧
    insert_ilist two_list two_nodes (at_node 2) [1; 2; 3]%Z = Ok (it, l', h') ∧
    contents h' l' [5; 3; 2; 1; 10]%Z ∧
    getSize l' = 5%Z ∧
    advance h' 1 (begin l') = Ok it ∧
    (∀ x, last [1; 2; 3]%Z = Some x → iterator_deref h' it = Ok x) ∧
    ([1; 2; 3]%Z = [] → it = at_node 2 ∧ l' = two_list ∧ h' = two_nodes).
Proof.
  apply (insert_range_reversed two_nodes two_list
           [(1%positive, 5%Z)] [(2%positive, 10%Z)] (at_node 2) [1; 2; 3]%Z).
  - apply two_Rep.
  - reflexivity.
  - by vm_compute.
Defined.

(** [resize(5, 99)] on [5, 10]. *)
Lemma resize_contents_witness :
  ∃ l' h',
    resize 3 two_list two_nodes 5 99%Z = Ok (l', h') ∧
    contents h' l' [5; 10; 99; 99; 99]%Z ∧
    getSize l' = 5%Z ∧
    (∀ c vc, (c, vc) ∈ two_chain →
       iterator_deref h' (mk_iterator (Some c)) = Ok vc) ∧
    (5%Z = getSize two_list → l' = two_list ∧ h' = two_nodes).
Proof.
  apply (resize_contents 3 two_nodes two_list two_chain 5 99%Z).
  - apply two_Rep.
  - by vm_compute.
  - by vm_compute.
Defined.

(** [swap] of the lists [1] and [2, 3]. *)
Lemma swap_exchanges_witness :
  ∃ w',
    swap 0 1 w_pair = Ok w' ∧
    lists w' !! 0 = Some (mkList (Some 2%positive) (Some 3%positive) 2) ∧
    lists w' !! 1 = Some (mkList (Some 1%positive) (Some 1%positive) 1) ∧
    (∀ i, i ≠ 0 → i ≠ 1 → lists w' !! i = lists w_pair !! i) ∧
    heap w' = heap w_pair ∧
    swap 1 0 w_pair = Ok w' ∧
    swap 0 1 w' = Ok w_pair.
Proof.
  apply (swap_exchanges 0 1 w_pair).
  - reflexivity.
  - reflexivity.
Defined.

(** [A = B] for the lists [A = 1] and [B = 2, 3]. *)
Lemma copy_assign_copies_witness :
  ∃ w' a',
    copy_assign 5 0 1 w_pair = Ok w' ∧
    lists w' !! 0 = Some a' ∧
    lists w' !! 1 = Some (mkList (Some 2%positive) (Some 3%positive) 2) ∧
    getSize a' = 2%Z ∧
    (∀ vs, contents (heap w_pair) (mkList (Some 2%positive) (Some 3%positive) 2) vs →
       contents (heap w') a' vs ∧
       contents (heap w') (mkList (Some 2%positive) (Some 3%positive) 2) vs) ∧
    (∀ ca cb, chain (heap w') a' ca →
       chain (heap w') (mkList (Some 2%positive) (Some 3%positive) 2) cb →
       ∀ x, x ∈ ca.*1 → x ∉ cb.*1) ∧
    world_inv w' ∧
    copy_assign 5 0 0 w_pair = Ok w_pair.
Proof.
  apply (copy_assign_copies 5 0 1 w_pair (mkList (Some 1%positive) (Some 1%positive) 1)).
  - apply (reachable_world_inv w_pair), w_pair_reachable.
  - lia.
  - reflexivity.
  - reflexivity.
  - by vm_compute.
  - by vm_compute.
Defined.

(** [assign({7, 8, 9})] on [5, 10]. *)
Lemma assign_replaces_witness :
  ∃ l' h',
    assign_range 2 two_list two_nodes [7; 8; 9]%Z = Ok (l', h') ∧
    contents h' l' [7; 8; 9]%Z ∧
    getSize l' = 3%Z ∧
    (∀ a, a ∉ two_chain.*1 → is_Some (two_nodes !! a) → h' !! a = two_nodes !! a) ∧
    (∀ count v, [7; 8; 9]%Z = replicate count v →
       assign_count 2 two_list two_nodes count v = Ok (l', h')).
Proof.
  apply (assign_replaces 2 two_nodes two_list two_chain [7; 8; 9]%Z).
  - apply two_chain_ok.
  - simpl. lia.
  - by vm_compute.
Defined.

(** [emplace_back(7)] and [emplace_front(7)] on [5, 10]. *)
Lemma emplace_returns_reference_witness :
  (∃ r l' h',
     emplace_back two_list two_nodes 7%Z = Ok (r, l', h') ∧
     back l' h' = Ok r ∧ read h' r = Ok 7%Z ∧
     contents h' l' [5; 10; 7]%Z ∧ getSize l' = 3%Z ∧
     (two_chain ≠ [] → front l' h' = front two_list two_nodes)) ∧
  (∃ r l' h',
     emplace_front two_list two_nodes 7%Z = Ok (r, l', h') ∧
     front l' h' = Ok r ∧ read h' r = Ok 7%Z ∧
     contents h' l' [7; 5; 10]%Z ∧ getSize l' = 3%Z ∧
     (two_chain ≠ [] → back l' h' = back two_list two_nodes)).
Proof.
  apply (emplace_returns_reference two_nodes two_list two_chain 7%Z).
  - apply two_Rep.
  - reflexivity.
Defined.

(** [push_back(7)] and [emplace_back(7)], [push_front(7)] and
    [emplace_front(7)] on [5, 10]. *)
Lemma push_same_as_emplace_witness :
  (∃ r l' h',
     emplace_back two_list two_nodes 7%Z = Ok (r, l', h') ∧
     push_back two_list two_nodes 7%Z = Ok (l', h')) ∧
  (∃ r l' h',
     emplace_front two_list two_nodes 7%Z = Ok (r, l', h') ∧
     push_front two_list two_nodes 7%Z = Ok (l', h')).
Proof.
  apply (push_same_as_emplace two_nodes two_list two_chain 7%Z).
  apply two_chain_ok.
Defined.

(** [insert(begin(), 7)] and [insert(end(), 7)] on [5, 10]. *)
Lemma insert_at_the_ends_witness :
  (∃ it l' h',
     insert two_list two_nodes (begin two_list) 7%Z = Ok (it, l', h') ∧
     push_front two_list two_nodes 7%Z = Ok (l', h') ∧
     it = begin l') ∧
  (∃ it l' h',
     insert two_list two_nodes (end_ two_list) 7%Z = Ok (it, l', h') ∧
     push_back two_list two_nodes 7%Z = Ok (l', h') ∧
     node_ptr it = rnode_ptr (rbegin l')).
Proof.
  apply (insert_at_the_ends two_nodes two_list two_chain 7%Z).
  apply two_chain_ok.
Defined.

(** [push_back(7); pop_back()] and [push_front(7); pop_front()] on
    [5, 10]. *)
Lemma push_then_pop_restores_witness :
  (∃ l1 h1, push_back two_list two_nodes 7%Z = Ok (l1, h1) ∧
     pop_back l1 h1 = Ok (two_list, two_nodes)) ∧
  (∃ l1 h1, push_front two_list two_nodes 7%Z = Ok (l1, h1) ∧
     pop_front l1 h1 = Ok (two_list, two_nodes)).
Proof.
  apply (push_then_pop_restores two_nodes two_list two_chain 7%Z).
  apply two_Rep.
Defined.

(** [erase(insert(pos, 7))] before the [10] of [5, 10]. *)
Lemma insert_then_erase_restores_witness :
  ∃ it l1 h1,
    insert two_list two_nodes (at_node 2) 7%Z = Ok (it, l1, h1) ∧
    erase l1 h1 it = Ok (at_node 2, two_list, two_nodes).
Proof.
  apply (insert_then_erase_restores two_nodes two_list
           [(1%positive, 5%Z)] [(2%positive, 10%Z)] (at_node 2) 7%Z).
  - apply two_Rep.
  - reflexivity.
Defined.

(** The iterators at the two elements of [5, 10]. *)
Lemma iterator_steps_witness :
  iterator_deref two_nodes (at_node 1) = Ok 5%Z ∧
  (r ← iterator_arrow two_nodes (at_node 1); read two_nodes r) = Ok 5%Z ∧
  iterator_incr two_nodes (at_node 1) = Ok (at_node 2) ∧
  iterator_decr two_nodes (at_node 2) = Ok (at_node 1) ∧
  iterator_post_incr two_nodes (at_node 1) = Ok (at_node 1, at_node 2) ∧
  iterator_post_decr two_nodes (at_node 2) = Ok (at_node 2, at_node 1) ∧
  reverse_iterator_deref two_nodes (mk_reverse_iterator (Some 2%positive)) = Ok 10%Z ∧
  (r ← reverse_iterator_arrow two_nodes (mk_reverse_iterator (Some 2%positive));
   read two_nodes r) = Ok 10%Z ∧
  reverse_iterator_incr two_nodes (mk_reverse_iterator (Some 2%positive))
  = Ok (mk_reverse_iterator (Some 1%positive)) ∧
  reverse_iterator_decr two_nodes (mk_reverse_iterator (Some 1%positive))
  = Ok (mk_reverse_iterator (Some 2%positive)) ∧
  reverse_iterator_post_incr two_nodes (mk_reverse_iterator (Some 2%positive))
  = Ok (mk_reverse_iterator (Some 2%positive), mk_reverse_iterator (Some 1%positive)) ∧
  reverse_iterator_post_decr two_nodes (mk_reverse_iterator (Some 1%positive))
  = Ok (mk_reverse_iterator (Some 1%positive), mk_reverse_iterator (Some 2%positive)).
Proof.
  apply (iterator_steps two_nodes two_list [] 1%positive 5%Z 2%positive 10%Z []).
  apply two_chain_ok.
Defined.

(** The ends of [5, 10]. *)
Lemma iterators_at_the_ends_witness :
  advance two_nodes 2 (begin two_list) = Ok (end_ two_list) ∧
  (∀ cs' c vc, two_chain = cs' ++ [(c, vc)] →
     iterator_incr two_nodes (mk_iterator (Some c)) = Ok (end_ two_list) ∧
     rbegin two_list = mk_reverse_iterator (Some c) ∧
     reverse_iterator_deref two_nodes (rbegin two_list) = Ok vc) ∧
  (∀ c vc cs', two_chain = (c, vc) :: cs' →
     begin two_list = mk_iterator (Some c) ∧
     iterator_deref two_nodes (begin two_list) = Ok vc ∧
     iterator_decr two_nodes (begin two_list) = Ok (end_ two_list) ∧
     reverse_iterator_incr two_nodes (mk_reverse_iterator (Some c))
     = Ok (rend two_list)) ∧
  iterator_deref two_nodes (end_ two_list) = Undefined ∧
  iterator_incr two_nodes (end_ two_list) = Undefined ∧
  iterator_decr two_nodes (end_ two_list) = Undefined ∧
  reverse_iterator_deref two_nodes (rend two_list) = Undefined ∧
  reverse_iterator_incr two_nodes (rend two_list) = Undefined ∧
  reverse_iterator_decr two_nodes (rend two_list) = Undefined ∧
  (two_chain = [] → begin two_list = end_ two_list ∧ rbegin two_list = rend two_list).
Proof.
  apply (iterators_at_the_ends two_nodes two_list two_chain).
  apply two_chain_ok.
Defined.

(** The list [10, 15, 20] that a program made. *)
Lemma observers_agree_witness :
  ∃ vs,
    traverse 3 (mkList (Some 1%positive) (Some 2%positive) 3) (heap w_three) = Ok vs ∧
    rtraverse 3 (mkList (Some 1%positive) (Some 2%positive) 3) (heap w_three)
    = Ok (reverse vs) ∧
    Z.of_nat (length vs) = 3%Z ∧
    (empty (mkList (Some 1%positive) (Some 2%positive) 3) = true ↔ 3%Z = 0%Z) ∧
    (0 ≤ 3 ≤ SIZE_MAX)%Z.
Proof.
  apply (observers_agree w_three (mkList (Some 1%positive) (Some 2%positive) 3)).
  - apply w_three_reachable.
  - apply (list_elem_of_lookup_2 _ 0). reflexivity.
Defined.

(** The node of the [15] in the state with the list [10, 15, 20]. *)
Lemma every_node_in_one_list_witness :
  ∃ i l k,
    lists w_three !! i = Some l ∧
    advance (heap w_three) k (begin l) = Ok (mk_iterator (Some 3%positive)) ∧
    (∀ j l' k', lists w_three !! j = Some l' →
       advance (heap w_three) k' (begin l') = Ok (mk_iterator (Some 3%positive)) →
       j = i ∧ k' = k).
Proof.
  apply (every_node_in_one_list w_three 3%positive).
  - apply w_three_reachable.
  - exists (mkNode 15%Z (Some 2%positive) (Some 1%positive)). reflexivity.
Defined.

(** The end of the scope of the lists [1] and [2, 3]. *)
Lemma destructors_free_every_node_witness :
  ∃ fuel0, ∀ fuel, fuel0 ≤ fuel →
    ∃ w', destroy_all fuel 2 w_pair = Ok w' ∧ heap w' = ∅.
Proof.
  apply (destructors_free_every_node w_pair).
  apply w_pair_reachable.
Defined.

(** [A = std::move(B)] for the lists [A = 1] and [B = 2, 3]. *)
Lemma move_assign_releases_witness :
  ∃ w',
    move_assign 1 0 1 w_pair = Ok w' ∧
    (∀ x, x ∈ [(1%positive, 1%Z)].*1 → heap w' !! x = None) ∧
    (∀ x, x ∉ [(1%positive, 1%Z)].*1 → heap w' !! x = heap w_pair !! x) ∧
    lists w' !! 0 = Some (mkList (Some 2%positive) (Some 3%positive) 2) ∧
    lists w' !! 1 = Some List_new.
Proof.
  apply (move_assign_releases 1 0 1 w_pair
           (mkList (Some 1%positive) (Some 1%positive) 1)
           (mkList (Some 2%positive) (Some 3%positive) 2) [(1%positive, 1%Z)]).
  - lia.
  - reflexivity.
  - reflexivity.
  - repeat split. compute_done.
  - simpl. lia.
Defined.

(** [push_back(7)] on the first of the lists [1] and [2, 3]: the second
    list. *)
Lemma other_lists_untouched_witness :
  lists w_pair_pushed !! 1 = Some (mkList (Some 2%positive) (Some 3%positive) 2) ∧
  (∀ cs, chain (heap w_pair) (mkList (Some 2%positive) (Some 3%positive) 2) cs →
     chain (heap w_pair_pushed) (mkList (Some 2%positive) (Some 3%positive) 2) cs) ∧
  (∀ vs, contents (heap w_pair) (mkList (Some 2%positive) (Some 3%positive) 2) vs →
     contents (heap w_pair_pushed) (mkList (Some 2%positive) (Some 3%positive) 2) vs) ∧
  (∀ k it,
     advance (heap w_pair) k (begin (mkList (Some 2%positive) (Some 3%positive) 2))
     = Ok it →
     advance (heap w_pair_pushed) k (begin (mkList (Some 2%positive) (Some 3%positive) 2))
     = Ok it ∧
     iterator_deref (heap w_pair_pushed) it = iterator_deref (heap w_pair) it).
Proof.
  apply (other_lists_untouched 0 w_pair (PushBack 0 7%Z) w_pair_pushed 1).
  - apply w_pair_reachable.
  - exists (mkList (Some 1%positive) (Some 1%positive) 1). split; [reflexivity|by vm_compute].
  - vm_compute. reflexivity.
  - reflexivity.
  - simpl. intros Hin. apply elem_of_cons in Hin as [Hin|Hin]; [discriminate|].
    by apply elem_of_nil in Hin.
Defined.

(** [pop_front()] and [erase(begin())], [pop_back()] and [erase] at the
    last element, on [5, 10]. *)
Lemma pop_same_as_erase_witness :
  (∃ it l' h',
     erase two_list two_nodes (begin two_list) = Ok (it, l', h') ∧
     pop_front two_list two_nodes = Ok (l', h') ∧
     it = begin l') ∧
  (∀ pos, node_ptr pos = tail two_list →
     ∃ it l' h',
       erase two_list two_nodes pos = Ok (it, l', h') ∧
       pop_back two_list two_nodes = Ok (l', h') ∧
       it = end_ l').
Proof.
  apply (pop_same_as_erase two_nodes two_list two_chain).
  apply two_chain_ok.
Defined.

(** [clear()] and [erase(begin(), end())] on [5, 10]. *)
Lemma erase_all_same_as_clear_witness :
  ∃ l' h',
    clear 2 two_list two_nodes = Ok (l', h') ∧
    erase_range 2 two_list two_nodes (begin two_list) (end_ two_list)
    = Ok (end_ two_list, l', h').
Proof.
  apply (erase_all_same_as_clear 2 two_nodes two_list two_chain).
  - apply two_Rep.
  - simpl. lia.
Defined.

Lemma pair_Rep_first :
  Rep (heap w_pair) (mkList (Some 1%positive) (Some 1%positive) 1) [(1%positive, 1%Z)].
Proof. split; [repeat split; compute_done|]. split; [reflexivity|]. by vm_compute. Qed.

Lemma pair_Rep_second :
  Rep (heap w_pair) (mkList (Some 2%positive) (Some 3%positive) 2)
    ([(2%positive, 2%Z)] ++ [(3%positive, 3%Z)]).
Proof. split; [repeat split; compute_done|]. split; [reflexivity|]. by vm_compute. Qed.

(** [A.insert(pos, 7)] for the lists [A = 1] and [B = 2, 3], with [pos] at
    the [3] of [B]. *)
Lemma insert_foreign_iterator_witness :
  ∃ it A' h',
    insert (mkList (Some 1%positive) (Some 1%positive) 1) (heap w_pair) (at_node 3) 7%Z
    = Ok (it, A', h') ∧
    iterator_deref h' it = Ok 7%Z ∧
    contents h' A' [1]%Z ∧
    getSize A' = 2%Z ∧
    contents h' (mkList (Some 2%positive) (Some 3%positive) 2) [2; 7; 3]%Z ∧
    getSize (mkList (Some 2%positive) (Some 3%positive) 2) = 2%Z.
Proof.
  apply (insert_foreign_iterator (heap w_pair)
           (mkList (Some 1%positive) (Some 1%positive) 1)
           (mkList (Some 2%positive) (Some 3%positive) 2)
           [(1%positive, 1%Z)] [(2%positive, 2%Z)] 3%positive 3%Z [] 7%Z).
  - apply pair_Rep_first.
  - apply pair_Rep_second.
  - discriminate.
  - intros a Ha. apply list_elem_of_singleton in Ha as ->. compute_done.
  - reflexivity.
Defined.
